(** * golang-dsa: stack, queue and priority queue

    A shallow embedding of the three containers of the repository
    (the packages [stack], [queue] and [priorityqueue]) together with the
    part of Go's [container/heap] package that the priority queue calls.

    Conventions of the embedding.
    - A Go [int] is a [Z] in the range of a 64-bit signed integer; every
      arithmetic operation of the source is written with its wrap-around
      ([add64], [sub64], [mul64], [neg64], [quot64]).
    - A function that may panic (index out of range, nil dereference)
      returns an [option]; [None] is the panic.
    - A Go [(T, error)] result is a pair of a value and an [error].
    - Objects that are shared through pointers and mutated in place (the
      [Item]s of the priority queue, the [Node]s of the queue) live in an
      explicit store, a list addressed by allocation order. *)

From stdpp Require Import base numbers option list sets strings gmap sorting.
From Stdlib Require Import ZArith Lia PrimFloat.

Set Warnings "-register-all".

Local Open Scope Z_scope.

(** ** Go's [int] on a 64-bit platform *)

Module GoInt.

Definition min_int : Z := - 2 ^ 63.
Definition max_int : Z := 2 ^ 63 - 1.

(** Two's complement wrap-around into [min_int .. max_int]. *)
Definition wrap (z : Z) : Z := (z + 2 ^ 63) mod 2 ^ 64 - 2 ^ 63.

Definition add64 (a b : Z) : Z := wrap (a + b).
Definition sub64 (a b : Z) : Z := wrap (a - b).
Definition mul64 (a b : Z) : Z := wrap (a * b).
Definition neg64 (a : Z) : Z := wrap (- a).
(** Go's [/] truncates toward zero. *)
Definition quot64 (a b : Z) : Z := wrap (Z.quot a b).

Definition in_range (z : Z) : Prop := min_int <= z <= max_int.

End GoInt.
Import GoInt.

(** ** Go's [error] values, as far as the containers produce them *)

Inductive error : Type :=
| err_nil
| Errorf (msg : string).

Definition is_error (e : error) : bool :=
  match e with err_nil => false | Errorf _ => true end.

(** A pointer into a store of objects: the address of the object, in
    allocation order. *)
Abbreviation ptr := nat (only parsing).

(** ** Package [stack] ([stack/stack.go]) *)

Module stack.
Section Stack.

Context {T : Type}.
(** The zero value of the element type ([var zero T]). *)
Variable zero : T.

(** [type Node[T any] struct { Value T; Next *Node[T] }].  Stack nodes are
    never written after their creation, so the chain of [Next] pointers is
    an inductive value; [None] is the nil pointer. *)
Inductive Node : Type := mkNode { Value : T; Next : option Node }.

Record Stack : Type := mkStack { top : option Node; size : Z }.

Definition NewStack : Stack := {| top := None; size := 0 |}.

Definition IsEmpty (s : Stack) : bool :=
  match top s with None => true | Some _ => false end.

Definition Size (s : Stack) : Z := size s.

Definition Push (value : T) (s : Stack) : Stack :=
  let newNode := {| Value := value; Next := top s |} in
  {| top := Some newNode; size := add64 (size s) 1 |}.

(** [s.top.Value] after the emptiness test: the dereference of [top] is
    written out, a nil [top] would panic. *)
Definition Pop (s : Stack) : option (T * error * Stack) :=
  if IsEmpty s then Some (zero, Errorf "stack is empty", s)
  else
    n ← top s;
    Some (Value n, err_nil, {| top := Next n; size := sub64 (size s) 1 |}).

Definition Peek (s : Stack) : option (T * error) :=
  if IsEmpty s then Some (zero, Errorf "stack is empty")
  else n ← top s; Some (Value n, err_nil).

Definition Clear (s : Stack) : Stack := {| top := None; size := 0 |}.

(** The values held by a chain of nodes, top first. *)
Fixpoint chain (n : Node) : list T :=
  Value n :: match Next n with Some m => chain m | None => [] end.

Definition elements (s : Stack) : list T :=
  match top s with Some n => chain n | None => [] end.

(** [Push(v1); ...; Push(vn)], in this order. *)
Definition push_all (vs : list T) (s : Stack) : Stack :=
  foldl (fun s v => Push v s) s vs.

(** [k] successive calls of [Pop]; the results are collected in call
    order, together with the final stack. *)
Fixpoint pop_n (k : nat) (s : Stack) : option (list (T * error) * Stack) :=
  match k with
  | O => Some ([], s)
  | S k' =>
      '(v, e, s1) ← Pop s;
      '(rs, s2) ← pop_n k' s1;
      Some ((v, e) :: rs, s2)
  end.

(** The [size] field, a Go [int], counts the nodes of the chain. *)
Definition counted (s : Stack) : Prop :=
  size s = Z.of_nat (length (elements s)) /\ in_range (size s).

End Stack.

Arguments Node : clear implicits.
Arguments Stack : clear implicits.

(** *** [isValidParentheses]

    A [rune] is a Go [int32]; [s] below is the sequence of runes that
    [for _, char := range s] yields for the string. *)
Abbreviation rune := Z (only parsing).

(** [pairs := map[rune]rune{')': '(', ']': '[', '}': '{'}] *)
Definition pairs : gmap Z Z :=
  <[41 := 40]> (<[93 := 91]> (<[125 := 123]> ∅)).

(** [m[k]] on a map of runes: the zero value for a missing key. *)
Definition map_index (m : gmap Z Z) (k : Z) : Z := default 0 (m !! k).

Definition is_open (char : Z) : bool :=
  (char =? 40) || (char =? 91) || (char =? 123).

Definition is_close (char : Z) : bool :=
  (char =? 41) || (char =? 93) || (char =? 125).

(** The loop over the runes; a [return] inside the loop ends it. *)
Fixpoint isValidParentheses_loop (s : list Z) (stack : Stack Z) : option bool :=
  match s with
  | [] => Some (IsEmpty stack)
  | char :: s' =>
      if is_open char then isValidParentheses_loop s' (Push char stack)
      else if is_close char then
        if IsEmpty stack then Some false
        else
          '(top, _, stack1) ← Pop 0 stack;
          if negb (top =? map_index pairs char) then Some false
          else isValidParentheses_loop s' stack1
      else isValidParentheses_loop s' stack
  end.

Definition isValidParentheses (s : list Z) : option bool :=
  isValidParentheses_loop s NewStack.

(** Well-bracketed sequences of runes: brackets of the three kinds nest and
    follow each other, any other rune may stand anywhere. *)
Definition matching (o c : Z) : Prop :=
  (o = 40 /\ c = 41) \/ (o = 91 /\ c = 93) \/ (o = 123 /\ c = 125).

Inductive balanced : list Z -> Prop :=
| bal_nil : balanced []
| bal_wrap o c l : matching o c -> balanced l -> balanced (o :: l ++ [c])
| bal_app l1 l2 : balanced l1 -> balanced l2 -> balanced (l1 ++ l2)
| bal_other x l :
    is_open x = false -> is_close x = false -> balanced l -> balanced (x :: l).

End stack.

(** ** Package [queue] *)

Module queue.
Section Queue.

Context {T : Type}.
Variable zero : T.


(** [type Node[T any] struct { Value T; Next *Node[T] }].  [Push] writes the
    [Next] field of the node [rear] points to, a node that the chain from
    [front] also reaches, so the nodes are kept in a store. *)
Record Node : Type := mkNode { Value : T; Next : option ptr }.
(** [None] is the nil pointer. *)

(** [type Queue[T any] struct { front, rear *Node[T]; size int }], with the
    nodes allocated so far in [mem]. *)
Record Queue : Type := mkQueue {
  mem : list Node;
  front : option ptr;
  rear : option ptr;
  size : Z
}.

Definition NewQueue : Queue :=
  {| mem := []; front := None; rear := None; size := 0 |}.

Definition IsEmpty (q : Queue) : bool :=
  match front q with None => true | Some _ => false end.

Definition Size (q : Queue) : Z := size q.

(** [&Node[T]{...}]: the new node takes the next free address. *)
Definition alloc (m : list Node) (n : Node) : list Node * ptr :=
  (m ++ [n], length m).

Definition Push (value : T) (q : Queue) : option Queue :=
  let '(m1, newNode) := alloc (mem q) {| Value := value; Next := None |} in
  if IsEmpty q then
    Some {| mem := m1; front := Some newNode; rear := Some newNode;
            size := add64 (size q) 1 |}
  else
    (* q.rear.Next = newNode *)
    r ← rear q;
    n ← m1 !! r;
    let m2 := <[r := {| Value := Value n; Next := Some newNode |}]> m1 in
    Some {| mem := m2; front := front q; rear := Some newNode;
            size := add64 (size q) 1 |}.

Definition Pop (q : Queue) : option (T * error * Queue) :=
  if IsEmpty q then Some (zero, Errorf "queue is empty", q)
  else
    f ← front q;
    n ← mem q !! f;
    let value := Value n in
    let front1 := Next n in
    let rear1 := match front1 with None => None | Some _ => rear q end in
    Some (value, err_nil,
          {| mem := mem q; front := front1; rear := rear1;
             size := sub64 (size q) 1 |}).

Definition Front (q : Queue) : option (T * error) :=
  if IsEmpty q then Some (zero, Errorf "queue is empty")
  else f ← front q; n ← mem q !! f; Some (Value n, err_nil).

Definition Rear (q : Queue) : option (T * error) :=
  if IsEmpty q then Some (zero, Errorf "queue is empty")
  else r ← rear q; n ← mem q !! r; Some (Value n, err_nil).

Definition Clear (q : Queue) : Queue :=
  {| mem := mem q; front := None; rear := None; size := 0 |}.

Definition push_all (vs : list T) (q : Queue) : option Queue :=
  foldl (fun oq v => oq ≫= Push v) (Some q) vs.

Fixpoint pop_n (k : nat) (q : Queue) : option (list (T * error) * Queue) :=
  match k with
  | O => Some ([], q)
  | S k' =>
      '(v, e, q1) ← Pop q;
      '(rs, q2) ← pop_n k' q1;
      Some ((v, e) :: rs, q2)
  end.

(** Representation invariant: the queue holds the values [vs], in the nodes
    at the pairwise distinct addresses [ps], front first.  Every node points
    to the next one, the last one to nil; [front] is the first address and
    [rear] the last. *)
Definition node_at (m : list Node) (ps : list ptr) (vs : list T)
    (i : nat) : Prop :=
  forall p, ps !! i = Some p ->
    exists n, m !! p = Some n /\ vs !! i = Some (Value n) /\
              Next n = ps !! S i.

Definition holds (q : Queue) (ps : list ptr) (vs : list T) : Prop :=
  NoDup ps /\ length ps = length vs /\
  front q = head ps /\ rear q = last ps /\
  forall i, node_at (mem q) ps vs i.

(** [ToSlice]: [result := make([]T, 0, q.size)], which panics on a negative
    capacity (and on one beyond what can be allocated; the model leaves the
    allocator out), then the loop [for current != nil] along the [Next]
    pointers.  The loop runs on fuel: a walk that visits more nodes than the
    store holds goes around a cycle, where the loop of the source does not
    end. *)
Fixpoint ToSlice_loop (fuel : nat) (m : list Node) (current : option ptr)
    (result : list T) : option (list T) :=
  match fuel with
  | O => None
  | S fuel' =>
      match current with
      | None => Some result
      | Some p =>
          n ← m !! p;
          ToSlice_loop fuel' m (Next n) (result ++ [Value n])
      end
  end.

Definition ToSlice (q : Queue) : option (list T) :=
  if size q <? 0 then None
  else ToSlice_loop (S (length (mem q))) (mem q) (front q) [].

(** The [size] field, a Go [int], counts the values the queue holds. *)
Definition counted (q : Queue) (vs : list T) : Prop :=
  size q = Z.of_nat (length vs) /\ in_range (size q).

(** The queues a program can build with the public operations; [Front],
    [Rear], [IsEmpty], [Size] and [ToSlice] leave the queue as it is. *)
Inductive built : Queue -> Prop :=
| built_NewQueue : built NewQueue
| built_Push v q q' : built q -> Push v q = Some q' -> built q'
| built_Pop q v e q' : built q -> Pop q = Some (v, e, q') -> built q'
| built_Clear q : built q -> built (Clear q).

End Queue.

Arguments Node : clear implicits.
Arguments Queue : clear implicits.

(** A small queue of integers, written out in full: the state after
    [Push(5); Push(6)] on a new queue. *)
Definition two_pushed : Queue Z :=
  {| mem := [{| Value := 5; Next := Some 1%nat |};
             {| Value := 6; Next := None |}];
     front := Some 0%nat; rear := Some 1%nat; size := 2 |}.

End queue.

(** ** Package [priorityqueue] ([priorityqueue/priorityqueue.go]) and
       [container/heap] *)

Module priorityqueue.
Section PriorityQueue.

Context {T : Type}.
Variable zero : T.

(** [type CompareFunc[T any] func(a, b T) int] *)
Definition CompareFunc : Type := T -> T -> Z.

(** [type Item[T any] struct { Value T; Index int }] *)
Record Item : Type := mkItem { Value : T; Index : Z }.

(** [NewItem]: [&Item[T]{Value: value}]; [Index] starts as the zero value. *)
Definition NewItem (value : T) : Item := {| Value := value; Index := 0 |}.

(** [type priorityHeap[T any] struct { items []*Item[T]; compare; isMaxHeap }].
    [store] is the memory that holds the [Item] objects; the slice [items]
    and the handles given out by [ToSlice] point into it.  A [*Item[T]] is
    the address of the item in the store.  The queue only ever holds
    pointers that [Push] obtained from [NewItem], so a nil entry does not
    occur, and an address that the store does not hold stands for an
    invalid pointer. *)
Record priorityHeap : Type := mkHeap {
  store : list Item;
  items : list ptr;
  compare : CompareFunc;
  isMaxHeap : bool
}.

(** [s[i]] for a Go [int] index: out of range is a panic. *)
Definition index {A : Type} (l : list A) (i : Z) : option A :=
  if 0 <=? i then l !! Z.to_nat i else None.

(** [p.Index = i] through the pointer [p]. *)
Definition set_Index (p : ptr) (i : Z) (m : list Item) : option (list Item) :=
  it ← m !! p;
  Some (<[p := {| Value := Value it; Index := i |}]> m).

(** [p.Value = v] through the pointer [p]: the write a caller does on a
    handle before it calls [UpdateItem]. *)
Definition set_Value (p : ptr) (v : T) (h : priorityHeap) : option priorityHeap :=
  it ← store h !! p;
  Some {| store := <[p := {| Value := v; Index := Index it |}]> (store h);
          items := items h; compare := compare h; isMaxHeap := isMaxHeap h |}.

Definition with_items (h : priorityHeap) (s : list Item) (l : list ptr)
    : priorityHeap :=
  {| store := s; items := l; compare := compare h; isMaxHeap := isMaxHeap h |}.

(** *** The methods of [priorityHeap] ([heap.Interface]) *)

Definition priorityHeap_Len (h : priorityHeap) : Z :=
  Z.of_nat (length (items h)).

(** The test [Less] makes on the comparator's result. *)
Definition less (c : CompareFunc) (isMax : bool) (a b : T) : bool :=
  let cmp := c a b in
  if isMax then cmp >? 0 else cmp <? 0.

Definition priorityHeap_Less (h : priorityHeap) (i j : Z) : option bool :=
  pi ← index (items h) i;
  a ← store h !! pi;
  pj ← index (items h) j;
  b ← store h !! pj;
  Some (less (compare h) (isMaxHeap h) (Value a) (Value b)).

Definition priorityHeap_Swap (h : priorityHeap) (i j : Z) : option priorityHeap :=
  (* h.items[i], h.items[j] = h.items[j], h.items[i] *)
  pi ← index (items h) i;
  pj ← index (items h) j;
  let items1 := <[Z.to_nat j := pi]> (<[Z.to_nat i := pj]> (items h)) in
  (* h.items[i].Index = i *)
  a ← index items1 i;
  s1 ← set_Index a i (store h);
  (* h.items[j].Index = j *)
  b ← index items1 j;
  s2 ← set_Index b j s1;
  Some (with_items h s2 items1).

Definition priorityHeap_Push (h : priorityHeap) (item : ptr) : option priorityHeap :=
  s1 ← set_Index item (priorityHeap_Len h) (store h);
  Some (with_items h s1 (items h ++ [item])).

(** [old[n-1] = nil] clears a slot that the new slice [old[0 : n-1]] no
    longer covers; the slot is not part of the model. *)
Definition priorityHeap_Pop (h : priorityHeap) : option (ptr * priorityHeap) :=
  let old := items h in
  let n := Z.of_nat (length old) in
  item ← index old (sub64 n 1);
  s1 ← set_Index item (-1) (store h);
  Some (item, with_items h s1 (take (Z.to_nat (sub64 n 1)) old)).

(** *** [container/heap] of the Go standard library, at [priorityHeap]

    The loops of [up] and [down] run on fuel.  Every iteration that does not
    leave the loop has made a [Less] call succeed on an index that moves
    strictly toward the root ([up]) or away from it ([down]), so
    [S (length items)] iterations are never used up; [None] on an exhausted
    fuel is there to make the functions total. *)

Fixpoint up_loop (fuel : nat) (h : priorityHeap) (j : Z) : option priorityHeap :=
  match fuel with
  | O => None
  | S fuel' =>
      let i := quot64 (sub64 j 1) 2 in (* parent *)
      if i =? j then Some h
      else
        b ← priorityHeap_Less h j i;
        if negb b then Some h
        else h1 ← priorityHeap_Swap h i j; up_loop fuel' h1 i
  end.

Definition heap_up (h : priorityHeap) (j : Z) : option priorityHeap :=
  up_loop (S (length (items h))) h j.

Fixpoint down_loop (fuel : nat) (h : priorityHeap) (i n : Z)
    : option (priorityHeap * Z) :=
  match fuel with
  | O => None
  | S fuel' =>
      let j1 := add64 (mul64 2 i) 1 in
      if (j1 >=? n) || (j1 <? 0) then Some (h, i)
      else
        (* j := j1; if j2 := j1 + 1; j2 < n && h.Less(j2, j1) { j = j2 } *)
        let j2 := add64 j1 1 in
        j ← (if j2 <? n
             then (fun b : bool => if b then j2 else j1)
                    <$> priorityHeap_Less h j2 j1
             else Some j1);
        b ← priorityHeap_Less h j i;
        if negb b then Some (h, i)
        else h1 ← priorityHeap_Swap h i j; down_loop fuel' h1 j n
  end.

(** [down] returns whether the element moved ([i > i0]). *)
Definition heap_down (h : priorityHeap) (i0 n : Z) : option (priorityHeap * bool) :=
  '(h1, i) ← down_loop (S (length (items h))) h i0 n;
  Some (h1, i >? i0).

(** [for i := n/2 - 1; i >= 0; i-- { down(h, i, n) }] *)
Fixpoint init_loop (fuel : nat) (h : priorityHeap) (i n : Z) : option priorityHeap :=
  match fuel with
  | O => None
  | S fuel' =>
      if i >=? 0 then
        '(h1, _) ← heap_down h i n;
        init_loop fuel' h1 (sub64 i 1) n
      else Some h
  end.

Definition heap_Init (h : priorityHeap) : option priorityHeap :=
  let n := priorityHeap_Len h in
  init_loop (S (length (items h))) h (sub64 (quot64 n 2) 1) n.

Definition heap_Push (h : priorityHeap) (x : ptr) : option priorityHeap :=
  h1 ← priorityHeap_Push h x;
  heap_up h1 (sub64 (priorityHeap_Len h1) 1).

Definition heap_Pop (h : priorityHeap) : option (ptr * priorityHeap) :=
  let n := sub64 (priorityHeap_Len h) 1 in
  h1 ← priorityHeap_Swap h 0 n;
  '(h2, _) ← heap_down h1 0 n;
  priorityHeap_Pop h2.

Definition heap_Remove (h : priorityHeap) (i : Z) : option (ptr * priorityHeap) :=
  let n := sub64 (priorityHeap_Len h) 1 in
  h3 ← (if negb (n =? i) then
          h1 ← priorityHeap_Swap h i n;
          '(h2, moved) ← heap_down h1 i n;
          if negb moved then heap_up h2 i else Some h2
        else Some h);
  priorityHeap_Pop h3.

Definition heap_Fix (h : priorityHeap) (i : Z) : option priorityHeap :=
  '(h1, moved) ← heap_down h i (priorityHeap_Len h);
  if negb moved then heap_up h1 i else Some h1.

(** *** [PriorityQueue]

    [type PriorityQueue[T any] struct { heap *priorityHeap[T] }]: the queue
    is the heap it points to. *)
Definition PriorityQueue : Type := priorityHeap.

Definition NewMinQueue (compare : CompareFunc) : option PriorityQueue :=
  heap_Init {| store := []; items := []; compare := compare; isMaxHeap := false |}.

Definition NewMaxQueue (compare : CompareFunc) : option PriorityQueue :=
  heap_Init {| store := []; items := []; compare := compare; isMaxHeap := true |}.

Definition IsEmpty (pq : PriorityQueue) : bool := priorityHeap_Len pq =? 0.

Definition Size (pq : PriorityQueue) : Z := priorityHeap_Len pq.

(** [item := NewItem(value)] allocates the item at the next free address. *)
Definition Push (value : T) (pq : PriorityQueue) : option PriorityQueue :=
  let item := length (store pq) in
  heap_Push (with_items pq (store pq ++ [NewItem value]) (items pq)) item.

Definition Pop (pq : PriorityQueue) : option (T * error * PriorityQueue) :=
  if IsEmpty pq then Some (zero, Errorf "priority queue is empty", pq)
  else
    '(item, pq1) ← heap_Pop pq;
    it ← store pq1 !! item;
    Some (Value it, err_nil, pq1).

Definition Peek (pq : PriorityQueue) : option (T * error) :=
  if IsEmpty pq then Some (zero, Errorf "priority queue is empty")
  else
    p ← index (items pq) 0;
    it ← store pq !! p;
    Some (Value it, err_nil).

Definition UpdateItem (item : ptr) (pq : PriorityQueue) : option PriorityQueue :=
  it ← store pq !! item;
  heap_Fix pq (Index it).

Definition Remove (item : ptr) (pq : PriorityQueue) : option PriorityQueue :=
  it ← store pq !! item;
  '(_, pq1) ← heap_Remove pq (Index it);
  Some pq1.

Definition ToSlice (pq : PriorityQueue) : list ptr := items pq.

Definition Clear (pq : PriorityQueue) : option PriorityQueue :=
  heap_Init (with_items pq (store pq) (take 0 (items pq))).

(** [ReverseCompare]: [return -compare(a, b)] *)
Definition ReverseCompare (compare : CompareFunc) : CompareFunc :=
  fun a b => neg64 (compare a b).

(** [Push(v1); ...; Push(vn)], in this order. *)
Definition push_all (vs : list T) (pq : PriorityQueue) : option PriorityQueue :=
  foldl (fun o v => o ≫= Push v) (Some pq) vs.

(** [k] successive calls of [Pop], the results in call order. *)
Fixpoint pop_n (k : nat) (pq : PriorityQueue)
    : option (list (T * error) * PriorityQueue) :=
  match k with
  | O => Some ([], pq)
  | S k' =>
      '(v, e, pq1) ← Pop pq;
      '(rs, pq2) ← pop_n k' pq1;
      Some ((v, e) :: rs, pq2)
  end.

(** *** The fix-up the specification describes

    A second definition, written after the words of the specification and
    not after the source: "attempt sift-up first, and only attempt sift-down
    if no upward swap occurred".  [up_loop_at] is the loop of [up] that
    also reports where the item ended. *)

Fixpoint up_loop_at (fuel : nat) (h : priorityHeap) (j : Z)
    : option (priorityHeap * Z) :=
  match fuel with
  | O => None
  | S fuel' =>
      let i := quot64 (sub64 j 1) 2 in
      if i =? j then Some (h, j)
      else
        b ← priorityHeap_Less h j i;
        if negb b then Some (h, j)
        else h1 ← priorityHeap_Swap h i j; up_loop_at fuel' h1 i
  end.

Definition Fix_up_first (h : priorityHeap) (i : Z) : option priorityHeap :=
  '(h1, j) ← up_loop_at (S (length (items h))) h i;
  if negb (j =? i) then Some h1
  else fst <$> heap_down h1 i (priorityHeap_Len h1).

Definition UpdateItem_up_first (item : ptr) (pq : PriorityQueue)
    : option PriorityQueue :=
  it ← store pq !! item;
  Fix_up_first pq (Index it).

(** *** Vocabulary of the specification *)

(** Position-index consistency: the item stored at position [i] of the
    backing array records [i] in its [Index] field. *)
Definition idx_ok (h : priorityHeap) : Prop :=
  forall (i : nat) (p : ptr), items h !! i = Some p ->
    exists it, store h !! p = Some it /\ Index it = Z.of_nat i.

(** The stored values in array order. *)
Definition vals (h : priorityHeap) : list T :=
  (fun p => from_option Value zero (store h !! p)) <$> items h.

(** The effective ordering of a heap. *)
Definition lt_of (h : priorityHeap) : T -> T -> bool :=
  less (compare h) (isMaxHeap h).

(** The slice is short enough for [2*i + 2] not to overflow on any of its
    positions. *)
Definition fits (h : priorityHeap) : Prop := priorityHeap_Len h < 2 ^ 62.

Definition parent (k : nat) : nat := (k - 1) / 2.

Section Order.

Variable lt : T -> T -> bool.

(** The value at position [k] does not come before the one at its parent. *)
Definition ok_at (l : list T) (k : nat) : Prop :=
  forall a b, l !! k = Some a -> l !! parent k = Some b -> lt a b = false.

(** The heap invariant on the first [n] positions. *)
Definition heap_upto (l : list T) (n : nat) : Prop :=
  forall k, (k < n)%nat -> ok_at l k.

(** The value at position [k] does not come before the one at its
    grandparent. *)
Definition gp_ok (l : list T) (k : nat) : Prop :=
  forall a b, l !! k = Some a -> l !! parent (parent k) = Some b ->
              lt a b = false.

(** The children of [i] are in order with [i]. *)
Definition children_ok (l : list T) (n i : nat) : Prop :=
  forall k, (k < n)%nat -> k <> i -> parent k = i -> ok_at l k.

(** The heap invariant with a hole at [i]: the value at [i] may be out of
    order with its parent and with its children, everything else is in
    order, and so are the children of [i] with its parent. *)
Definition hole (l : list T) (n i : nat) : Prop :=
  (forall k, (k < n)%nat -> k <> i -> parent k <> i -> ok_at l k) /\
  ((0 < i)%nat -> forall k, (k < n)%nat -> parent k = i -> gp_ok l k).

(** No child of [i] holds a value that comes before [b]. *)
Definition least_child (l : list T) (n i : nat) (b : T) : Prop :=
  forall s c, (s < n)%nat -> s <> i -> parent s = i -> l !! s = Some c ->
              lt c b = false.

(** The value [v] at position [i] comes before every other value. *)
Definition before_all (l : list T) (i : nat) (v : T) : Prop :=
  l !! i = Some v /\
  forall k a, k <> i -> l !! k = Some a -> lt v a = true.

End Order.

(** The heap invariant of a queue. *)
Definition heap_ok (h : priorityHeap) : Prop :=
  heap_upto (lt_of h) (vals h) (length (items h)).

(** The comparator contract: the sign of [compare b a] is the opposite of
    the sign of [compare a b], and "not after" is transitive. *)
Record CompareOK (c : CompareFunc) : Prop := {
  cmp_antisym : forall a b, c a b < 0 <-> c b a > 0;
  cmp_trans : forall a b d, c a b <= 0 -> c b d <= 0 -> c a d <= 0
}.

(** The runs of the loops of [up] and [down], as relations: [up_run h j h']
    when [up(h, j)] ends in [h'], and [down_run h i n h' i'] when the loop
    of [down(h, i, n)] ends in [h'] with its index at [i']. *)
Inductive up_run : priorityHeap -> nat -> priorityHeap -> Prop :=
| up_root h : up_run h 0 h
| up_stay h j :
    (0 < j)%nat ->
    priorityHeap_Less h (Z.of_nat j) (Z.of_nat (parent j)) = Some false ->
    up_run h j h
| up_swap h j h1 h' :
    (0 < j)%nat ->
    priorityHeap_Less h (Z.of_nat j) (Z.of_nat (parent j)) = Some true ->
    priorityHeap_Swap h (Z.of_nat (parent j)) (Z.of_nat j) = Some h1 ->
    up_run h1 (parent j) h' ->
    up_run h j h'.

(** The child [down] compares with [i]: the right one when it exists and
    comes before the left one. *)
Definition pick (h : priorityHeap) (i n : nat) : option nat :=
  if decide (2 * i + 2 < n)%nat
  then (fun b : bool => if b then (2 * i + 2)%nat else (2 * i + 1)%nat)
         <$> priorityHeap_Less h (Z.of_nat (2 * i + 2)) (Z.of_nat (2 * i + 1))
  else Some (2 * i + 1)%nat.

Inductive down_run : priorityHeap -> nat -> nat -> priorityHeap -> nat -> Prop :=
| down_leaf h i n : (n <= 2 * i + 1)%nat -> down_run h i n h i
| down_stay h i n j :
    (2 * i + 1 < n)%nat ->
    pick h i n = Some j ->
    priorityHeap_Less h (Z.of_nat j) (Z.of_nat i) = Some false ->
    down_run h i n h i
| down_swap h i n j h1 h' i' :
    (2 * i + 1 < n)%nat ->
    pick h i n = Some j ->
    priorityHeap_Less h (Z.of_nat j) (Z.of_nat i) = Some true ->
    priorityHeap_Swap h (Z.of_nat i) (Z.of_nat j) = Some h1 ->
    down_run h1 j n h' i' ->
    down_run h i n h' i'.

(** [h'] holds the same items as [h]: the same comparator and orientation,
    the same pointers in another order, the same [Value] behind every
    pointer, and nothing changed behind the pointers the queue does not
    hold. *)
Definition same_items (h h' : priorityHeap) : Prop :=
  compare h' = compare h /\ isMaxHeap h' = isMaxHeap h /\
  length (store h') = length (store h) /\
  (forall p, Value <$> store h' !! p = Value <$> store h !! p) /\
  (forall p, p ∉ items h -> store h' !! p = store h !! p) /\
  items h' ≡ₚ items h.

(** [h'] is [h] without the item behind [p], whose value is [v]; the item
    itself now records the index [-1]. *)
Definition removed (h : priorityHeap) (p : ptr) (v : T) (h' : priorityHeap)
    : Prop :=
  compare h' = compare h /\ isMaxHeap h' = isMaxHeap h /\
  items h ≡ₚ p :: items h' /\
  vals h ≡ₚ v :: vals h' /\
  (exists it, store h' !! p = Some it /\ Value it = v /\ Index it = -1) /\
  idx_ok h'.

(** The invariant of a queue in use: consistent indices, the heap order,
    and a slice short enough for the index arithmetic. *)
Definition pq_inv (pq : PriorityQueue) : Prop :=
  idx_ok pq /\ heap_ok pq /\ fits pq.

(** The queues a program can build from [q0] with the public operations.
    [Peek], [IsEmpty], [Size] and [ToSlice] leave the queue as it is.
    [Remove] and [UpdateItem] take a handle of an item that is in the queue,
    [UpdateItem] after the caller may have written the item's [Value]. *)
Inductive built (q0 : PriorityQueue) : PriorityQueue -> Prop :=
| built_new : built q0 q0
| built_Push v q q' :
    built q0 q -> Push v q = Some q' -> fits q' -> built q0 q'
| built_Pop q v e q' :
    built q0 q -> Pop q = Some (v, e, q') -> built q0 q'
| built_Clear q q' :
    built q0 q -> Clear q = Some q' -> built q0 q'
| built_Remove p q q' :
    built q0 q -> p ∈ items q -> Remove p q = Some q' -> built q0 q'
| built_UpdateItem p q q' :
    built q0 q -> p ∈ items q -> UpdateItem p q = Some q' -> built q0 q'
| built_write_UpdateItem p v q q1 q' :
    built q0 q -> p ∈ items q ->
    set_Value p v q = Some q1 -> UpdateItem p q1 = Some q' -> built q0 q'.

(** Two heaps with the same store and slice whose orderings agree. *)
Definition twin (h h' : priorityHeap) : Prop :=
  store h = store h' /\ items h = items h' /\
  forall a b, lt_of h a b = lt_of h' a b.

(** Results of two runs on twin heaps: the same value next to twin heaps. *)
Definition twin_fst {A : Type} (x y : priorityHeap * A) : Prop :=
  twin x.1 y.1 /\ x.2 = y.2.

Definition twin_snd {A : Type} (x y : A * priorityHeap) : Prop :=
  x.1 = y.1 /\ twin x.2 y.2.

(** A comparator whose results are [-1], [0] and [+1] only. *)
Definition sign_valued (c : CompareFunc) : Prop :=
  forall a b, c a b = -1 \/ c a b = 0 \/ c a b = 1.

End PriorityQueue.

Arguments CompareFunc : clear implicits.
Arguments Item : clear implicits.
Arguments priorityHeap : clear implicits.
Arguments PriorityQueue : clear implicits.

(** [IntCompare] *)
Definition IntCompare : CompareFunc Z := fun a b =>
  if a <? b then -1 else if a >? b then 1 else 0.

(** Small queues of integers, written out in full: the states after
    [Push(7)], after [Push(10); Push(20)], and the latter after a caller has
    written 5 into its second item. *)
Definition one_item : PriorityQueue Z :=
  {| store := [{| Value := 7; Index := 0 |}]; items := [0%nat];
     compare := IntCompare; isMaxHeap := false |}.

Definition two_items : PriorityQueue Z :=
  {| store := [{| Value := 10; Index := 0 |}; {| Value := 20; Index := 1 |}];
     items := [0%nat; 1%nat]; compare := IntCompare; isMaxHeap := false |}.

Definition two_items_written : PriorityQueue Z :=
  {| store := [{| Value := 10; Index := 0 |}; {| Value := 5; Index := 1 |}];
     items := [0%nat; 1%nat]; compare := IntCompare; isMaxHeap := false |}.

(** A min-queue of seven integers in heap order, 1 at the root, written
    out in full. *)
Definition seven_items : PriorityQueue Z :=
  {| store := [{| Value := 1; Index := 0 |}; {| Value := 2; Index := 1 |};
               {| Value := 3; Index := 2 |}; {| Value := 10; Index := 3 |};
               {| Value := 11; Index := 4 |}; {| Value := 12; Index := 5 |};
               {| Value := 4; Index := 6 |}];
     items := [0%nat; 1%nat; 2%nat; 3%nat; 4%nat; 5%nat; 6%nat];
     compare := IntCompare; isMaxHeap := false |}.


(** [a < b] on Go strings: the bytes are compared one by one, and a proper
    prefix comes before the longer string. *)
Fixpoint str_lt (a b : string) : bool :=
  match a, b with
  | _, EmptyString => false
  | EmptyString, String _ _ => true
  | String x a', String y b' =>
      (Ascii.N_of_ascii x <? Ascii.N_of_ascii y)%N
      || ((Ascii.N_of_ascii x =? Ascii.N_of_ascii y)%N && str_lt a' b')
  end.

(** [StringCompare] *)
Definition StringCompare : CompareFunc string := fun a b =>
  if str_lt a b then -1 else if str_lt b a then 1 else 0.

(** [Float64Compare]; a Go [float64] is an IEEE 754 binary64 number, and
    [<] and [>] are the comparisons of the standard: false whenever an
    operand is a NaN. *)
Definition Float64Compare : CompareFunc PrimFloat.float := fun a b =>
  if PrimFloat.ltb a b then -1 else if PrimFloat.ltb b a then 1 else 0.

(** The example types and their comparators.  Two of the structs have a
    field [ID] and two a field [Name]: the projections carry the name of
    the struct in front. *)
Record Task : Type := mkTask {
  Task_ID : Z; Task_Name : string; Task_Priority : Z
}.

Definition TaskByPriority : CompareFunc Task := fun a b =>
  IntCompare (Task_Priority a) (Task_Priority b).

Definition TaskByID : CompareFunc Task := fun a b =>
  IntCompare (Task_ID a) (Task_ID b).

Record Node : Type := mkNode { Node_ID : Z; Node_Distance : Z }.

Definition NodeByDistance : CompareFunc Node := fun a b =>
  IntCompare (Node_Distance a) (Node_Distance b).

Record Patient : Type := mkPatient {
  Patient_Name : string; Patient_Age : Z; Patient_UrgencyLevel : Z
}.

Definition PatientByUrgency : CompareFunc Patient := fun a b =>
  IntCompare (Patient_UrgencyLevel a) (Patient_UrgencyLevel b).

Record Score : Type := mkScore { Score_PlayerName : string; Score_Points : Z }.

Definition ScoreByPoints : CompareFunc Score := fun a b =>
  IntCompare (Score_Points a) (Score_Points b).

(** [one_item] after [Remove] on the handle of its item, and [two_items]
    after [Clear], written out in full. *)
Definition one_item_removed : PriorityQueue Z :=
  {| store := [{| Value := 7; Index := -1 |}]; items := [];
     compare := IntCompare; isMaxHeap := false |}.

Definition two_items_cleared : PriorityQueue Z :=
  {| store := [{| Value := 10; Index := 0 |}; {| Value := 20; Index := 1 |}];
     items := []; compare := IntCompare; isMaxHeap := false |}.

End priorityqueue.

(** * Properties *)

(** ** Go integers *)

Lemma wrap_id z : in_range z -> wrap z = z.
Proof.
  unfold in_range, min_int, max_int, wrap. intros Hz.
  rewrite Z.mod_small by lia. lia.
Qed.

Lemma wrap_in_range z : in_range (wrap z).
Proof.
  unfold in_range, min_int, max_int, wrap.
  pose proof (Z.mod_pos_bound (z + 2 ^ 63) (2 ^ 64)). lia.
Qed.

(** ** Stack *)

Module stack_facts.
Import stack.
Section Facts.

Context {T : Type}.
Variable zero : T.

Lemma elements_Push (v : T) (s : Stack T) : elements (Push v s) = v :: elements s.
Proof. reflexivity. Qed.

Lemma elements_push_all (vs : list T) (s : Stack T) :
  elements (push_all vs s) = rev vs ++ elements s.
Proof.
  revert s. induction vs as [|v vs IH]; intros s; simpl; [done|].
  rewrite IH, elements_Push, <- app_assoc. reflexivity.
Qed.

Lemma elements_nil (s : Stack T) : elements s = [] <-> top s = None.
Proof.
  unfold elements. destruct (top s) as [[v nx]|]; simpl; split; congruence.
Qed.

Lemma elements_cons (s : Stack T) (v : T) (l : list T) :
  elements s = v :: l ->
  exists n, top s = Some n /\ Value n = v /\
            forall z, elements {| top := Next n; size := z |} = l.
Proof.
  unfold elements. destruct (top s) as [[w nx]|]; simpl; [|done].
  intros [= -> <-]. eexists. split; [done|]. split; [done|].
  intros z. by destruct nx.
Qed.

Lemma stack_Pop_cons (s : Stack T) (v : T) (l : list T) :
  elements s = v :: l ->
  exists s', Pop zero s = Some (v, err_nil, s') /\ elements s' = l.
Proof.
  intros (n & Ht & Hv & Hl)%elements_cons.
  unfold Pop, IsEmpty. rewrite Ht. simpl. rewrite Hv. eauto.
Qed.

Lemma stack_Peek_cons (s : Stack T) (v : T) (l : list T) :
  elements s = v :: l -> Peek zero s = Some (v, err_nil).
Proof.
  intros (n & Ht & Hv & _)%elements_cons.
  unfold Peek, IsEmpty. rewrite Ht. simpl. by rewrite Hv.
Qed.

Lemma stack_Pop_nil (s : Stack T) :
  elements s = [] -> Pop zero s = Some (zero, Errorf "stack is empty", s).
Proof. intros Ht%elements_nil. unfold Pop, IsEmpty. by rewrite Ht. Qed.

Lemma stack_Peek_nil (s : Stack T) :
  elements s = [] -> Peek zero s = Some (zero, Errorf "stack is empty").
Proof. intros Ht%elements_nil. unfold Peek, IsEmpty. by rewrite Ht. Qed.

(** Popping [k] values off a stack that holds at least [k]. *)
Lemma pop_n_elements (k : nat) (s : Stack T) :
  (k <= length (elements s))%nat ->
  exists s', pop_n zero k s
             = Some ((fun v => (v, err_nil)) <$> take k (elements s), s') /\
             elements s' = drop k (elements s).
Proof.
  revert s. induction k as [|k IH]; intros s Hk; simpl.
  - eauto.
  - destruct (elements s) as [|v l] eqn:He; simpl in Hk; [lia|].
    destruct (stack_Pop_cons s v l He) as (s1 & -> & Hs1). simpl.
    destruct (IH s1) as (s2 & -> & Hs2); [rewrite Hs1; lia|]. simpl.
    rewrite Hs1 in *. eauto.
Qed.

(** C2: LIFO.  After [Push(v1) ... Push(vn)] on any stack, the next [n]
    calls of [Pop] all succeed (no panic, nil error) and return
    [vn, ..., v1]; the stack then holds what it held before the pushes. *)
Theorem stack_LIFO (vs : list T) (s : Stack T) :
  exists s', pop_n zero (length vs) (push_all vs s)
             = Some ((fun v => (v, err_nil)) <$> rev vs, s') /\
             elements s' = elements s.
Proof.
  destruct (pop_n_elements (length vs) (push_all vs s)) as (s' & Hp & He).
  { rewrite elements_push_all, length_app, length_rev. lia. }
  exists s'. rewrite elements_push_all in Hp, He.
  rewrite <- (length_rev vs) in Hp, He.
  rewrite take_app_length in Hp. rewrite drop_app_length in He.
  rewrite length_rev in Hp. done.
Qed.

Lemma elements_NewStack : elements (@NewStack T) = [].
Proof. reflexivity. Qed.

Lemma elements_Clear (s : Stack T) : elements (Clear s) = [].
Proof. reflexivity. Qed.

Lemma drained (s : Stack T) :
  exists rs s', pop_n zero (length (elements s)) s = Some (rs, s') /\
                elements s' = [].
Proof.
  destruct (pop_n_elements (length (elements s)) s) as (s' & Hp & He); [lia|].
  rewrite drop_all in He. eauto.
Qed.

End Facts.
End stack_facts.

(** ** Queue *)

Module queue_facts.
Import queue.
Section Facts.

Context {T : Type}.
Variable zero : T.

Lemma holds_NewQueue : holds (@NewQueue T) [] [].
Proof.
  split; [constructor|]. repeat split; try done.
Qed.

Lemma holds_nil_front (q : Queue T) ps vs :
  holds q ps vs -> (vs = [] <-> front q = None).
Proof.
  intros (_ & Hlen & Hf & _). rewrite Hf.
  destruct ps, vs; simpl in *; try done; split; congruence.
Qed.

Lemma holds_lt (q : Queue T) ps vs p :
  holds q ps vs -> p ∈ ps -> (p < length (mem q))%nat.
Proof.
  intros (_ & _ & _ & _ & Hn) [i Hi]%list_elem_of_lookup.
  destruct (Hn i p Hi) as (n & Hm & _). by eapply lookup_lt_Some.
Qed.

(** [Push] on a queue whose front is nil: the fields [rear] and [mem] play
    no role, the new node is both ends. *)
Lemma Push_empty (v : T) (q : Queue T) :
  front q = None ->
  exists q', Push v q = Some q' /\ holds q' [length (mem q)] [v].
Proof.
  intros Hf. unfold Push, IsEmpty. simpl. rewrite Hf.
  eexists. split; [done|].
  repeat split; simpl; try done.
  { apply NoDup_singleton. }
  intros [|i] p Hp; simpl in Hp; [|by rewrite lookup_nil in Hp].
  injection Hp as <-. eexists. split.
  { rewrite lookup_app_r by lia. by rewrite Nat.sub_diag. }
  done.
Qed.

Lemma Push_holds (v : T) (q : Queue T) ps vs :
  holds q ps vs ->
  exists q', Push v q = Some q' /\
             holds q' (ps ++ [length (mem q)]) (vs ++ [v]).
Proof.
  intros Hq. destruct ps as [|p0 ps'] using rev_ind.
  { destruct Hq as (_ & Hlen & Hf & _). destruct vs; [|done].
    by apply Push_empty. }
  clear IHps'. rename ps' into ps, p0 into r.
  pose proof (holds_lt q _ _ r Hq ltac:(set_solver)) as Hr.
  destruct Hq as (Hnd & Hlen & Hf & Hr' & Hn).
  rewrite last_snoc in Hr'.
  assert (Hne : front q <> None).
  { rewrite Hf. destruct ps; done. }
  unfold Push, IsEmpty. simpl. destruct (front q) as [f|] eqn:Hfq; [|done].
  rewrite Hr'. simpl.
  destruct (lookup_lt_is_Some_2 (mem q) r Hr) as [nr Hnr].
  rewrite lookup_app_l, Hnr by done. simpl.
  eexists. split; [done|].
  assert (Hfresh : length (mem q) ∉ ps ++ [r]).
  { intros [i Hi]%list_elem_of_lookup.
    destruct (Hn i _ Hi) as (n & Hm%lookup_lt_Some & _). lia. }
  repeat split; simpl.
  - rewrite NoDup_app. split; [done|]. split; [|apply NoDup_singleton].
    intros x Hx ->%list_elem_of_singleton. done.
  - rewrite !length_app in *. simpl in *. lia.
  - rewrite Hf. by destruct ps.
  - by rewrite last_snoc.
  - intros i p Hp.
    destruct (decide (i < length ps)%nat) as [Hi|Hi].
    + (* a node before the old rear: untouched *)
      rewrite lookup_app_l in Hp by (rewrite length_app; simpl; lia).
      destruct (Hn i p Hp) as (n & Hm & Hv & Hx).
      assert (p <> r).
      { intros ->. rewrite lookup_app_l in Hp by done.
        apply NoDup_app in Hnd as (_ & Hd & _).
        apply (Hd r); [by eapply list_elem_of_lookup_2|set_solver]. }
      exists n. rewrite list_lookup_insert_ne by done.
      rewrite lookup_app_l by (by eapply lookup_lt_Some).
      split; [done|]. split.
      * rewrite lookup_app_l by (rewrite <- Hlen, length_app; simpl; lia). done.
      * rewrite Hx. rewrite (lookup_app_l (ps ++ [r])); [done|].
        rewrite length_app. simpl. lia.
    + destruct (decide (i = length ps)) as [->|Hi'].
      * (* the old rear: its Next now is the new node *)
        rewrite lookup_app_l in Hp by (rewrite length_app; simpl; lia).
        pose proof Hp as Hp'.
        rewrite lookup_app_r, Nat.sub_diag in Hp' by done.
        injection Hp' as <-.
        destruct (Hn _ _ Hp) as (n & Hm & Hv & Hx).
        assert (n = nr) as -> by congruence.
        eexists. rewrite list_lookup_insert_eq
          by (rewrite length_app; simpl; lia).
        split; [done|]. simpl. split.
        -- rewrite lookup_app_l by (rewrite <- Hlen, length_app; simpl; lia).
           done.
        -- rewrite lookup_app_r by (rewrite length_app; simpl; lia).
           rewrite length_app. simpl.
           by replace (S (length ps) - (length ps + 1))%nat with 0%nat by lia.
      * (* the new node *)
        assert (i = length (ps ++ [r])) as ->.
        { apply lookup_lt_Some in Hp. rewrite !length_app in *.
          simpl in *. lia. }
        rewrite lookup_app_r, Nat.sub_diag in Hp by done.
        injection Hp as <-.
        eexists. rewrite list_lookup_insert_ne by lia.
        rewrite lookup_app_r, Nat.sub_diag by done.
        split; [done|]. simpl. split.
        -- rewrite lookup_app_r by lia. by rewrite Hlen, Nat.sub_diag.
        -- symmetry. apply lookup_ge_None.
           rewrite !length_app. simpl. lia.
Qed.

Lemma Pop_holds (q : Queue T) p ps v vs :
  holds q (p :: ps) (v :: vs) ->
  exists q', Pop zero q = Some (v, err_nil, q') /\ holds q' ps vs.
Proof.
  intros (Hnd & Hlen & Hf & Hr & Hn).
  destruct (Hn 0%nat p eq_refl) as (n & Hm & Hv & Hx).
  simpl in Hf, Hv, Hx. injection Hv as ->.
  unfold Pop, IsEmpty. rewrite Hf. simpl. rewrite Hm. simpl.
  eexists. split; [done|].
  apply NoDup_cons in Hnd as [_ Hnd].
  repeat split; simpl; try done.
  - simpl in Hlen. lia.
  - rewrite Hx. by destruct ps.
  - rewrite Hx, Hr. destruct ps as [|p' ps]; simpl; [done|].
    by destruct ps.
  - intros i p' Hp'. apply (Hn (S i) p' Hp').
Qed.

Lemma queue_Pop_nil (q : Queue T) :
  front q = None -> Pop zero q = Some (zero, Errorf "queue is empty", q).
Proof. intros Hf. unfold Pop, IsEmpty. by rewrite Hf. Qed.

Lemma Front_nil (q : Queue T) :
  front q = None -> Front zero q = Some (zero, Errorf "queue is empty").
Proof. intros Hf. unfold Front, IsEmpty. by rewrite Hf. Qed.

Lemma Rear_nil (q : Queue T) :
  front q = None -> Rear zero q = Some (zero, Errorf "queue is empty").
Proof. intros Hf. unfold Rear, IsEmpty. by rewrite Hf. Qed.

Lemma Front_holds (q : Queue T) p ps v vs :
  holds q (p :: ps) (v :: vs) -> Front zero q = Some (v, err_nil).
Proof.
  intros (Hnd & Hlen & Hf & Hr & Hn).
  destruct (Hn 0%nat p eq_refl) as (n & Hm & Hv & Hx).
  simpl in Hf, Hv. injection Hv as ->.
  unfold Front, IsEmpty. rewrite Hf. simpl. by rewrite Hm.
Qed.

Lemma Rear_holds (q : Queue T) ps vs v :
  holds q ps vs -> last vs = Some v -> Rear zero q = Some (v, err_nil).
Proof.
  intros (Hnd & Hlen & Hf & Hr & Hn) Hv.
  rewrite last_lookup in Hv. rewrite (last_lookup ps) in Hr.
  destruct (lookup_lt_is_Some_2 ps (pred (length ps))) as [r Hp].
  { apply lookup_lt_Some in Hv. lia. }
  destruct (Hn _ r Hp) as (n & Hm & Hv' & _).
  rewrite Hlen, Hv in Hv'. injection Hv' as ->.
  unfold Rear, IsEmpty. rewrite Hf, Hr, Hp.
  destruct ps; [by rewrite lookup_nil in Hp|]. simpl. by rewrite Hm.
Qed.

Lemma push_all_holds (ws : list T) (q : Queue T) ps vs :
  holds q ps vs ->
  exists q' ps', push_all ws q = Some q' /\ holds q' ps' (vs ++ ws).
Proof.
  revert q ps vs. induction ws as [|w ws IH]; intros q ps vs Hq.
  - exists q, ps. by rewrite app_nil_r.
  - destruct (Push_holds w q ps vs Hq) as (q1 & Hp & Hq1).
    destruct (IH q1 _ _ Hq1) as (q2 & ps2 & Hp2 & Hq2).
    exists q2, ps2. unfold push_all in *. simpl. rewrite Hp.
    rewrite <- app_assoc in Hq2. done.
Qed.

Lemma pop_n_holds (k : nat) (q : Queue T) ps vs :
  holds q ps vs -> (k <= length vs)%nat ->
  exists q', pop_n zero k q
             = Some ((fun v => (v, err_nil)) <$> take k vs, q') /\
             holds q' (drop k ps) (drop k vs).
Proof.
  revert q ps vs. induction k as [|k IH]; intros q ps vs Hq Hk; simpl.
  - eauto.
  - destruct vs as [|v vs]; simpl in Hk; [lia|].
    destruct ps as [|p ps]; [by destruct Hq as (_ & ? & _)|].
    destruct (Pop_holds q p ps v vs Hq) as (q1 & -> & Hq1). simpl.
    destruct (IH q1 ps vs Hq1) as (q2 & -> & Hq2); [lia|]. simpl. eauto.
Qed.

(** What a queue that already holds [vs] returns after further pushes: the
    values come out front first, the old ones before the new ones. *)
Lemma pop_n_push_all (ws : list T) (q : Queue T) ps vs :
  holds q ps vs ->
  exists q1 q2,
    push_all ws q = Some q1 /\
    pop_n zero (length ws) q1
    = Some ((fun v => (v, err_nil)) <$> take (length ws) (vs ++ ws), q2).
Proof.
  intros Hq.
  destruct (push_all_holds ws q ps vs Hq) as (q1 & ps1 & Hp & Hq1).
  destruct (pop_n_holds (length ws) q1 ps1 _ Hq1) as (q2 & Hpop & _).
  { rewrite length_app. lia. }
  eauto.
Qed.

(** C3, as amended: FIFO.  On a queue that holds no element (its [front]
    is nil), [Push(v1) ... Push(vn)] followed by [n] calls of [Pop] returns
    [v1, ..., vn] in this order, every call without panic and with a nil
    error, and leaves the queue empty again. *)
Theorem queue_FIFO (vs : list T) (q : Queue T) :
  IsEmpty q = true ->
  exists q1 q2,
    push_all vs q = Some q1 /\
    pop_n zero (length vs) q1 = Some ((fun v => (v, err_nil)) <$> vs, q2) /\
    IsEmpty q2 = true.
Proof.
  intros He. destruct vs as [|v ws].
  { exists q, q. by repeat split. }
  assert (Hf : front q = None).
  { unfold IsEmpty in He. by destruct (front q). }
  destruct (Push_empty v q Hf) as (q0 & Hp0 & Hq0).
  destruct (push_all_holds ws q0 _ _ Hq0) as (q1 & ps1 & Hp1 & Hq1).
  destruct (pop_n_holds (length (v :: ws)) q1 ps1 _ Hq1) as (q2 & Hpop & Hq2);
    [done|].
  exists q1, q2. split; [|split].
  - unfold push_all in *. simpl. by rewrite Hp0.
  - rewrite Hpop. by rewrite firstn_all.
  - change ([v] ++ ws) with (v :: ws) in Hq2. rewrite drop_all in Hq2.
    apply holds_nil_front in Hq2. unfold IsEmpty.
    by rewrite (proj1 Hq2 eq_refl).
Qed.

End Facts.

Lemma queue_FIFO_witness :
  exists q1 q2 : Queue Z,
    push_all [1; 2; 3] NewQueue = Some q1 /\
    pop_n 0 3 q1 = Some ([(1, err_nil); (2, err_nil); (3, err_nil)], q2) /\
    IsEmpty q2 = true.
Proof. apply (queue_FIFO 0 [1; 2; 3] NewQueue). reflexivity. Defined.

(** C3 as stated fails on a queue that already holds a value: after
    [Push(7)] on a new queue, [Push(1)] followed by one [Pop] returns [7],
    not [1]. *)
Lemma queue_FIFO_counterexample :
  ~ (forall (vs : list Z) (q : Queue Z) ps l,
       holds q ps l ->
       exists q1 q2,
         push_all vs q = Some q1 /\
         pop_n 0 (length vs) q1 = Some ((fun v => (v, err_nil)) <$> vs, q2)).
Proof.
  intros H.
  destruct (Push_empty 7 (@NewQueue Z) eq_refl) as (q & Hq & Hh).
  destruct (H [1] q _ _ Hh) as (q1 & q2 & Hpush & Hpop).
  vm_compute in Hq. injection Hq as <-.
  vm_compute in Hpush. injection Hpush as <-.
  vm_compute in Hpop. discriminate Hpop.
Qed.

End queue_facts.

(** ** Priority queue: the order theory of array heaps *)

Module heap_order.
Import priorityqueue.
Section Pure.

Context {T : Type}.
Variable lt : T -> T -> bool.
Hypothesis lt_asym : forall a b, lt a b = true -> lt b a = false.
Hypothesis lt_negtrans :
  forall a b c, lt a b = false -> lt b c = false -> lt a c = false.

Lemma lt_irrefl a : lt a a = false.
Proof. destruct (lt a a) eqn:E; [|done]. by rewrite (lt_asym _ _ E) in E. Qed.

Lemma lt_trans a b c : lt a b = true -> lt b c = true -> lt a c = true.
Proof.
  intros Hab Hbc. destruct (lt a c) eqn:E; [done|].
  rewrite (lt_negtrans a c b E (lt_asym _ _ Hbc)) in Hab. done.
Qed.

(** [c] is not before [b] and [a] is before [b]: [c] is not before [a]. *)
Lemma lt_below a b c : lt a b = true -> lt c b = false -> lt c a = false.
Proof.
  intros Hab Hcb. destruct (lt c a) eqn:E; [|done].
  by rewrite (lt_trans _ _ _ E Hab) in Hcb.
Qed.

Lemma parent_spec k :
  (k = 0 /\ parent k = 0 \/ k = 2 * parent k + 1 \/ k = 2 * parent k + 2)%nat.
Proof.
  unfold parent. destruct k as [|k]; [by left|]. right.
  replace (S k - 1)%nat with k by lia.
  pose proof (Nat.div_mod_eq k 2) as E.
  pose proof (Nat.mod_upper_bound k 2). lia.
Qed.

Lemma parent_lt k : (0 < k)%nat -> (parent k < k)%nat.
Proof. pose proof (parent_spec k). lia. Qed.

Lemma parent_child k i :
  k <> i -> parent k = i -> k = (2 * i + 1)%nat \/ k = (2 * i + 2)%nat.
Proof. pose proof (parent_spec k). lia. Qed.

Lemma parent_left i : parent (2 * i + 1) = i.
Proof. pose proof (parent_spec (2 * i + 1)). lia. Qed.

Lemma parent_right i : parent (2 * i + 2) = i.
Proof. pose proof (parent_spec (2 * i + 2)). lia. Qed.

Lemma lookup_swap (l : list T) i j a b k :
  l !! i = Some a -> l !! j = Some b ->
  <[j:=a]> (<[i:=b]> l) !! k =
    if decide (k = j) then Some a
    else if decide (k = i) then Some b else l !! k.
Proof.
  intros Hi Hj.
  apply lookup_lt_Some in Hi. apply lookup_lt_Some in Hj.
  destruct (decide (k = j)) as [->|Hkj].
  { rewrite list_lookup_insert_eq; [done|]. by rewrite length_insert. }
  rewrite list_lookup_insert_ne by done.
  destruct (decide (k = i)) as [->|Hki].
  { by rewrite list_lookup_insert_eq. }
  by rewrite list_lookup_insert_ne.
Qed.

Lemma heap_upto_intro l n i :
  hole lt l n i -> children_ok lt l n i -> ok_at lt l i -> heap_upto lt l n.
Proof.
  intros [H1 _] Hc Hi k Hk.
  destruct (decide (k = i)) as [->|Hki]; [done|].
  destruct (decide (parent k = i)); [by apply Hc|by apply H1].
Qed.

Lemma heap_upto_hole l n i : heap_upto lt l n -> hole lt l n i.
Proof.
  intros Hh. split; [intros k Hk _ _; by apply Hh|].
  intros Hi k Hk Hp a b Ha Hb.
  destruct (decide (k = i)) as [->|Hki].
  { pose proof (parent_lt i Hi). lia. }
  assert (is_Some (l !! parent k)) as [c Hc].
  { apply lookup_lt_is_Some. apply lookup_lt_Some in Ha.
    destruct (parent_child k i Hki Hp); lia. }
  pose proof (Hh k Hk a c Ha Hc) as H1.
  assert (parent k < n)%nat as Hpn.
  { destruct (parent_child k i Hki Hp); lia. }
  pose proof (Hh (parent k) Hpn c b Hc Hb) as H2.
  by eapply lt_negtrans.
Qed.

Lemma up_swap_hole l n j a b :
  (0 < j < n)%nat ->
  l !! j = Some a -> l !! parent j = Some b -> lt a b = true ->
  hole lt l n j -> children_ok lt l n j ->
  hole lt (<[j:=b]> (<[parent j:=a]> l)) n (parent j) /\
  children_ok lt (<[j:=b]> (<[parent j:=a]> l)) n (parent j).
Proof.
  intros Hj Ha Hb Hab [H1 H2] Hc.
  pose proof (parent_lt j ltac:(lia)) as Hij.
  pose proof (lookup_swap l (parent j) j b a) as Hl.
  specialize (fun k => Hl k Hb Ha).
  set (i := parent j) in *. set (l2 := <[j:=b]> (<[i:=a]> l)) in *.
  assert (Hoi : ok_at lt l i).
  { pose proof (parent_spec i). apply H1; lia. }
  split; [split|].
  - intros k Hk Hki Hpk x y Hx Hy. rewrite Hl in Hx, Hy.
    destruct (decide (k = j)) as [->|Hkj]; [done|].
    destruct (decide (k = i)); [done|].
    destruct (decide (parent k = j)) as [Hpj|Hpj].
    + injection Hy as <-. apply (H2 ltac:(lia) k Hk Hpj x b Hx).
      by rewrite Hpj.
    + destruct (decide (parent k = i)); [done|].
      by apply (H1 k Hk Hkj Hpj x y).
  - intros Hi k Hk Hpk x y Hx Hy. rewrite Hl in Hx, Hy. rewrite Hpk in Hy.
    pose proof (parent_lt i Hi) as Hpi.
    destruct (decide (parent i = j)); [lia|].
    destruct (decide (parent i = i)); [lia|].
    destruct (decide (k = j)) as [->|Hkj].
    + injection Hx as <-. by apply (Hoi b y).
    + destruct (decide (k = i)) as [->|Hki]; [lia|].
      assert (lt x b = false).
      { apply (H1 k Hk Hkj ltac:(lia) x b Hx). by rewrite Hpk. }
      eapply lt_negtrans; [done|]. by apply (Hoi b y).
  - intros k Hk Hki Hpk x y Hx Hy. rewrite Hl in Hx, Hy. rewrite Hpk in Hy.
    destruct (decide (i = j)); [lia|].
    destruct (decide (i = i)); [|done]. injection Hy as <-.
    destruct (decide (k = j)) as [->|Hkj].
    + injection Hx as <-. by apply lt_asym.
    + destruct (decide (k = i)); [done|].
      apply (lt_below a b x Hab).
      apply (H1 k Hk Hkj ltac:(lia) x b Hx). by rewrite Hpk.
Qed.

Lemma down_swap_hole l n i j a b :
  (j < n)%nat -> j <> i -> parent j = i ->
  l !! i = Some a -> l !! j = Some b -> lt b a = true ->
  least_child lt l n i b ->
  hole lt l n i ->
  hole lt (<[j:=a]> (<[i:=b]> l)) n j /\ ok_at lt (<[j:=a]> (<[i:=b]> l)) j.
Proof.
  intros Hj Hji Hpj Ha Hb Hba Hmin [H1 H2].
  assert (Hij : (i < j)%nat) by (pose proof (parent_spec j); lia).
  pose proof (lookup_swap l i j a b) as Hl.
  specialize (fun k => Hl k Ha Hb).
  set (l2 := <[j:=a]> (<[i:=b]> l)) in *.
  split; [split|].
  - intros k Hk Hkj Hpk x y Hx Hy. rewrite Hl in Hx, Hy.
    destruct (decide (k = j)); [done|].
    destruct (decide (parent k = j)); [done|].
    destruct (decide (k = i)) as [->|Hki].
    + injection Hx as <-.
      destruct (decide (parent i = i)) as [Hp0|Hp0].
      * injection Hy as <-. apply lt_irrefl.
      * assert (0 < i)%nat as Hi by (pose proof (parent_spec i); lia).
        apply (H2 Hi j Hj Hpj b y Hb). by rewrite Hpj.
    + destruct (decide (parent k = i)) as [Hpi|Hpi].
      * injection Hy as <-. by apply (Hmin k x).
      * by apply (H1 k Hk Hki Hpi x y).
  - intros Hj0 k Hk Hpk x y Hx Hy. rewrite Hl in Hx, Hy.
    rewrite Hpk, Hpj in Hy.
    assert (j < k)%nat by (pose proof (parent_spec k); lia).
    destruct (decide (i = j)); [lia|].
    destruct (decide (i = i)); [|done]. injection Hy as <-.
    destruct (decide (k = j)); [lia|]. destruct (decide (k = i)); [lia|].
    apply (H1 k Hk ltac:(lia) ltac:(lia) x b Hx). by rewrite Hpk.
  - intros x y Hx Hy. rewrite Hl in Hx, Hy. rewrite Hpj in Hy.
    destruct (decide (j = j)); [|done]. injection Hx as <-.
    destruct (decide (i = j)); [lia|].
    destruct (decide (i = i)); [|done]. injection Hy as <-.
    by apply lt_asym.
Qed.

Lemma stay_children_ok l n i a b :
  l !! i = Some a -> lt b a = false -> least_child lt l n i b ->
  children_ok lt l n i.
Proof.
  intros Ha Hba Hmin k Hk Hki Hpk x y Hx Hy.
  rewrite Hpk, Ha in Hy. injection Hy as <-.
  eapply lt_negtrans; [|done]. by apply (Hmin k x).
Qed.

(** In a heap no value comes before the one at the root. *)
Lemma root_least l n k a r :
  heap_upto lt l n -> (k < n)%nat -> (n <= length l)%nat ->
  l !! k = Some a -> l !! 0%nat = Some r -> lt a r = false.
Proof.
  intros Hh. revert a. induction (lt_wf k) as [k _ IH]. intros a Hk Hn Ha Hr.
  destruct (decide (k = 0%nat)) as [->|Hk0].
  { rewrite Ha in Hr. injection Hr as <-. apply lt_irrefl. }
  pose proof (parent_lt k ltac:(lia)) as Hp.
  destruct (lookup_lt_is_Some_2 l (parent k)) as [b Hb]; [lia|].
  eapply lt_negtrans.
  - by apply (Hh k Hk a b).
  - apply (IH (parent k)); [done|lia|done|done|done].
Qed.

End Pure.
End heap_order.

(** ** Priority queue: the methods of [priorityHeap] *)

Module heap_methods.
Import priorityqueue heap_order.
Section Methods.

Context {T : Type}.
Variable zero : T.

Abbreviation priorityHeap := (priorityHeap T).
Abbreviation vals := (vals zero).
Abbreviation heap_ok := (heap_ok zero).

Lemma index_nat {A} (l : list A) (i : nat) : index l (Z.of_nat i) = l !! i.
Proof.
  unfold index. rewrite (proj2 (Z.leb_le 0 (Z.of_nat i))) by lia.
  by rewrite Nat2Z.id.
Qed.

Lemma index_neg {A} (l : list A) (i : Z) : i < 0 -> index l i = None.
Proof. unfold index. intros. by rewrite (proj2 (Z.leb_gt 0 i)) by lia. Qed.

Lemma index_Some {A} (l : list A) (i : Z) x :
  index l i = Some x -> 0 <= i /\ l !! Z.to_nat i = Some x.
Proof. unfold index. destruct (Z.leb_spec 0 i); [|done]. split; [lia|done]. Qed.

Lemma length_vals (h : priorityHeap) : length (vals h) = length (items h).
Proof. unfold priorityqueue.vals. by rewrite length_fmap. Qed.

Lemma vals_lookup (h : priorityHeap) i p it :
  items h !! i = Some p -> store h !! p = Some it ->
  vals h !! i = Some (Value it).
Proof.
  intros Hp Hit. unfold priorityqueue.vals.
  rewrite list_lookup_fmap, Hp. simpl. by rewrite Hit.
Qed.

Lemma vals_lookup_inv (h : priorityHeap) i a :
  idx_ok h -> vals h !! i = Some a ->
  exists p it, items h !! i = Some p /\ store h !! p = Some it /\
               Value it = a /\ Index it = Z.of_nat i.
Proof.
  intros Hok Ha. unfold priorityqueue.vals in Ha.
  rewrite list_lookup_fmap in Ha.
  destruct (items h !! i) as [p|] eqn:Hp; [|done].
  destruct (Hok i p Hp) as (it & Hit & Hidx).
  simpl in Ha. rewrite Hit in Ha. injection Ha as <-. eauto 6.
Qed.

Lemma idx_ok_NoDup (h : priorityHeap) : idx_ok h -> NoDup (items h).
Proof.
  intros Hok. apply NoDup_alt. intros i j p Hi Hj.
  destruct (Hok i p Hi) as (it & Hit & Hidx).
  destruct (Hok j p Hj) as (it' & Hit' & Hidx'). 
  assert (it = it') as <- by congruence. lia.
Qed.

Lemma idx_ok_inj (h : priorityHeap) i j p :
  idx_ok h -> items h !! i = Some p -> items h !! j = Some p -> i = j.
Proof.
  intros Hok%idx_ok_NoDup. rewrite NoDup_alt in Hok. apply Hok.
Qed.

Lemma Less_vals (h : priorityHeap) i j a b :
  idx_ok h -> vals h !! i = Some a -> vals h !! j = Some b ->
  priorityHeap_Less h (Z.of_nat i) (Z.of_nat j) = Some (lt_of h a b).
Proof.
  intros Hok (pi & ii & Hpi & Hii & <- & _)%vals_lookup_inv
             (pj & ij & Hpj & Hij & <- & _)%vals_lookup_inv; try done.
  unfold priorityHeap_Less. rewrite !index_nat, Hpi. simpl.
  rewrite Hii. simpl. rewrite Hpj. simpl. by rewrite Hij.
Qed.

Lemma Less_inv (h : priorityHeap) i j r :
  idx_ok h ->
  priorityHeap_Less h (Z.of_nat i) (Z.of_nat j) = Some r ->
  exists a b, vals h !! i = Some a /\ vals h !! j = Some b /\
              r = lt_of h a b.
Proof.
  intros Hok. unfold priorityHeap_Less. rewrite !index_nat.
  destruct (items h !! i) as [pi|] eqn:Hpi; [|done]. simpl.
  destruct (store h !! pi) as [ii|] eqn:Hii; [|done]. simpl.
  destruct (items h !! j) as [pj|] eqn:Hpj; [|done]. simpl.
  destruct (store h !! pj) as [ij|] eqn:Hij; [|done]. simpl.
  intros [= <-]. exists (Value ii), (Value ij).
  split; [by eapply vals_lookup|]. split; [by eapply vals_lookup|done].
Qed.

Lemma set_Index_spec p i (m : list (Item T)) it :
  m !! p = Some it ->
  set_Index p i m = Some (<[p := {| Value := Value it; Index := i |}]> m).
Proof. intros Hp. unfold set_Index. by rewrite Hp. Qed.

Lemma same_items_refl (h : priorityHeap) : same_items h h.
Proof. by repeat split. Qed.

Lemma same_items_trans (h1 h2 h3 : priorityHeap) :
  same_items h1 h2 -> same_items h2 h3 -> same_items h1 h3.
Proof.
  intros (Hc & Hm & Hl & Hv & Hf & Hp) (Hc' & Hm' & Hl' & Hv' & Hf' & Hp').
  split; [congruence|]. split; [congruence|]. split; [congruence|].
  split; [|split].
  - intros p. by rewrite Hv'.
  - intros p Hn. rewrite Hf'; [by apply Hf|]. by rewrite Hp.
  - by rewrite Hp'.
Qed.

Lemma same_items_length (h h' : priorityHeap) :
  same_items h h' -> length (items h') = length (items h).
Proof. intros (_ & _ & _ & _ & _ & Hp). by rewrite Hp. Qed.

Lemma same_items_lt_of (h h' : priorityHeap) :
  same_items h h' -> lt_of h' = lt_of h.
Proof. intros (Hc & Hm & _). unfold lt_of. by rewrite Hc, Hm. Qed.

Lemma same_items_vals (h h' : priorityHeap) :
  same_items h h' -> vals h' ≡ₚ vals h.
Proof.
  intros (_ & _ & _ & Hv & _ & Hp). unfold priorityqueue.vals.
  rewrite Hp. apply reflexive_eq. apply list_fmap_ext.
  intros _ p _. specialize (Hv p).
  destruct (store h' !! p), (store h !! p); simpl in *; congruence.
Qed.

(** [Swap] on two positions of the array: the two pointers trade places
    and their items record the new positions. *)
Lemma Swap_spec (h : priorityHeap) i j pi pj :
  idx_ok h -> items h !! i = Some pi -> items h !! j = Some pj ->
  exists h', priorityHeap_Swap h (Z.of_nat i) (Z.of_nat j) = Some h' /\
             items h' = <[j:=pi]> (<[i:=pj]> (items h)) /\
             idx_ok h' /\ same_items h h'.
Proof.
  intros Hok Hi Hj.
  destruct (Hok i pi Hi) as (ii & Hii & Hxi).
  destruct (Hok j pj Hj) as (ij & Hij & Hxj).
  pose proof (lookup_swap (items h) i j pi pj) as Hl.
  specialize (fun k => Hl k Hi Hj).
  unfold priorityHeap_Swap. rewrite !index_nat, Hi, Hj. simpl.
  rewrite !Nat2Z.id, !index_nat, !Hl.
  destruct (decide (j = j)); [|done]. simpl.
  set (a := if decide (i = j) then pi else pj).
  assert (Ha : (if decide (i = j) then Some pi else
                if decide (i = i) then Some pj else items h !! i) = Some a).
  { unfold a. destruct (decide (i = j)); [done|]. by destruct (decide (i = i)). }
  rewrite Ha. simpl.
  assert (exists ia, store h !! a = Some ia /\ Value ia = Value ij) as (ia & Hia & Hva).
  { unfold a. destruct (decide (i = j)) as [->|]; [|eauto].
    exists ii. split; [done|]. congruence. }
  rewrite (set_Index_spec _ _ _ _ Hia). simpl.
  set (s1 := <[a:={| Value := Value ia; Index := Z.of_nat i |}]> (store h)).
  assert (exists ib, s1 !! pi = Some ib /\ Value ib = Value ii) as (ib & Hib & Hvb).
  { unfold s1. destruct (decide (a = pi)) as [->|Hne].
    - eexists. rewrite list_lookup_insert_eq by (by eapply lookup_lt_Some).
      split; [done|]. simpl. congruence.
    - exists ii. by rewrite list_lookup_insert_ne. }
  rewrite (set_Index_spec _ _ _ _ Hib). simpl.
  eexists. split; [done|]. unfold with_items. simpl.
  split; [done|].
  assert (Hlen : forall p, is_Some (store h !! p) -> (p < length s1)%nat).
  { intros p [x Hx]. unfold s1. rewrite length_insert.
    by eapply lookup_lt_Some. }
  split; [|repeat split; simpl].
  - (* the indices are consistent *)
    intros k p. simpl. rewrite Hl. intros Hk.
    destruct (decide (k = j)) as [->|Hkj].
    { injection Hk as <-. eexists.
      rewrite list_lookup_insert_eq by eauto. done. }
    destruct (decide (k = i)) as [->|Hki].
    { injection Hk as <-.
      assert (pj <> pi).
      { intros ->. apply Hkj. by eapply idx_ok_inj. }
      assert (a = pj) as Hapj.
      { unfold a. by destruct (decide (i = j)). }
      rewrite list_lookup_insert_ne by done.
      unfold s1. rewrite Hapj.
      rewrite list_lookup_insert_eq by (by eapply lookup_lt_Some). eauto. }
    assert (p <> pi).
    { intros ->. apply Hki. by eapply idx_ok_inj. }
    assert (p <> pj).
    { intros ->. apply Hkj. by eapply idx_ok_inj. }
    assert (p <> a).
    { unfold a. by destruct (decide (i = j)). }
    rewrite list_lookup_insert_ne by done.
    unfold s1. rewrite list_lookup_insert_ne by done.
    by apply Hok.
  - unfold s1. by rewrite !length_insert.
  - intros p. destruct (decide (p = pi)) as [->|Hpi].
    { rewrite list_lookup_insert_eq by eauto. rewrite Hii. simpl. congruence. }
    rewrite list_lookup_insert_ne by done. unfold s1.
    destruct (decide (p = a)) as [->|Hpa].
    { rewrite list_lookup_insert_eq by (by eapply lookup_lt_Some).
      rewrite Hia. done. }
    by rewrite list_lookup_insert_ne.
  - intros p Hp.
    assert (p <> pi).
    { intros ->. apply Hp. by eapply list_elem_of_lookup_2. }
    assert (p <> pj).
    { intros ->. apply Hp. by eapply list_elem_of_lookup_2. }
    assert (p <> a).
    { unfold a. by destruct (decide (i = j)). }
    rewrite list_lookup_insert_ne by done.
    unfold s1. by rewrite list_lookup_insert_ne.
  - by apply Permutation_insert_swap.
Qed.

Lemma vals_Swap (h h' : priorityHeap) i j a b :
  idx_ok h -> vals h !! i = Some a -> vals h !! j = Some b ->
  priorityHeap_Swap h (Z.of_nat i) (Z.of_nat j) = Some h' ->
  vals h' = <[j:=a]> (<[i:=b]> (vals h)) /\ idx_ok h' /\ same_items h h'.
Proof.
  intros Hok (pi & ii & Hpi & Hii & <- & _)%vals_lookup_inv
             (pj & ij & Hpj & Hij & <- & _)%vals_lookup_inv Hs; try done.
  destruct (Swap_spec h i j pi pj Hok Hpi Hpj) as (h1 & Hs1 & Hit & Hok1 & Hsame).
  rewrite Hs in Hs1. injection Hs1 as <-.
  split; [|done].
  destruct Hsame as (_ & _ & _ & Hv & _ & _).
  assert (Hf : forall p, from_option Value zero (store h' !! p)
                         = from_option Value zero (store h !! p)).
  { intros p. specialize (Hv p).
    destruct (store h' !! p), (store h !! p); simpl in *; congruence. }
  unfold priorityqueue.vals. rewrite Hit, !list_fmap_insert.
  rewrite !Hf, Hii, Hij. simpl. f_equal. f_equal.
  apply list_fmap_ext. intros _ p _. apply Hf.
Qed.

End Methods.
End heap_methods.

(** ** Priority queue: the loops of [container/heap] *)

Module heap_loops.
Import priorityqueue heap_order heap_methods.
Section Loops.

Context {T : Type}.
Variable zero : T.

Abbreviation priorityHeap := (priorityHeap T).
Abbreviation vals := (vals zero).

Lemma parent_go (j : nat) :
  Z.of_nat j < 2 ^ 62 ->
  quot64 (sub64 (Z.of_nat j) 1) 2 = Z.of_nat (parent j).
Proof.
  intros Hj. unfold quot64, sub64.
  rewrite (wrap_id (Z.of_nat j - 1))
    by (unfold in_range, min_int, max_int; lia).
  destruct j as [|j]; [reflexivity|].
  unfold parent. replace (S j - 1)%nat with j by lia.
  replace (Z.of_nat (S j) - 1) with (Z.of_nat j) by lia.
  rewrite Z.quot_div_nonneg by lia.
  assert (E : Z.of_nat j / 2 = Z.of_nat (j / 2)).
  { by rewrite (Nat2Z.inj_div j 2). }
  rewrite E. apply wrap_id. unfold in_range, min_int, max_int.
  pose proof (Nat.Div0.div_le_upper_bound j 2 j ltac:(lia)). lia.
Qed.

Lemma child_go (i : nat) :
  Z.of_nat i + 1 < 2 ^ 62 ->
  add64 (mul64 2 (Z.of_nat i)) 1 = Z.of_nat (2 * i + 1) /\
  add64 (Z.of_nat (2 * i + 1)) 1 = Z.of_nat (2 * i + 2).
Proof.
  intros Hi. unfold add64, mul64.
  rewrite (wrap_id (2 * Z.of_nat i))
    by (unfold in_range, min_int, max_int; lia).
  rewrite (wrap_id (2 * Z.of_nat i + 1))
    by (unfold in_range, min_int, max_int; lia).
  rewrite (wrap_id (Z.of_nat (2 * i + 1) + 1))
    by (unfold in_range, min_int, max_int; lia).
  lia.
Qed.

Lemma fits_lt (h : priorityHeap) (i : nat) :
  fits h -> (i <= length (items h))%nat -> Z.of_nat i < 2 ^ 62.
Proof. unfold fits, priorityHeap_Len. lia. Qed.

Lemma vals_is_Some (h : priorityHeap) (i : nat) :
  (i < length (items h))%nat -> is_Some (vals h !! i).
Proof. intros. apply lookup_lt_is_Some. by rewrite length_vals. Qed.

(** The loop of [up] ends, within its fuel, as [up_run] says. *)
Lemma up_loop_run (f : nat) (h : priorityHeap) (j : nat) :
  idx_ok h -> fits h -> (j < length (items h))%nat -> (j < f)%nat ->
  exists h', up_loop f h (Z.of_nat j) = Some h' /\ up_run h j h'.
Proof.
  revert h j. induction f as [|f IH]; intros h j Hok Hfit Hj Hf; [lia|].
  simpl. rewrite parent_go by (eapply fits_lt; [done|lia]).
  destruct (decide (j = 0%nat)) as [->|Hj0].
  { simpl. eexists. split; [done|]. constructor. }
  pose proof (parent_lt j ltac:(lia)) as Hpj.
  rewrite (proj2 (Z.eqb_neq _ _)) by lia.
  destruct (vals_is_Some h j Hj) as [a Ha].
  destruct (vals_is_Some h (parent j) ltac:(lia)) as [b Hb].
  pose proof (Less_vals zero h _ _ _ _ Hok Ha Hb) as HL. rewrite HL. simpl.
  destruct (lt_of h a b) eqn:Hab; simpl.
  - destruct (vals_lookup_inv zero h _ _ Hok Ha) as (pj & ? & Hpj' & _).
    destruct (vals_lookup_inv zero h _ _ Hok Hb) as (pi & ? & Hpi' & _).
    destruct (Swap_spec h _ _ _ _ Hok Hpi' Hpj')
      as (h1 & Hs & Hit & Hok1 & Hsame).
    rewrite Hs. simpl.
    pose proof (same_items_length _ _ Hsame) as Hlen.
    destruct (IH h1 (parent j)) as (h' & Hup & Hrun); try done; try lia.
    { unfold fits, priorityHeap_Len in *. by rewrite Hlen. }
    exists h'. split; [done|]. eapply up_swap; try done. lia.
  - eexists. split; [done|]. apply up_stay; [lia|done].
Qed.

Lemma pick_run (h : priorityHeap) (i n : nat) :
  idx_ok h -> fits h -> (2 * i + 1 < n)%nat -> (n <= length (items h))%nat ->
  exists j, pick h i n = Some j /\ (j = 2 * i + 1 \/ j = 2 * i + 2)%nat /\
            (j < n)%nat /\
            (if Z.of_nat (2 * i + 2) <? Z.of_nat n
             then (fun b : bool => if b then Z.of_nat (2 * i + 2)
                                   else Z.of_nat (2 * i + 1))
                    <$> priorityHeap_Less h (Z.of_nat (2 * i + 2))
                                          (Z.of_nat (2 * i + 1))
             else Some (Z.of_nat (2 * i + 1))) = Some (Z.of_nat j).
Proof.
  intros Hok Hfit Hi Hn. unfold pick.
  destruct (decide (2 * i + 2 < n)%nat) as [H2|H2].
  - rewrite (proj2 (Z.ltb_lt _ _)) by lia.
    destruct (vals_is_Some h (2 * i + 1) ltac:(lia)) as [a Ha].
    destruct (vals_is_Some h (2 * i + 2) ltac:(lia)) as [b Hb].
    rewrite (Less_vals zero h _ _ _ _ Hok Hb Ha). simpl.
    destruct (lt_of h b a); eexists; (split; [done|]); split; try lia; auto.
  - rewrite (proj2 (Z.ltb_ge _ _)) by lia.
    eexists; (split; [done|]); split; try lia; auto.
Qed.

Lemma down_loop_S (f : nat) (h : priorityHeap) (i n : Z) :
  down_loop (S f) h i n =
    if (add64 (mul64 2 i) 1 >=? n) || (add64 (mul64 2 i) 1 <? 0)
    then Some (h, i)
    else
      j ← (if add64 (add64 (mul64 2 i) 1) 1 <? n
           then (fun b : bool => if b then add64 (add64 (mul64 2 i) 1) 1
                                 else add64 (mul64 2 i) 1)
                  <$> priorityHeap_Less h (add64 (add64 (mul64 2 i) 1) 1)
                                        (add64 (mul64 2 i) 1)
           else Some (add64 (mul64 2 i) 1));
      b ← priorityHeap_Less h j i;
      if negb b then Some (h, i)
      else h1 ← priorityHeap_Swap h i j; down_loop f h1 j n.
Proof. reflexivity. Qed.

(** The loop of [down] ends, within its fuel, as [down_run] says. *)
Lemma down_loop_run (f : nat) (h : priorityHeap) (i n : nat) :
  idx_ok h -> fits h ->
  (i < length (items h))%nat -> (n <= length (items h))%nat ->
  (n - i < f)%nat ->
  exists h' i', down_loop f h (Z.of_nat i) (Z.of_nat n)
                = Some (h', Z.of_nat i') /\ down_run h i n h' i'.
Proof.
  revert h i. induction f as [|f IH]; intros h i Hok Hfit Hi Hn Hf; [lia|].
  rewrite down_loop_S. destruct (child_go i) as [-> ->].
  { pose proof (fits_lt h (S i) Hfit ltac:(lia)). lia. }
  destruct (decide (n <= 2 * i + 1)%nat) as [Hleaf|Hleaf].
  { rewrite (proj2 (Z.geb_le _ _)) by lia. cbn [orb].
    exists h, i. split; [done|]. by constructor. }
  destruct (Z.geb_spec (Z.of_nat (2 * i + 1)) (Z.of_nat n)); [lia|].
  rewrite (proj2 (Z.ltb_ge _ _)) by lia. cbn [orb].
  destruct (pick_run h i n) as (j & Hpick & Hj & Hjn & ->);
    [done|done|lia|done|]. cbn [mbind option_bind].
  destruct (vals_is_Some h i ltac:(lia)) as [a Ha].
  destruct (vals_is_Some h j ltac:(lia)) as [b Hb].
  pose proof (Less_vals zero h _ _ _ _ Hok Hb Ha) as HL. rewrite HL.
  cbn [mbind option_bind].
  destruct (lt_of h b a) eqn:Hba; cbn [negb].
  - destruct (vals_lookup_inv zero h _ _ Hok Ha) as (pi & ? & Hpi & _).
    destruct (vals_lookup_inv zero h _ _ Hok Hb) as (pj & ? & Hpj & _).
    destruct (Swap_spec h _ _ _ _ Hok Hpi Hpj)
      as (h1 & Hs & Hit & Hok1 & Hsame).
    rewrite Hs. simpl.
    pose proof (same_items_length _ _ Hsame) as Hlen.
    destruct (IH h1 j) as (h' & i' & Hdown & Hrun); try done; try lia.
    { unfold fits, priorityHeap_Len in *. by rewrite Hlen. }
    exists h', i'. split; [done|]. eapply down_swap; try done. lia.
  - exists h, i. split; [done|]. eapply down_stay; try done. lia.
Qed.

End Loops.
End heap_loops.

(** ** Priority queue: what the runs of [up] and [down] preserve *)

Module heap_runs.
Import priorityqueue heap_order heap_methods heap_loops.
Section Runs.

Context {T : Type}.
Variable zero : T.

Abbreviation priorityHeap := (priorityHeap T).
Abbreviation vals := (vals zero).

Lemma Swap_inv (h h1 : priorityHeap) (i j : Z) :
  idx_ok h -> priorityHeap_Swap h i j = Some h1 ->
  exists pi pj, 0 <= i /\ 0 <= j /\
    items h !! Z.to_nat i = Some pi /\ items h !! Z.to_nat j = Some pj /\
    items h1 = <[Z.to_nat j:=pi]> (<[Z.to_nat i:=pj]> (items h)) /\
    idx_ok h1 /\ same_items h h1.
Proof.
  intros Hok Hs. pose proof Hs as Hs'. unfold priorityHeap_Swap in Hs'.
  destruct (index (items h) i) as [pi|] eqn:Hi; [|done].
  destruct (index (items h) j) as [pj|] eqn:Hj; [|done].
  apply index_Some in Hi as [Hi0 Hi]. apply index_Some in Hj as [Hj0 Hj].
  destruct (Swap_spec h _ _ _ _ Hok Hi Hj) as (h2 & Hs2 & Hit & Hok2 & Hsame).
  rewrite !Z2Nat.id in Hs2 by done. rewrite Hs in Hs2. injection Hs2 as <-.
  eauto 10.
Qed.

(** Whatever the arguments, a run of [up] or [down] that returns keeps the
    indices consistent and the items the same. *)
Lemma up_loop_same (f : nat) (h h' : priorityHeap) (j : Z) :
  idx_ok h -> up_loop f h j = Some h' -> idx_ok h' /\ same_items h h'.
Proof.
  revert h j. induction f as [|f IH]; intros h j Hok; [done|]. simpl.
  destruct (_ =? j). { intros [= <-]. split; [done|apply same_items_refl]. }
  destruct (priorityHeap_Less h j _) as [[]|]; simpl; [| |done].
  - destruct (priorityHeap_Swap h _ j) as [h1|] eqn:Hs; [|done]. simpl.
    destruct (Swap_inv _ _ _ _ Hok Hs) as (? & ? & _ & _ & _ & _ & _ & Hok1 & Hs1).
    intros [Hok' Hs']%IH; [|done]. split; [done|].
    by eapply same_items_trans.
  - intros [= <-]. split; [done|apply same_items_refl].
Qed.

Lemma down_loop_same (f : nat) (h h' : priorityHeap) (i n i' : Z) :
  idx_ok h -> down_loop f h i n = Some (h', i') ->
  idx_ok h' /\ same_items h h'.
Proof.
  revert h i. induction f as [|f IH]; intros h i Hok; [done|].
  rewrite down_loop_S.
  destruct (_ || _). { intros [= <- <-]. split; [done|apply same_items_refl]. }
  destruct (if _ <? n then _ else _) as [j|]; [|done]. cbn [mbind option_bind].
  destruct (priorityHeap_Less h j i) as [[]|]; cbn [mbind option_bind negb];
    [| |done].
  - destruct (priorityHeap_Swap h i j) as [h1|] eqn:Hs; [|done].
    cbn [mbind option_bind].
    destruct (Swap_inv _ _ _ _ Hok Hs) as (? & ? & _ & _ & _ & _ & _ & Hok1 & Hs1).
    intros [Hok' Hs']%IH; [|done]. split; [done|].
    by eapply same_items_trans.
  - intros [= <- <-]. split; [done|apply same_items_refl].
Qed.

Lemma Swap_nat (h h1 : priorityHeap) (i j : nat) :
  idx_ok h ->
  priorityHeap_Swap h (Z.of_nat i) (Z.of_nat j) = Some h1 ->
  exists pi pj a b,
    items h !! i = Some pi /\ items h !! j = Some pj /\
    vals h !! i = Some a /\ vals h !! j = Some b /\
    items h1 = <[j:=pi]> (<[i:=pj]> (items h)) /\
    vals h1 = <[j:=a]> (<[i:=b]> (vals h)) /\
    idx_ok h1 /\ same_items h h1.
Proof.
  intros Hok Hs.
  destruct (Swap_inv _ _ _ _ Hok Hs)
    as (pi & pj & _ & _ & Hi & Hj & Hit & Hok1 & Hsame).
  rewrite !Nat2Z.id in *.
  destruct (Hok _ _ Hi) as (ii & Hii & _).
  destruct (Hok _ _ Hj) as (ij & Hij & _).
  pose proof (vals_lookup zero h _ _ _ Hi Hii) as Ha.
  pose proof (vals_lookup zero h _ _ _ Hj Hij) as Hb.
  destruct (vals_Swap zero h h1 _ _ _ _ Hok Ha Hb Hs) as (Hv & _).
  eauto 12.
Qed.

Lemma pick_range (h : priorityHeap) (i n j : nat) :
  (2 * i + 1 < n)%nat -> pick h i n = Some j ->
  (j < n)%nat /\ j <> i /\ parent j = i.
Proof.
  intros Hi. unfold pick.
  destruct (decide (2 * i + 2 < n)%nat).
  - destruct (priorityHeap_Less h _ _) as [[]|]; [| |done];
      intros [= Hj]; pose proof (parent_spec j); lia.
  - intros [= Hj]. pose proof (parent_spec j). lia.
Qed.

Lemma up_run_frame (h h' : priorityHeap) (j : nat) :
  up_run h j h' -> idx_ok h ->
  idx_ok h' /\ same_items h h' /\
  forall k, (j < k)%nat -> items h' !! k = items h !! k.
Proof.
  induction 1 as [h|h j Hj HL|h j h1 h' Hj HL Hs Hrun IH]; intros Hok.
  - split; [done|]. split; [apply same_items_refl|done].
  - split; [done|]. split; [apply same_items_refl|done].
  - destruct (Swap_nat _ _ _ _ Hok Hs)
      as (pi & pj & a & b & Hi & Hj' & _ & _ & Hit & _ & Hok1 & Hsame).
    destruct (IH Hok1) as (Hok' & Hsame' & Hfr).
    split; [done|]. split; [by eapply same_items_trans|].
    intros k Hk. pose proof (parent_lt j Hj).
    rewrite Hfr by lia. rewrite Hit.
    rewrite !list_lookup_insert_ne by lia. done.
Qed.

Lemma down_run_frame (h h' : priorityHeap) (i n i' : nat) :
  down_run h i n h' i' -> idx_ok h ->
  idx_ok h' /\ same_items h h' /\ (i <= i')%nat /\ (i' = i -> h' = h) /\
  forall k, (n <= k \/ k < i)%nat -> items h' !! k = items h !! k.
Proof.
  induction 1 as [h i n Hn|h i n j Hn Hp HL|h i n j h1 h' i' Hn Hp HL Hs Hrun IH];
    intros Hok.
  - split; [done|]. split; [apply same_items_refl|done].
  - split; [done|]. split; [apply same_items_refl|done].
  - destruct (Swap_nat _ _ _ _ Hok Hs)
      as (pi & pj & a & b & Hi & Hj' & _ & _ & Hit & _ & Hok1 & Hsame).
    destruct (pick_range _ _ _ _ Hn Hp) as (Hjn & Hji & Hpj).
    assert (i < j)%nat by (pose proof (parent_spec j); lia).
    destruct (IH Hok1) as (Hok' & Hsame' & Hle & _ & Hfr).
    split; [done|]. split; [by eapply same_items_trans|].
    split; [lia|]. split; [lia|].
    intros k Hk. rewrite Hfr by lia. rewrite Hit.
    rewrite !list_lookup_insert_ne by lia. done.
Qed.

Section RunsOrder.

Variable lt : T -> T -> bool.
Hypothesis lt_asym : forall a b, lt a b = true -> lt b a = false.
Hypothesis lt_negtrans :
  forall a b c, lt a b = false -> lt b c = false -> lt a c = false.

Lemma pick_least (h : priorityHeap) (i n j : nat) :
  idx_ok h -> lt_of h = lt ->
  (2 * i + 1 < n)%nat -> (n <= length (items h))%nat ->
  pick h i n = Some j ->
  exists b, vals h !! j = Some b /\ least_child lt (vals h) n i b.
Proof.
  intros Hok Hlt Hi Hn. unfold pick.
  destruct (vals_is_Some zero h (2 * i + 1) ltac:(lia)) as [c1 H1].
  destruct (decide (2 * i + 2 < n)%nat) as [H2|H2].
  - destruct (vals_is_Some zero h (2 * i + 2) ltac:(lia)) as [c2 H2'].
    rewrite (Less_vals zero h _ _ _ _ Hok H2' H1), Hlt.
    destruct (lt c2 c1) eqn:E; intros [= Hj].
    + exists c2. split; [by rewrite <- Hj|].
      intros s c Hs Hsi Hps Hc.
      destruct (parent_child s i Hsi Hps) as [->| ->].
      * rewrite H1 in Hc. injection Hc as <-. by apply lt_asym.
      * rewrite H2' in Hc. injection Hc as <-. by apply lt_irrefl.
    + exists c1. split; [by rewrite <- Hj|].
      intros s c Hs Hsi Hps Hc.
      destruct (parent_child s i Hsi Hps) as [->| ->].
      * rewrite H1 in Hc. injection Hc as <-. by apply lt_irrefl.
      * rewrite H2' in Hc. by injection Hc as <-.
  - intros [= Hj]. exists c1. split; [by rewrite <- Hj|].
    intros s c Hs Hsi Hps Hc.
    destruct (parent_child s i Hsi Hps) as [->| ->]; [|lia].
    rewrite H1 in Hc. injection Hc as <-. by apply lt_irrefl.
Qed.

(** [down] on a hole at [i]: when the item does not move, its children are
    in order with it; when it moves, or when it was in order with its
    parent, the first [n] positions end as a heap. *)
Lemma down_run_heap (h h' : priorityHeap) (i n i' : nat) :
  down_run h i n h' i' ->
  idx_ok h -> lt_of h = lt -> (n <= length (items h))%nat ->
  hole lt (vals h) n i ->
  (i' = i -> children_ok lt (vals h) n i) /\
  ((i < i')%nat \/ ok_at lt (vals h) i -> heap_upto lt (vals h') n).
Proof.
  induction 1 as [h i n Hn|h i n j Hn Hp HL|h i n j h1 h' i' Hn Hp HL Hs Hrun IH];
    intros Hok Hlt Hlen Hhole.
  - assert (Hc : children_ok lt (vals h) n i).
    { intros k Hk Hki Hpk. destruct (parent_child k i Hki Hpk); lia. }
    split; [done|]. intros [?|Hi]; [lia|]. by eapply heap_upto_intro.
  - destruct (pick_least h i n j Hok Hlt Hn Hlen Hp) as (b & Hb & Hleast).
    destruct (Less_inv zero h _ _ _ Hok HL) as (b' & a & Hb' & Ha & Hba).
    assert (b' = b) as -> by congruence. rewrite Hlt in Hba.
    assert (Hc : children_ok lt (vals h) n i).
    { by eapply stay_children_ok. }
    split; [done|]. intros [?|Hi]; [lia|]. by eapply heap_upto_intro.
  - destruct (pick_least h i n j Hok Hlt Hn Hlen Hp) as (b & Hb & Hleast).
    destruct (pick_range _ _ _ _ Hn Hp) as (Hjn & Hji & Hpj).
    destruct (Less_inv zero h _ _ _ Hok HL) as (b' & a & Hb' & Ha & Hba).
    assert (b' = b) as -> by congruence. rewrite Hlt in Hba.
    destruct (Swap_nat _ _ _ _ Hok Hs)
      as (pi & pj & a' & b' & _ & _ & Ha' & Hb'' & _ & Hv & Hok1 & Hsame).
    assert (a' = a) as -> by congruence. assert (b' = b) as -> by congruence.
    destruct (down_swap_hole lt lt_asym (vals h) n i j a b)
      as [Hhole1 Hokj]; try done.
    rewrite <- Hv in Hhole1, Hokj.
    destruct (down_run_frame _ _ _ _ _ Hrun Hok1) as (_ & _ & Hle & _).
    assert (i < j)%nat by (pose proof (parent_spec j); lia).
    destruct IH as [_ IH]; try done.
    { by rewrite (same_items_lt_of _ _ Hsame). }
    { by rewrite (same_items_length _ _ Hsame). }
    split; [lia|]. intros _. apply IH. by right.
Qed.

(** [up] on a hole at [j] whose children are in order with it: the first
    [n] positions end as a heap. *)
Lemma up_run_heap (h h' : priorityHeap) (j n : nat) :
  up_run h j h' ->
  idx_ok h -> lt_of h = lt -> (j < n)%nat -> (n <= length (items h))%nat ->
  hole lt (vals h) n j -> children_ok lt (vals h) n j ->
  heap_upto lt (vals h') n.
Proof.
  induction 1 as [h|h j Hj HL|h j h1 h' Hj HL Hs Hrun IH];
    intros Hok Hlt Hjn Hlen Hhole Hc.
  - eapply heap_upto_intro; try done. intros a b Ha Hb.
    change (parent 0) with 0%nat in Hb. assert (a = b) as -> by congruence.
    by apply lt_irrefl.
  - destruct (Less_inv zero h _ _ _ Hok HL) as (a & b & Ha & Hb & Hab).
    rewrite Hlt in Hab.
    eapply heap_upto_intro; try done. intros a' b' Ha' Hb'.
    assert (a' = a) as -> by congruence. by assert (b' = b) as -> by congruence.
  - destruct (Less_inv zero h _ _ _ Hok HL) as (a & b & Ha & Hb & Hab).
    rewrite Hlt in Hab.
    destruct (Swap_nat _ _ _ _ Hok Hs)
      as (pi & pj & b' & a' & _ & _ & Hb' & Ha' & _ & Hv & Hok1 & Hsame).
    assert (a' = a) as -> by congruence. assert (b' = b) as -> by congruence.
    destruct (up_swap_hole lt lt_asym lt_negtrans (vals h) n j a b)
      as [Hhole1 Hc1]; try done.
    rewrite <- Hv in Hhole1, Hc1.
    pose proof (parent_lt j Hj).
    apply IH; try done; try lia.
    { by rewrite (same_items_lt_of _ _ Hsame). }
    { by rewrite (same_items_length _ _ Hsame). }
Qed.

(** A value that comes before all the others stays where it is under
    [down] and reaches the root under [up]. *)
Lemma down_run_least (h h' : priorityHeap) (i n i' : nat) :
  down_run h i n h' i' -> idx_ok h -> lt_of h = lt ->
  forall v, before_all lt (vals h) i v -> h' = h /\ i' = i.
Proof.
  intros Hrun Hok Hlt v [Hv Hall].
  destruct Hrun as [h i n Hn|h i n j Hn Hp HL|h i n j h1 h' i' Hn Hp HL Hs Hrun];
    [done|done|].
  destruct (pick_range _ _ _ _ Hn Hp) as (Hjn & Hji & Hpj).
  destruct (Less_inv zero h _ _ _ Hok HL) as (b & a & Hb & Ha & Hba).
  rewrite Hlt in Hba. assert (a = v) as -> by congruence.
  pose proof (Hall j b Hji Hb) as Hvb.
  apply lt_asym in Hvb. congruence.
Qed.

Lemma up_run_least (h h' : priorityHeap) (j : nat) :
  up_run h j h' -> idx_ok h -> lt_of h = lt ->
  forall v, before_all lt (vals h) j v -> vals h' !! 0%nat = Some v.
Proof.
  induction 1 as [h|h j Hj HL|h j h1 h' Hj HL Hs Hrun IH];
    intros Hok Hlt v [Hv Hall].
  - done.
  - destruct (Less_inv zero h _ _ _ Hok HL) as (a & b & Ha & Hb & Hab).
    rewrite Hlt in Hab. assert (a = v) as -> by congruence.
    pose proof (parent_lt j Hj).
    rewrite (Hall (parent j) b) in Hab; [done|lia|done].
  - destruct (Swap_nat _ _ _ _ Hok Hs)
      as (pi & pj & b & a & _ & _ & Hb & Ha & _ & Hval & Hok1 & Hsame).
    assert (a = v) as -> by congruence.
    pose proof (parent_lt j Hj).
    pose proof (lookup_swap (vals h) (parent j) j b v) as Hl.
    specialize (fun k => Hl k Hb Ha).
    apply IH; try done.
    { by rewrite (same_items_lt_of _ _ Hsame). }
    split.
    + rewrite Hval, Hl. destruct (decide (parent j = j)); [lia|].
      by destruct (decide (parent j = parent j)).
    + intros k a Hk. rewrite Hval, Hl.
      destruct (decide (k = j)) as [->|Hkj].
      * intros [= <-]. apply (Hall (parent j)); [lia|done].
      * destruct (decide (k = parent j)); [done|]. by apply Hall.
Qed.

End RunsOrder.

End Runs.
End heap_runs.

(** ** Priority queue: the functions of [container/heap] *)

Module heap_ops.
Import priorityqueue heap_order heap_methods heap_loops heap_runs.
Section Ops.

Context {T : Type}.
Variable zero : T.

Abbreviation priorityHeap := (priorityHeap T).
Abbreviation vals := (vals zero).
Abbreviation heap_ok := (heap_ok zero).

Lemma less_asym (c : CompareFunc T) (m : bool) :
  CompareOK c -> forall a b, less c m a b = true -> less c m b a = false.
Proof.
  intros [Hanti _] a b. unfold less.
  pose proof (Hanti a b). pose proof (Hanti b a). destruct m; lia.
Qed.

Lemma less_negtrans (c : CompareFunc T) (m : bool) :
  CompareOK c ->
  forall a b d, less c m a b = false -> less c m b d = false ->
                less c m a d = false.
Proof.
  intros [Hanti Htr] a b d. unfold less.
  pose proof (Hanti a b). pose proof (Hanti b a).
  pose proof (Hanti b d). pose proof (Hanti d b).
  pose proof (Hanti a d). pose proof (Hanti d a).
  pose proof (Htr a b d). pose proof (Htr d b a).
  destruct m; lia.
Qed.

Lemma heap_up_run (h : priorityHeap) (j : nat) :
  idx_ok h -> fits h -> (j < length (items h))%nat ->
  exists h', heap_up h (Z.of_nat j) = Some h' /\ up_run h j h'.
Proof. intros. apply up_loop_run; try done. lia. Qed.

Lemma heap_down_run (h : priorityHeap) (i n : nat) :
  idx_ok h -> fits h ->
  (i < length (items h))%nat -> (n <= length (items h))%nat ->
  exists h' i', heap_down h (Z.of_nat i) (Z.of_nat n)
                = Some (h', Z.of_nat i' >? Z.of_nat i) /\
                down_run h i n h' i'.
Proof.
  intros Hok Hfit Hi Hn. unfold heap_down.
  destruct (down_loop_run zero (S (length (items h))) h i n)
    as (h' & i' & -> & Hrun); try done; [lia|].
  simpl. eauto.
Qed.

Lemma sub64_Len (h : priorityHeap) :
  fits h -> sub64 (priorityHeap_Len h) 1 = priorityHeap_Len h - 1.
Proof.
  unfold fits, priorityHeap_Len, sub64. intros.
  apply wrap_id. unfold in_range, min_int, max_int. lia.
Qed.

(** [priorityHeap.Pop] takes the last pointer off the slice and invalidates
    the index of its item. *)
Lemma Pop_last (h : priorityHeap) (n : nat) (p : nat) :
  idx_ok h -> fits h ->
  length (items h) = S n -> items h !! n = Some p ->
  exists h' it,
    priorityHeap_Pop h = Some (p, h') /\
    store h !! p = Some it /\
    store h' = <[p := {| Value := Value it; Index := -1 |}]> (store h) /\
    items h' = take n (items h) /\
    vals h' = take n (vals h) /\ vals h !! n = Some (Value it) /\
    compare h' = compare h /\ isMaxHeap h' = isMaxHeap h /\
    idx_ok h'.
Proof.
  intros Hok Hfit Hlen Hp.
  destruct (Hok n p Hp) as (it & Hit & Hidx).
  unfold priorityHeap_Pop.
  fold (priorityHeap_Len h). rewrite (sub64_Len h Hfit).
  unfold priorityHeap_Len. rewrite Hlen.
  replace (Z.of_nat (S n) - 1) with (Z.of_nat n) by lia.
  rewrite index_nat, Hp. simpl.
  rewrite (set_Index_spec _ _ _ _ Hit). simpl. rewrite Nat2Z.id.
  eexists _, it. split; [done|]. split; [done|]. simpl.
  split; [done|]. split; [done|].
  assert (Hother : forall k q, (k < n)%nat -> items h !! k = Some q -> q <> p).
  { intros k q Hk Hq ->. pose proof (idx_ok_inj h _ _ _ Hok Hq Hp). lia. }
  split; [|split; [by eapply vals_lookup|split; [done|split; [done|]]]].
  - unfold priorityqueue.vals. simpl. rewrite <- fmap_take.
    apply list_eq. intros k. rewrite !list_lookup_fmap.
    destruct (decide (k < n)%nat) as [Hk|Hk].
    + rewrite lookup_take_lt by done.
      destruct (items h !! k) as [q|] eqn:Hq; [|done]. simpl.
      by rewrite list_lookup_insert_ne by (symmetry; by eapply Hother).
    + by rewrite lookup_take_ge by lia.
  - intros k q. simpl. intros Hq.
    assert (k < n)%nat as Hk.
    { apply lookup_lt_Some in Hq. rewrite length_take in Hq. lia. }
    rewrite lookup_take_lt in Hq by done.
    rewrite list_lookup_insert_ne by (symmetry; by eapply Hother).
    by apply Hok.
Qed.

Lemma take_snoc_last {A} (l : list A) (n : nat) (x : A) :
  length l = S n -> l !! n = Some x -> l = take n l ++ [x].
Proof.
  intros Hlen Hx. rewrite <- (take_drop n l) at 1. f_equal.
  apply list_eq. intros [|k].
  - rewrite lookup_drop. simpl. by rewrite Nat.add_0_r.
  - rewrite lookup_drop. simpl. apply lookup_ge_None. lia.
Qed.

(** [priorityHeap.Pop] after the loops have brought the item to remove to
    the last position and made a heap of the positions before it. *)
Lemma Pop_last_removed (h0 h : priorityHeap) (n : nat) (p : nat) :
  idx_ok h -> fits h -> same_items h0 h ->
  length (items h) = S n -> items h !! n = Some p ->
  exists h' it,
    priorityHeap_Pop h = Some (p, h') /\
    store h0 !! p = Some it /\
    removed zero h0 p (Value it) h' /\
    length (items h') = n /\
    vals h' = take n (vals h) /\
    (forall q, q <> p -> store h' !! q = store h !! q).
Proof.
  intros Hok Hfit Hsame Hlen Hp.
  destruct (Pop_last h n p Hok Hfit Hlen Hp)
    as (h' & it & HPop & Hit & Hst & Hitems & Hvals & Hvn & Hc & Hm & Hok').
  pose proof Hsame as (Hc0 & Hm0 & _ & Hv0 & _ & Hperm).
  assert (exists it0, store h0 !! p = Some it0 /\ Value it0 = Value it)
    as (it0 & Hit0 & Hv).
  { specialize (Hv0 p). rewrite Hit in Hv0.
    destruct (store h0 !! p) as [it0|]; [|done].
    exists it0. split; [done|]. simpl in Hv0. congruence. }
  exists h', it0. split; [done|]. split; [done|].
  split; [|split; [|split; [done|]]].
  - split; [congruence|]. split; [congruence|]. split; [|split; [|split]].
    + rewrite <- Hperm, Hitems.
      rewrite (take_snoc_last _ _ _ Hlen Hp) at 1.
      by rewrite Permutation_app_comm.
    + rewrite <- (same_items_vals zero _ _ Hsame), Hvals, Hv.
      rewrite (take_snoc_last (vals h) n (Value it)) at 1;
        [|by rewrite length_vals|done].
      by rewrite Permutation_app_comm.
    + eexists. rewrite Hst.
      rewrite list_lookup_insert_eq by (by eapply lookup_lt_Some).
      split; [done|]. by simpl.
    + done.
  - rewrite Hitems, length_take. lia.
  - intros q Hq. rewrite Hst. by rewrite list_lookup_insert_ne.
Qed.

Lemma hole_change (lt : T -> T -> bool) (l l' : list T) (n i : nat) :
  hole lt l n i ->
  (forall k, (k < n)%nat -> k <> i -> l' !! k = l !! k) ->
  hole lt l' n i.
Proof.
  intros [H1 H2] Hsame. split.
  - intros k Hk Hki Hpk a b. pose proof (parent_spec k).
    rewrite !Hsame by lia. by apply (H1 k).
  - intros Hi k Hk Hpk a b.
    pose proof (parent_spec k). pose proof (parent_spec i).
    unfold gp_ok in H2. specialize (H2 Hi k Hk Hpk a b).
    rewrite Hpk in *. rewrite !Hsame by lia. done.
Qed.

Lemma heap_upto_change (lt : T -> T -> bool) (l l' : list T) (n : nat) :
  heap_upto lt l n ->
  (forall k, (k < n)%nat -> l' !! k = l !! k) ->
  heap_upto lt l' n.
Proof.
  intros Hh Hsame k Hk a b. pose proof (parent_spec k).
  rewrite !Hsame by lia. by apply (Hh k).
Qed.

Lemma heap_upto_le (lt : T -> T -> bool) (l : list T) (n m : nat) :
  heap_upto lt l n -> (m <= n)%nat -> heap_upto lt l m.
Proof. intros Hh Hm k Hk. apply Hh. lia. Qed.

(** The common part of [Fix] and [Remove]: [down] at [i] on the first [n]
    positions and, when the item did not move, [up] at [i]. *)
Lemma fix_at (h : priorityHeap) (i n : nat) :
  idx_ok h -> fits h -> (i < n)%nat -> (n <= length (items h))%nat ->
  exists h2 moved h3,
    heap_down h (Z.of_nat i) (Z.of_nat n) = Some (h2, moved) /\
    (if negb moved then heap_up h2 (Z.of_nat i) else Some h2) = Some h3 /\
    idx_ok h3 /\ same_items h h3 /\
    (forall k, (n <= k)%nat -> items h3 !! k = items h !! k) /\
    (CompareOK (compare h) -> hole (lt_of h) (vals h) n i ->
     heap_upto (lt_of h) (vals h3) n).
Proof.
  intros Hok Hfit Hi Hn.
  destruct (heap_down_run h i n Hok Hfit ltac:(lia) Hn)
    as (h2 & i' & Hdown & Hrun).
  destruct (down_run_frame zero _ _ _ _ _ Hrun Hok)
    as (Hok2 & Hsame2 & Hle & Hstay & Hfr2).
  exists h2, (Z.of_nat i' >? Z.of_nat i).
  destruct (Z.gtb_spec (Z.of_nat i') (Z.of_nat i)) as [Hmoved|Hnot]; simpl.
  - exists h2. do 4 (split; [done|]). split.
    { intros k Hk. apply Hfr2. lia. }
    intros HC Hhole.
    destruct (down_run_heap zero (lt_of h) (less_asym _ _ HC)
                (less_negtrans _ _ HC) _ _ _ _ _ Hrun Hok eq_refl Hn Hhole)
      as [_ Hheap].
    apply Hheap. left. lia.
  - assert (i' = i) as -> by lia. rewrite (Hstay eq_refl) in *.
    destruct (heap_up_run h i Hok Hfit ltac:(lia)) as (h3 & Hup & Hrun3).
    destruct (up_run_frame zero _ _ _ Hrun3 Hok) as (Hok3 & Hsame3 & Hfr3).
    exists h3. do 4 (split; [done|]). split.
    { intros k Hk. apply Hfr3. lia. }
    intros HC Hhole.
    destruct (down_run_heap zero (lt_of h) (less_asym _ _ HC)
                (less_negtrans _ _ HC) _ _ _ _ _ Hrun Hok eq_refl Hn Hhole)
      as [Hch _].
    eapply (up_run_heap zero (lt_of h) (less_asym _ _ HC)
              (less_negtrans _ _ HC)); try done. by apply Hch.
Qed.

Lemma heap_Fix_spec (h : priorityHeap) (i : nat) :
  idx_ok h -> fits h -> (i < length (items h))%nat ->
  exists h', heap_Fix h (Z.of_nat i) = Some h' /\
             idx_ok h' /\ same_items h h' /\
             (CompareOK (compare h) ->
              hole (lt_of h) (vals h) (length (items h)) i -> heap_ok h').
Proof.
  intros Hok Hfit Hi.
  destruct (fix_at h i (length (items h)) Hok Hfit Hi ltac:(lia))
    as (h2 & moved & h3 & Hdown & Hup & Hok3 & Hsame3 & _ & Hheap).
  exists h3. unfold heap_Fix. fold (priorityHeap_Len h). unfold priorityHeap_Len.
  rewrite Hdown. simpl. split; [done|]. split; [done|]. split; [done|].
  intros HC Hhole. unfold priorityqueue.heap_ok.
  rewrite (same_items_lt_of _ _ Hsame3), (same_items_length _ _ Hsame3).
  by apply Hheap.
Qed.

(** The slice after [Swap(i, n)], [n] the last position: a hole at [i] in
    the heap formed by the first [n] positions. *)
Lemma hole_after_Swap (h h1 : priorityHeap) (i n : nat) :
  idx_ok h -> length (items h) = S n -> (i <= n)%nat ->
  priorityHeap_Swap h (Z.of_nat i) (Z.of_nat n) = Some h1 ->
  idx_ok h1 /\ same_items h h1 /\ items h1 !! n = items h !! i /\
  (CompareOK (compare h) -> heap_ok h ->
   hole (lt_of h) (vals h1) n i).
Proof.
  intros Hok Hlen Hi Hs.
  destruct (Swap_nat zero _ _ _ _ Hok Hs)
    as (pi & pn & a & b & Hpi & Hpn & Ha & Hb & Hit & Hv & Hok1 & Hsame).
  split; [done|]. split; [done|]. split.
  { rewrite Hit, Hpi. apply list_lookup_insert_eq.
    rewrite length_insert. lia. }
  intros HC Hh. unfold priorityqueue.heap_ok in Hh. rewrite Hlen in Hh.
  rewrite Hv. eapply hole_change.
  - apply (heap_upto_hole _ (less_negtrans _ _ HC)).
    eapply heap_upto_le; [apply Hh|lia].
  - intros k Hk Hki. by rewrite !list_lookup_insert_ne by lia.
Qed.

Lemma heap_ok_take (h h' : priorityHeap) (l : list T) (n : nat) :
  heap_upto (lt_of h) l n -> vals h' = take n l ->
  lt_of h' = lt_of h -> length (items h') = n -> heap_ok h'.
Proof.
  intros Hh Hv Hlt Hlen. unfold priorityqueue.heap_ok.
  rewrite Hlt, Hlen, Hv.
  eapply heap_upto_change; [done|]. intros k Hk. by apply lookup_take_lt.
Qed.

Lemma removed_lt_of (h h' : priorityHeap) p v :
  removed zero h p v h' -> lt_of h' = lt_of h.
Proof. intros (Hc & Hm & _). unfold lt_of. by rewrite Hc, Hm. Qed.

Lemma heap_Remove_spec (h : priorityHeap) (i : nat) (p : nat) :
  idx_ok h -> fits h -> items h !! i = Some p ->
  exists h' it,
    heap_Remove h (Z.of_nat i) = Some (p, h') /\
    store h !! p = Some it /\
    removed zero h p (Value it) h' /\
    S (length (items h')) = length (items h) /\
    (CompareOK (compare h) -> heap_ok h -> heap_ok h') /\
    (S i = length (items h) ->
     items h' = take i (items h) /\
     forall q, q <> p -> store h' !! q = store h !! q).
Proof.
  intros Hok Hfit Hp.
  destruct (length (items h)) as [|n] eqn:Hlen.
  { apply lookup_lt_Some in Hp. lia. }
  assert (i <= n)%nat as Hi by (apply lookup_lt_Some in Hp; lia).
  unfold heap_Remove. rewrite (sub64_Len h Hfit).
  unfold priorityHeap_Len. rewrite Hlen.
  replace (Z.of_nat (S n) - 1) with (Z.of_nat n) by lia.
  destruct (decide (i = n)) as [->|Hin].
  - rewrite Z.eqb_refl. simpl.
    destruct (Pop_last_removed h h n p Hok Hfit (same_items_refl h) Hlen Hp)
      as (h' & it & HPop & Hit & Hrem & Hlen' & Hv & Hst).
    destruct (Pop_last h n p Hok Hfit Hlen Hp)
      as (h'' & it' & HPop' & _ & _ & Hitems & _).
    assert (h'' = h') as -> by congruence.
    exists h', it. do 3 (split; [done|]). split; [lia|]. split; [|done].
    intros HC Hh. unfold priorityqueue.heap_ok in Hh. rewrite Hlen in Hh.
    apply (heap_ok_take h h' (vals h) n); try done.
    + eapply heap_upto_le; [apply Hh|lia].
    + by eapply removed_lt_of.
  - rewrite (proj2 (Z.eqb_neq _ _)) by lia. simpl.
    destruct (Hok _ _ Hp) as (it & Hit & _).
    assert (is_Some (items h !! n)) as [pn Hpn].
    { apply lookup_lt_is_Some. lia. }
    destruct (Swap_spec h _ _ _ _ Hok Hp Hpn) as (h1 & Hs & _).
    destruct (hole_after_Swap h h1 i n Hok Hlen Hi Hs)
      as (Hok1 & Hsame1 & Hlast1 & Hhole1).
    rewrite Hs. simpl.
    pose proof (same_items_length _ _ Hsame1) as Hlen1.
    destruct (fix_at h1 i n) as
      (h2 & moved & h3 & Hdown & Hup & Hok3 & Hsame3 & Hfr3 & Hheap3);
      try done; try lia.
    { unfold fits, priorityHeap_Len in *. by rewrite Hlen1. }
    rewrite Hdown. simpl. rewrite Hup. simpl.
    pose proof (same_items_length _ _ Hsame3) as Hlen3.
    assert (Hfit3 : fits h3).
    { unfold fits, priorityHeap_Len in *. by rewrite Hlen3, Hlen1. }
    destruct (Pop_last_removed h h3 n p Hok3 Hfit3) as
      (h' & it' & HPop & Hit' & Hrem & Hlen' & Hv & Hst).
    { by eapply same_items_trans. }
    { by rewrite Hlen3, Hlen1, Hlen. }
    { rewrite Hfr3 by lia. by rewrite Hlast1. }
    assert (it' = it) as -> by congruence.
    exists h', it. do 3 (split; [done|]). split; [lia|]. split; [|lia].
    intros HC Hh.
    assert (Hlt1 : lt_of h1 = lt_of h) by by apply same_items_lt_of.
    apply (heap_ok_take h h' (vals h3) n); try done.
    + rewrite <- Hlt1. apply Hheap3.
      * destruct Hsame1 as (-> & _). done.
      * rewrite Hlt1. by apply Hhole1.
    + by eapply removed_lt_of.
Qed.

Lemma heap_Pop_spec (h : priorityHeap) (p : nat) :
  idx_ok h -> fits h -> items h !! 0%nat = Some p ->
  exists h' it,
    heap_Pop h = Some (p, h') /\
    store h !! p = Some it /\
    removed zero h p (Value it) h' /\
    S (length (items h')) = length (items h) /\
    (CompareOK (compare h) -> heap_ok h -> heap_ok h').
Proof.
  intros Hok Hfit Hp.
  destruct (length (items h)) as [|n] eqn:Hlen.
  { apply lookup_lt_Some in Hp. lia. }
  unfold heap_Pop. rewrite (sub64_Len h Hfit).
  unfold priorityHeap_Len. rewrite Hlen.
  replace (Z.of_nat (S n) - 1) with (Z.of_nat n) by lia.
  destruct (Hok _ _ Hp) as (it & Hit & _).
  assert (is_Some (items h !! n)) as [pn Hpn].
  { apply lookup_lt_is_Some. lia. }
  destruct (Swap_spec h _ _ _ _ Hok Hp Hpn) as (h1 & Hs & _).
  destruct (hole_after_Swap h h1 0 n Hok Hlen ltac:(lia) Hs)
    as (Hok1 & Hsame1 & Hlast1 & Hhole1).
  change (Z.of_nat 0) with 0 in Hs. rewrite Hs. cbn [mbind option_bind].
  pose proof (same_items_length _ _ Hsame1) as Hlen1.
  assert (Hfit1 : fits h1).
  { unfold fits, priorityHeap_Len in *. by rewrite Hlen1. }
  destruct (heap_down_run h1 0 n Hok1 Hfit1 ltac:(lia) ltac:(lia))
    as (h2 & i' & Hdown & Hrun).
  change (Z.of_nat 0) with 0 in Hdown. rewrite Hdown. cbn [mbind option_bind].
  destruct (down_run_frame zero _ _ _ _ _ Hrun Hok1)
    as (Hok2 & Hsame2 & _ & _ & Hfr2).
  pose proof (same_items_length _ _ Hsame2) as Hlen2.
  assert (Hfit2 : fits h2).
  { unfold fits, priorityHeap_Len in *. by rewrite Hlen2. }
  destruct (Pop_last_removed h h2 n p Hok2 Hfit2) as
    (h' & it' & HPop & Hit' & Hrem & Hlen' & Hv & Hst).
  { by eapply same_items_trans. }
  { by rewrite Hlen2, Hlen1, Hlen. }
  { rewrite Hfr2 by lia. by rewrite Hlast1. }
  assert (it' = it) as -> by congruence.
  exists h', it. do 3 (split; [done|]). split; [lia|].
  intros HC Hh.
  assert (Hlt1 : lt_of h1 = lt_of h) by by apply same_items_lt_of.
  assert (HC1 : CompareOK (compare h1)).
  { destruct Hsame1 as (-> & _). done. }
  destruct (down_run_heap zero (lt_of h1) (less_asym _ _ HC1)
              (less_negtrans _ _ HC1) _ _ _ _ _ Hrun Hok1 eq_refl ltac:(lia))
    as [_ Hheap].
  { rewrite Hlt1. by apply Hhole1. }
  apply (heap_ok_take h h' (vals h2) n); try done.
  - rewrite <- Hlt1. apply Hheap. right.
    intros a b Ha Hb. change (parent 0) with 0%nat in Hb.
    assert (a = b) as -> by congruence.
    apply (lt_irrefl _ (less_asym _ _ HC1)).
  - by eapply removed_lt_of.
Qed.

End Ops.
End heap_ops.

(** ** Priority queue: the public operations *)

Module pq_facts.
Import priorityqueue heap_order heap_methods heap_loops heap_runs heap_ops.
Section Facts.

Context {T : Type}.
Variable zero : T.

Abbreviation priorityHeap := (priorityHeap T).
Abbreviation PriorityQueue := (PriorityQueue T).
Abbreviation vals := (vals zero).
Abbreviation heap_ok := (heap_ok zero).
Abbreviation pq_inv := (pq_inv zero).

(** *** Construction and [Clear] *)

Lemma heap_Init_nil (h : priorityHeap) :
  items h = [] -> heap_Init h = Some h.
Proof. destruct h as [s l c m]. simpl. intros ->. reflexivity. Qed.

Lemma NewMinQueue_eq (c : CompareFunc T) :
  NewMinQueue c
  = Some {| store := []; items := []; compare := c; isMaxHeap := false |}.
Proof. reflexivity. Qed.

Lemma NewMaxQueue_eq (c : CompareFunc T) :
  NewMaxQueue c
  = Some {| store := []; items := []; compare := c; isMaxHeap := true |}.
Proof. reflexivity. Qed.

Lemma Clear_eq (q : PriorityQueue) :
  Clear q = Some (with_items q (store q) []).
Proof. unfold Clear. rewrite take_0. by apply heap_Init_nil. Qed.

Lemma pq_inv_nil (q : PriorityQueue) : items q = [] -> pq_inv q.
Proof.
  intros Hq. split; [|split].
  - intros i p. by rewrite Hq, lookup_nil.
  - unfold priorityqueue.heap_ok. rewrite Hq. intros k Hk. simpl in Hk. lia.
  - unfold fits, priorityHeap_Len. rewrite Hq. simpl. lia.
Qed.

(** *** [Push] *)

Lemma Push_unfold (v : T) (q : PriorityQueue) :
  idx_ok q ->
  let h1 := with_items q
              (<[length (store q) :=
                   {| Value := v; Index := priorityHeap_Len q |}]>
                 (store q ++ [NewItem v]))
              (items q ++ [length (store q)]) in
  Push v q = heap_up h1 (sub64 (priorityHeap_Len h1) 1) /\
  idx_ok h1 /\ vals h1 = vals q ++ [v].
Proof.
  intros Hok h1.
  assert (Hold : forall i p, items q !! i = Some p ->
                             (p < length (store q))%nat).
  { intros i p Hp. destruct (Hok i p Hp) as (it & Hit & _).
    by eapply lookup_lt_Some. }
  split; [|split].
  - unfold Push, heap_Push, priorityHeap_Push, set_Index. simpl.
    rewrite lookup_app_r by lia. rewrite Nat.sub_diag. simpl. done.
  - intros i p. unfold h1. simpl. intros Hp.
    destruct (decide (i < length (items q))%nat) as [Hi|Hi].
    + rewrite lookup_app_l in Hp by done.
      pose proof (Hold i p Hp).
      rewrite list_lookup_insert_ne by lia.
      rewrite lookup_app_l by done. by apply Hok.
    + assert (i = length (items q)) as ->.
      { apply lookup_lt_Some in Hp. rewrite length_app in Hp. simpl in Hp. lia. }
      rewrite lookup_app_r, Nat.sub_diag in Hp by lia. injection Hp as <-.
      eexists. rewrite list_lookup_insert_eq
        by (rewrite length_app; simpl; lia).
      done.
  - unfold priorityqueue.vals, h1. simpl. rewrite fmap_app. simpl.
    rewrite list_lookup_insert_eq by (rewrite length_app; simpl; lia).
    simpl. f_equal. apply list_fmap_ext. intros i p Hp.
    pose proof (Hold i p Hp).
    rewrite list_lookup_insert_ne by lia. by rewrite lookup_app_l.
Qed.

(** [Push] keeps the indices consistent, whatever the size of the queue. *)
Lemma Push_idx_ok (v : T) (q q' : PriorityQueue) :
  idx_ok q -> Push v q = Some q' ->
  idx_ok q' /\ length (items q') = S (length (items q)).
Proof.
  intros Hok. destruct (Push_unfold v q Hok) as (-> & Hok1 & _).
  unfold heap_up. intros [? Hsame]%up_loop_same; [|done]. split; [done|].
  rewrite (same_items_length _ _ Hsame). simpl. rewrite length_app. simpl. lia.
Qed.

Lemma Push_ok (v : T) (q : PriorityQueue) :
  idx_ok q -> priorityHeap_Len q + 1 < 2 ^ 62 ->
  exists q',
    Push v q = Some q' /\ idx_ok q' /\ fits q' /\
    vals q' ≡ₚ v :: vals q /\
    length (items q') = S (length (items q)) /\
    compare q' = compare q /\ isMaxHeap q' = isMaxHeap q /\
    (CompareOK (compare q) -> heap_ok q -> heap_ok q').
Proof.
  intros Hok Hroom. destruct (Push_unfold v q Hok) as (HP & Hok1 & Hv1).
  set (h1 := with_items _ _ _) in *.
  assert (Hlen1 : length (items h1) = S (length (items q))).
  { unfold h1. simpl. rewrite length_app. simpl. lia. }
  assert (Hfit1 : fits h1).
  { unfold fits, priorityHeap_Len in *. rewrite Hlen1. lia. }
  rewrite (sub64_Len h1 Hfit1) in HP.
  unfold priorityHeap_Len in HP at 1. rewrite Hlen1 in HP.
  replace (Z.of_nat (S (length (items q))) - 1)
    with (Z.of_nat (length (items q))) in HP by lia.
  destruct (heap_up_run zero h1 (length (items q)) Hok1 Hfit1 ltac:(lia))
    as (q' & Hup & Hrun).
  destruct (up_run_frame zero _ _ _ Hrun Hok1) as (Hok' & Hsame & _).
  pose proof (same_items_length _ _ Hsame) as Hlen'.
  exists q'. split; [by rewrite HP|]. split; [done|]. split.
  { unfold fits, priorityHeap_Len in *. by rewrite Hlen'. }
  split.
  { rewrite (same_items_vals zero _ _ Hsame), Hv1.
    by rewrite Permutation_app_comm. }
  split; [lia|].
  destruct Hsame as (Hc & Hm & _). split; [done|]. split; [done|].
  intros HC Hh. unfold priorityqueue.heap_ok.
  assert (Hlt : lt_of q' = lt_of q).
  { unfold lt_of. by rewrite Hc, Hm. }
  rewrite Hlt, Hlen', Hlen1.
  eapply (up_run_heap zero (lt_of q) (less_asym _ _ HC) (less_negtrans _ _ HC));
    try done; try lia.
  - split.
    + intros k Hk Hkl Hpk a b. rewrite Hv1.
      pose proof (parent_spec k).
      rewrite !lookup_app_l by (rewrite length_vals; lia).
      apply (Hh k). lia.
    + intros Hi k Hk Hpk. pose proof (parent_spec k). exfalso. lia.
  - intros k Hk Hkl Hpk. pose proof (parent_spec k). exfalso. lia.
Qed.

(** *** [Pop] and [Peek] *)

Lemma IsEmpty_nil (q : PriorityQueue) : IsEmpty q = true <-> items q = [].
Proof.
  unfold IsEmpty, priorityHeap_Len. rewrite Z.eqb_eq.
  destruct (items q); simpl; split; (done || lia).
Qed.

Lemma pq_Pop_nil (q : PriorityQueue) :
  items q = [] ->
  Pop zero q = Some (zero, Errorf "priority queue is empty", q).
Proof. intros H%IsEmpty_nil. unfold Pop. by rewrite H. Qed.

Lemma pq_Peek_nil (q : PriorityQueue) :
  items q = [] ->
  Peek zero q = Some (zero, Errorf "priority queue is empty").
Proof. intros H%IsEmpty_nil. unfold Peek. by rewrite H. Qed.

Lemma IsEmpty_false (q : PriorityQueue) p :
  items q !! 0%nat = Some p -> IsEmpty q = false.
Proof.
  intros Hp. destruct (IsEmpty q) eqn:E; [|done].
  apply IsEmpty_nil in E. by rewrite E in Hp.
Qed.

Lemma Pop_ok (q : PriorityQueue) (p : nat) :
  idx_ok q -> fits q -> items q !! 0%nat = Some p ->
  exists q' it,
    Pop zero q = Some (Value it, err_nil, q') /\
    store q !! p = Some it /\
    removed zero q p (Value it) q' /\
    S (length (items q')) = length (items q) /\
    (CompareOK (compare q) -> heap_ok q -> heap_ok q').
Proof.
  intros Hok Hfit Hp.
  destruct (heap_Pop_spec zero q p Hok Hfit Hp)
    as (q' & it & HPop & Hit & Hrem & Hlen & Hheap).
  exists q', it. unfold Pop. rewrite (IsEmpty_false q p Hp), HPop. simpl.
  pose proof Hrem as (_ & _ & _ & _ & (it' & Hit' & Hv' & _) & _).
  rewrite Hit'. simpl. rewrite Hv'. done.
Qed.

Lemma Peek_ok (q : PriorityQueue) (p : nat) :
  idx_ok q -> items q !! 0%nat = Some p ->
  exists it, Peek zero q = Some (Value it, err_nil) /\ store q !! p = Some it.
Proof.
  intros Hok Hp. destruct (Hok _ _ Hp) as (it & Hit & _).
  exists it. unfold Peek. rewrite (IsEmpty_false q p Hp).
  change 0 with (Z.of_nat 0). rewrite index_nat, Hp. simpl. by rewrite Hit.
Qed.

(** A failed [Pop] returns the zero value and the queue it was given. *)
Lemma Pop_error (q q' : PriorityQueue) v e :
  Pop zero q = Some (v, e, q') -> is_error e = true -> v = zero /\ q' = q.
Proof.
  unfold Pop. destruct (IsEmpty q).
  - by intros [= <- <- <-].
  - destruct (heap_Pop q) as [[item q1]|]; [|done]. simpl.
    destruct (store q1 !! item); [|done]. simpl. by intros [= <- <- <-].
Qed.

Lemma Peek_error (q : PriorityQueue) v e :
  Peek zero q = Some (v, e) -> is_error e = true -> v = zero.
Proof.
  unfold Peek. destruct (IsEmpty q).
  - by intros [= <- <-].
  - destruct (index (items q) 0) as [p|]; [|done]. simpl.
    destruct (store q !! p); [|done]. simpl. by intros [= <- <-].
Qed.

(** *** [UpdateItem] and [Remove] *)

Lemma set_Value_spec (q q1 : PriorityQueue) (i : nat) (p : nat) (v : T) :
  idx_ok q -> items q !! i = Some p -> set_Value p v q = Some q1 ->
  idx_ok q1 /\ items q1 = items q /\
  compare q1 = compare q /\ isMaxHeap q1 = isMaxHeap q /\
  vals q1 = <[i:=v]> (vals q) /\
  exists it, store q1 !! p = Some it /\ Index it = Z.of_nat i /\ Value it = v.
Proof.
  intros Hok Hp. unfold set_Value.
  destruct (Hok _ _ Hp) as (it & Hit & Hidx). rewrite Hit. simpl.
  intros [= <-]. simpl.
  split; [|split; [done|split; [done|split; [done|split]]]].
  - intros k r Hr. simpl in *.
    destruct (decide (r = p)) as [->|Hne].
    + eexists. rewrite list_lookup_insert_eq by (by eapply lookup_lt_Some).
      split; [done|]. simpl. rewrite Hidx.
      by rewrite (idx_ok_inj q _ _ _ Hok Hr Hp).
    + rewrite list_lookup_insert_ne by done. by apply Hok.
  - unfold priorityqueue.vals. simpl. apply list_eq. intros k.
    destruct (decide (k = i)) as [->|Hki].
    + rewrite list_lookup_insert_eq
        by (rewrite length_fmap; by eapply lookup_lt_Some).
      rewrite list_lookup_fmap, Hp. simpl.
      by rewrite list_lookup_insert_eq by (by eapply lookup_lt_Some).
    + rewrite list_lookup_insert_ne by done. rewrite !list_lookup_fmap.
      destruct (items q !! k) as [r|] eqn:Hr; [|done]. simpl.
      rewrite list_lookup_insert_ne; [done|].
      intros <-. apply Hki. by eapply idx_ok_inj.
  - eexists. rewrite list_lookup_insert_eq by (by eapply lookup_lt_Some).
    done.
Qed.

Lemma UpdateItem_ok (q : PriorityQueue) (i : nat) (p : nat) :
  idx_ok q -> fits q -> items q !! i = Some p ->
  exists q', UpdateItem p q = Some q' /\
             heap_Fix q (Z.of_nat i) = Some q' /\
             idx_ok q' /\ same_items q q' /\
             (CompareOK (compare q) ->
              hole (lt_of q) (vals q) (length (items q)) i -> heap_ok q').
Proof.
  intros Hok Hfit Hp. destruct (Hok _ _ Hp) as (it & Hit & Hidx).
  destruct (heap_Fix_spec zero q i Hok Hfit) as (q' & HFix & Hrest).
  { by eapply lookup_lt_Some. }
  exists q'. unfold UpdateItem. rewrite Hit. simpl. by rewrite Hidx.
Qed.

Lemma Remove_ok (q : PriorityQueue) (i : nat) (p : nat) :
  idx_ok q -> fits q -> items q !! i = Some p ->
  exists q' it,
    Remove p q = Some q' /\
    store q !! p = Some it /\
    removed zero q p (Value it) q' /\
    S (length (items q')) = length (items q) /\
    (CompareOK (compare q) -> heap_ok q -> heap_ok q') /\
    (S i = length (items q) ->
     items q' = take i (items q) /\
     forall r, r <> p -> store q' !! r = store q !! r).
Proof.
  intros Hok Hfit Hp. destruct (Hok _ _ Hp) as (it & Hit & Hidx).
  destruct (heap_Remove_spec zero q i p Hok Hfit Hp)
    as (q' & it' & HRem & Hit' & Hrest).
  assert (it' = it) as -> by congruence.
  exists q', it. split; [|done].
  unfold Remove. rewrite Hit. simpl. by rewrite Hidx, HRem.
Qed.

(** *** Index consistency, whatever the size of the queue *)

Lemma priorityHeap_Pop_same (h h' : priorityHeap) (p : nat) :
  idx_ok h -> priorityHeap_Pop h = Some (p, h') ->
  idx_ok h' /\ p ∈ items h /\ (p ∉ items h') /\
  exists it0 it, store h !! p = Some it0 /\ store h' !! p = Some it /\
                 Value it = Value it0 /\ Index it = -1.
Proof.
  intros Hok. unfold priorityHeap_Pop.
  destruct (index (items h) _) as [item|] eqn:Hi; [|done]. simpl.
  apply index_Some in Hi as [_ Hi].
  set (m := Z.to_nat _) in *.
  destruct (Hok _ _ Hi) as (it0 & Hit0 & _).
  rewrite (set_Index_spec _ _ _ _ Hit0). simpl. intros [= <- <-]. simpl.
  assert (Hother : forall k r, (k < m)%nat -> items h !! k = Some r -> r <> item).
  { intros k r Hk Hr ->. pose proof (idx_ok_inj h _ _ _ Hok Hr Hi). lia. }
  split; [|split; [by eapply list_elem_of_lookup_2|split]].
  - intros k r. simpl. intros Hr.
    assert (k < m)%nat as Hk.
    { apply lookup_lt_Some in Hr. rewrite length_take in Hr. lia. }
    rewrite lookup_take_lt in Hr by done.
    rewrite list_lookup_insert_ne by (symmetry; by eapply Hother).
    by apply Hok.
  - intros [k Hk]%list_elem_of_lookup.
    assert (k < m)%nat as Hkm.
    { apply lookup_lt_Some in Hk. rewrite length_take in Hk. lia. }
    rewrite lookup_take_lt in Hk by done. by eapply Hother.
  - eexists it0, _. split; [done|].
    rewrite list_lookup_insert_eq by (by eapply lookup_lt_Some). done.
Qed.

Lemma heap_down_same (h h' : priorityHeap) (i n : Z) (moved : bool) :
  idx_ok h -> heap_down h i n = Some (h', moved) ->
  idx_ok h' /\ same_items h h'.
Proof.
  intros Hok. unfold heap_down.
  destruct (down_loop _ h i n) as [[h1 i1]|] eqn:Hd; [|done]. simpl.
  intros [= <- _]. by eapply down_loop_same.
Qed.

Lemma heap_Fix_same (h h' : priorityHeap) (i : Z) :
  idx_ok h -> heap_Fix h i = Some h' -> idx_ok h' /\ same_items h h'.
Proof.
  intros Hok. unfold heap_Fix.
  destruct (heap_down h i _) as [[h1 moved]|] eqn:Hd; [|done]. simpl.
  destruct (heap_down_same _ _ _ _ _ Hok Hd) as [Hok1 Hs1].
  destruct moved; simpl.
  - by intros [= <-].
  - unfold heap_up. intros [Hok' Hs']%up_loop_same; [|done].
    split; [done|]. by eapply same_items_trans.
Qed.

Lemma same_items_elem (h h' : priorityHeap) (p : nat) :
  same_items h h' -> p ∈ items h' <-> p ∈ items h.
Proof. intros (_ & _ & _ & _ & _ & Hp). by rewrite Hp. Qed.

Lemma same_items_Value (h h' : priorityHeap) (p : nat) it :
  same_items h h' -> store h' !! p = Some it ->
  exists it0, store h !! p = Some it0 /\ Value it0 = Value it.
Proof.
  intros (_ & _ & _ & Hv & _ & _) Hit. specialize (Hv p).
  rewrite Hit in Hv. destruct (store h !! p) as [it0|]; [|done].
  exists it0. split; [done|]. simpl in Hv. congruence.
Qed.

Lemma heap_Pop_same (h h' : priorityHeap) (p : nat) :
  idx_ok h -> heap_Pop h = Some (p, h') ->
  idx_ok h' /\ p ∈ items h /\ (p ∉ items h') /\
  exists it0 it, store h !! p = Some it0 /\ store h' !! p = Some it /\
                 Value it = Value it0 /\ Index it = -1.
Proof.
  intros Hok. unfold heap_Pop.
  destruct (priorityHeap_Swap h 0 _) as [h1|] eqn:Hs; [|done]. simpl.
  destruct (Swap_inv _ _ _ _ Hok Hs) as (? & ? & _ & _ & _ & _ & _ & Hok1 & Hs1).
  destruct (heap_down h1 0 _) as [[h2 moved]|] eqn:Hd; [|done]. simpl.
  destruct (heap_down_same _ _ _ _ _ Hok1 Hd) as [Hok2 Hs2].
  intros HP.
  destruct (priorityHeap_Pop_same _ _ _ Hok2 HP)
    as (Hok' & Hin & Hnin & it2 & it & Hit2 & Hit & Hv & Hidx).
  pose proof (same_items_trans _ _ _ Hs1 Hs2) as Hs12.
  split; [done|]. split; [by apply (same_items_elem _ _ _ Hs12)|].
  split; [done|].
  destruct (same_items_Value _ _ _ _ Hs12 Hit2) as (it0 & Hit0 & Hv0).
  exists it0, it. repeat split; try done. congruence.
Qed.

Lemma Pop_same (q q' : PriorityQueue) v e :
  idx_ok q -> Pop zero q = Some (v, e, q') ->
  idx_ok q' /\
  (e = err_nil ->
   exists p it, p ∈ items q /\ (p ∉ items q') /\
                store q' !! p = Some it /\ Value it = v /\ Index it = -1).
Proof.
  intros Hok. unfold Pop. destruct (IsEmpty q).
  { intros [= <- <- <-]. split; done. }
  destruct (heap_Pop q) as [[p q1]|] eqn:HP; [|done]. simpl.
  destruct (heap_Pop_same _ _ _ Hok HP)
    as (Hok' & Hin & Hnin & it0 & it & Hit0 & Hit & Hv & Hidx).
  rewrite Hit. simpl. intros [= <- <- <-]. split; [done|]. intros _.
  exists p, it. done.
Qed.

Lemma UpdateItem_same (q q' : PriorityQueue) (p : nat) :
  idx_ok q -> UpdateItem p q = Some q' -> idx_ok q' /\ same_items q q'.
Proof.
  intros Hok. unfold UpdateItem. destruct (store q !! p); [|done]. simpl.
  by apply heap_Fix_same.
Qed.

Lemma Remove_same (q q' : PriorityQueue) (p : nat) :
  idx_ok q -> Remove p q = Some q' -> idx_ok q'.
Proof.
  intros Hok. unfold Remove, heap_Remove.
  destruct (store q !! p) as [it|]; [|done]. simpl.
  destruct (negb _).
  - destruct (priorityHeap_Swap q _ _) as [h1|] eqn:Hs; [|done]. simpl.
    destruct (Swap_inv _ _ _ _ Hok Hs)
      as (? & ? & _ & _ & _ & _ & _ & Hok1 & Hs1).
    destruct (heap_down h1 _ _) as [[h2 moved]|] eqn:Hd; [|done]. simpl.
    destruct (heap_down_same _ _ _ _ _ Hok1 Hd) as [Hok2 Hs2].
    destruct moved; simpl.
    + destruct (priorityHeap_Pop h2) as [[r h3]|] eqn:HP; [|done]. simpl.
      intros [= <-]. by destruct (priorityHeap_Pop_same _ _ _ Hok2 HP).
    + destruct (heap_up h2 _) as [h3|] eqn:Hu; [|done]. simpl.
      unfold heap_up in Hu. apply up_loop_same in Hu as [Hok3 _]; [|done].
      destruct (priorityHeap_Pop h3) as [[r h4]|] eqn:HP; [|done]. simpl.
      intros [= <-]. by destruct (priorityHeap_Pop_same _ _ _ Hok3 HP).
  - simpl. destruct (priorityHeap_Pop q) as [[r h3]|] eqn:HP; [|done]. simpl.
    intros [= <-]. by destruct (priorityHeap_Pop_same _ _ _ Hok HP).
Qed.

End Facts.
End pq_facts.


(** ** Priority queue: ordering of pops, removal, update *)

Module pq_order.
Import priorityqueue heap_order heap_methods heap_loops heap_runs heap_ops.
Import pq_facts.
Section Order.

Context {T : Type}.
Variable zero : T.

Abbreviation priorityHeap := (priorityHeap T).
Abbreviation PriorityQueue := (PriorityQueue T).
Abbreviation vals := (vals zero).
Abbreviation heap_ok := (heap_ok zero).
Abbreviation pq_inv := (pq_inv zero).

Lemma heap_ok_hole (q : PriorityQueue) (i : nat) :
  CompareOK (compare q) -> heap_ok q ->
  hole (lt_of q) (vals q) (length (items q)) i.
Proof.
  intros HC Hh. by apply (heap_upto_hole _ (less_negtrans _ _ HC)).
Qed.

Lemma fits_same_length (q q' : PriorityQueue) :
  fits q -> (length (items q') <= length (items q))%nat -> fits q'.
Proof. unfold fits, priorityHeap_Len. lia. Qed.

Lemma items_nil_or (q : PriorityQueue) :
  items q = [] \/ exists p, items q !! 0%nat = Some p.
Proof. destruct (items q); [by left|right; by eexists]. Qed.

(** What the public operations keep: the invariant, the comparator and the
    orientation. *)
Lemma built_inv (q0 q : PriorityQueue) :
  built zero q0 q -> CompareOK (compare q0) -> pq_inv q0 ->
  pq_inv q /\ compare q = compare q0 /\ isMaxHeap q = isMaxHeap q0.
Proof.
  intros Hb HC0 Hinv0.
  induction Hb as [|v q q' Hb IH HP Hfit'|q v e q' Hb IH HP|q q' Hb IH HC
                   |p q q' Hb IH Hin HR|p q q' Hb IH Hin HU
                   |p v q q1 q' Hb IH Hin HW HU].
  - done.
  - destruct IH as ((Hok & Hh & Hfit) & Hc & Hm).
    destruct (Push_idx_ok zero v q q' Hok HP) as [_ Hlen].
    destruct (Push_ok zero v q Hok) as (q'' & HP' & Hok' & _ & _ & _ & Hc' & Hm' & Hh').
    { unfold fits, priorityHeap_Len in *. lia. }
    assert (q'' = q') as -> by congruence.
    split; [|split; congruence].
    split; [done|]. split; [|done]. apply Hh'; [by rewrite Hc|done].
  - destruct IH as ((Hok & Hh & Hfit) & Hc & Hm).
    destruct (items_nil_or q) as [Hq|[p Hq]].
    + rewrite (pq_Pop_nil zero q Hq) in HP. by injection HP as <- <- <-.
    + destruct (Pop_ok zero q p Hok Hfit Hq)
        as (q'' & it & HP' & _ & Hrem & Hlen & Hh').
      assert (q'' = q') as -> by congruence.
      destruct Hrem as (Hc' & Hm' & _ & _ & _ & Hok').
      split; [|split; congruence].
      split; [done|]. split; [apply Hh'; [by rewrite Hc|done]|].
      eapply fits_same_length; [done|lia].
  - destruct IH as (_ & Hc & Hm).
    rewrite Clear_eq in HC. injection HC as <-.
    split; [by apply pq_inv_nil|done].
  - destruct IH as ((Hok & Hh & Hfit) & Hc & Hm).
    apply list_elem_of_lookup in Hin as [i Hi].
    destruct (Remove_ok zero q i p Hok Hfit Hi)
      as (q'' & it & HR' & _ & Hrem & Hlen & Hh' & _).
    assert (q'' = q') as -> by congruence.
    destruct Hrem as (Hc' & Hm' & _ & _ & _ & Hok').
    split; [|split; congruence].
    split; [done|]. split; [apply Hh'; [by rewrite Hc|done]|].
    eapply fits_same_length; [done|lia].
  - destruct IH as ((Hok & Hh & Hfit) & Hc & Hm).
    apply list_elem_of_lookup in Hin as [i Hi].
    destruct (UpdateItem_ok zero q i p Hok Hfit Hi)
      as (q'' & HU' & _ & Hok' & Hsame & Hh').
    assert (q'' = q') as -> by congruence.
    pose proof (same_items_length _ _ Hsame).
    destruct Hsame as (Hc' & Hm' & _).
    split; [|split; congruence].
    split; [done|]. split.
    + apply Hh'; [by rewrite Hc|]. apply heap_ok_hole; [by rewrite Hc|done].
    + eapply fits_same_length; [done|lia].
  - destruct IH as ((Hok & Hh & Hfit) & Hc & Hm).
    apply list_elem_of_lookup in Hin as [i Hi].
    destruct (set_Value_spec zero q q1 i p v Hok Hi HW)
      as (Hok1 & Hit1 & Hc1 & Hm1 & Hv1 & _).
    assert (Hfit1 : fits q1).
    { eapply fits_same_length; [done|]. by rewrite Hit1. }
    rewrite <- Hit1 in Hi.
    destruct (UpdateItem_ok zero q1 i p Hok1 Hfit1 Hi)
      as (q'' & HU' & _ & Hok' & Hsame & Hh').
    assert (q'' = q') as -> by congruence.
    pose proof (same_items_length _ _ Hsame).
    destruct Hsame as (Hc' & Hm' & _).
    split; [|split; congruence].
    split; [done|]. split.
    + apply Hh'; [by rewrite Hc1, Hc|].
      assert (Hlt : lt_of q1 = lt_of q).
      { unfold lt_of. by rewrite Hc1, Hm1. }
      rewrite Hlt, Hit1, Hv1.
      eapply hole_change; [apply heap_ok_hole; [by rewrite Hc|done]|].
      intros k Hk Hki. by rewrite list_lookup_insert_ne.
    + eapply fits_same_length; [done|]. rewrite Hit1 in *. lia.
Qed.

(** Two successful pops in a row: the second value does not come before
    the first in the effective ordering. *)
Lemma Pop_Pop (q q1 q2 : PriorityQueue) (a b : T) :
  pq_inv q -> CompareOK (compare q) ->
  Pop zero q = Some (a, err_nil, q1) ->
  Pop zero q1 = Some (b, err_nil, q2) ->
  lt_of q b a = false.
Proof.
  intros (Hok & Hh & Hfit) HC HP1 HP2.
  destruct (items_nil_or q) as [Hq|[p Hq]].
  { by rewrite (pq_Pop_nil zero q Hq) in HP1. }
  destruct (Pop_ok zero q p Hok Hfit Hq)
    as (q1' & it & HP1' & Hit & Hrem & Hlen & Hh1).
  assert (q1' = q1) as -> by congruence.
  assert (Value it = a) as Ha by congruence.
  destruct Hrem as (Hc1 & Hm1 & _ & Hperm & _ & Hok1).
  specialize (Hh1 HC Hh).
  assert (Hfit1 : fits q1) by (eapply fits_same_length; [done|lia]).
  destruct (items_nil_or q1) as [Hq1|[p1 Hq1]].
  { by rewrite (pq_Pop_nil zero q1 Hq1) in HP2. }
  destruct (Pop_ok zero q1 p1 Hok1 Hfit1 Hq1) as (q2' & it1 & HP2' & Hit1 & _).
  assert (Value it1 = b) as Hb by congruence.
  assert (Hroot : vals q !! 0%nat = Some a).
  { rewrite <- Ha. by eapply vals_lookup. }
  assert (Hb1 : vals q1 !! 0%nat = Some b).
  { rewrite <- Hb. by eapply vals_lookup. }
  assert (b ∈ vals q) as [k Hk]%list_elem_of_lookup.
  { rewrite Hperm. apply elem_of_cons. right.
    by eapply list_elem_of_lookup_2. }
  apply (root_least _ (less_asym _ _ HC) (less_negtrans _ _ HC)
           (vals q) (length (items q)) k b a Hh); [| |done|done].
  - rewrite <- (length_vals zero q). by eapply lookup_lt_Some.
  - by rewrite length_vals.
Qed.

(** C1: heap ordering.  In a queue built with [NewMinQueue(compare)] by the
    public operations, two pops in a row that both succeed return [a] and
    then [b] with [compare(a, b) <= 0]; in a queue built with
    [NewMaxQueue(compare)], with [compare(a, b) >= 0].  The comparator obeys
    its contract. *)
Theorem pop_order (c : CompareFunc T) (q0 q q1 q2 : PriorityQueue) (a b : T) :
  CompareOK c ->
  built zero q0 q ->
  Pop zero q = Some (a, err_nil, q1) ->
  Pop zero q1 = Some (b, err_nil, q2) ->
  (NewMinQueue c = Some q0 -> c a b <= 0) /\
  (NewMaxQueue c = Some q0 -> c a b >= 0).
Proof.
  intros HC Hb HP1 HP2.
  assert (Hgen : compare q0 = c -> items q0 = [] ->
                 lt_of q0 b a = false).
  { intros Hc0 Hnil.
    destruct (built_inv q0 q Hb) as (Hinv & Hc & Hm).
    { by rewrite Hc0. }
    { by apply pq_inv_nil. }
    assert (Hlt : lt_of q = lt_of q0).
    { unfold lt_of. by rewrite Hc, Hm. }
    rewrite <- Hlt. eapply Pop_Pop; try done. by rewrite Hc, Hc0. }
  destruct HC as [Hanti _].
  pose proof (Hanti a b). pose proof (Hanti b a).
  split; intros [= <-]; specialize (Hgen eq_refl eq_refl);
    unfold lt_of, less in Hgen; simpl in Hgen; lia.
Qed.

(** C5: after a caller has written into an item a value that compares
    strictly before every other stored value, [UpdateItem] on that item
    makes the next [Pop] of a min-oriented queue return that value, wherever
    the item was in the array. *)
Theorem UpdateItem_least_then_Pop (q q1 : PriorityQueue) (i : nat) (p : nat)
    (v : T) :
  idx_ok q -> fits q -> CompareOK (compare q) -> isMaxHeap q = false ->
  items q !! i = Some p ->
  set_Value p v q = Some q1 ->
  (forall k a, k <> i -> vals q !! k = Some a -> compare q v a < 0) ->
  exists q2 q3,
    UpdateItem p q1 = Some q2 /\ Pop zero q2 = Some (v, err_nil, q3).
Proof.
  intros Hok Hfit HC Hmin Hi HW Hv.
  destruct (set_Value_spec zero q q1 i p v Hok Hi HW)
    as (Hok1 & Hit1 & Hc1 & Hm1 & Hv1 & _).
  assert (Hfit1 : fits q1).
  { eapply fits_same_length; [done|]. by rewrite Hit1. }
  assert (Hi1 : items q1 !! i = Some p) by by rewrite Hit1.
  assert (Hlt : lt_of q1 = lt_of q).
  { unfold lt_of. by rewrite Hc1, Hm1. }
  assert (HC1 : CompareOK (compare q1)) by by rewrite Hc1.
  assert (Hil : (i < length (items q1))%nat) by by eapply lookup_lt_Some.
  assert (Hbefore : before_all (lt_of q1) (vals q1) i v).
  { split.
    - rewrite Hv1. apply list_lookup_insert_eq.
      rewrite length_vals, <- Hit1. done.
    - intros k a Hk. rewrite Hv1, list_lookup_insert_ne by done. intros Ha.
      rewrite Hlt. unfold lt_of, less. rewrite Hmin.
      apply Z.ltb_lt. by eapply Hv. }
  destruct (UpdateItem_ok zero q1 i p Hok1 Hfit1 Hi1)
    as (q2 & HU & HFix & Hok2 & Hsame2 & _).
  assert (Hroot : vals q2 !! 0%nat = Some v).
  { unfold heap_Fix in HFix.
    destruct (heap_down_run zero q1 i (length (items q1)) Hok1 Hfit1 Hil
                ltac:(lia)) as (h' & i' & Hdown & Hrun).
    destruct (down_run_least zero (lt_of q1) (less_asym _ _ HC1)
                _ _ _ _ _ Hrun Hok1 eq_refl v Hbefore) as [-> ->].
    fold (priorityHeap_Len q1) in Hdown. unfold priorityHeap_Len in HFix.
    unfold priorityHeap_Len in Hdown. rewrite Hdown in HFix. simpl in HFix.
    rewrite Z.gtb_ltb, Z.ltb_irrefl in HFix. simpl in HFix.
    destruct (heap_up_run zero q1 i Hok1 Hfit1 Hil) as (h3 & Hup & Hrun3).
    assert (h3 = q2) as -> by congruence.
    by eapply (up_run_least zero (lt_of q1)). }
  destruct (vals_lookup_inv zero q2 _ _ Hok2 Hroot) as (p0 & it & Hp0 & Hit & Hval & _).
  assert (Hfit2 : fits q2).
  { eapply fits_same_length; [done|]. by rewrite (same_items_length _ _ Hsame2). }
  destruct (Pop_ok zero q2 p0 Hok2 Hfit2 Hp0) as (q3 & it' & HPop & Hit' & _).
  assert (it' = it) as -> by congruence.
  exists q2, q3. split; [done|]. by rewrite <- Hval.
Qed.

(** C7: [Remove] on the handle of an item of the queue takes exactly that
    item out (pointers and values are those of before, minus the item and
    its value), makes [Size] one less, and leaves a queue that satisfies
    the invariant; on the item at the last position it only shortens the
    slice: the other pointers stay where they are and no other item is
    written. *)
Theorem Remove_spec (q : PriorityQueue) (i : nat) (p : nat) :
  pq_inv q -> CompareOK (compare q) -> items q !! i = Some p ->
  exists q' it,
    Remove p q = Some q' /\
    store q !! p = Some it /\
    items q ≡ₚ p :: items q' /\
    vals q ≡ₚ Value it :: vals q' /\
    Size q' = Size q - 1 /\
    pq_inv q' /\
    (S i = length (items q) ->
     items q' = take i (items q) /\
     forall r, r <> p -> store q' !! r = store q !! r).
Proof.
  intros (Hok & Hh & Hfit) HC Hi.
  destruct (Remove_ok zero q i p Hok Hfit Hi)
    as (q' & it & HR & Hit & Hrem & Hlen & Hh' & Hlast).
  exists q', it. split; [done|]. split; [done|].
  destruct Hrem as (_ & _ & Hpi & Hpv & _ & Hok').
  split; [done|]. split; [done|]. split.
  { unfold Size, priorityHeap_Len. lia. }
  split; [|done].
  split; [done|]. split; [by apply Hh'|].
  eapply fits_same_length; [done|lia].
Qed.

(** C9: position-index consistency.  A new queue has it, and every public
    operation that changes the queue ([Push], [Pop], [UpdateItem],
    [Remove], [Clear]; [Peek] returns no new queue) keeps it: the item at
    position [i] of the array records [i].  The item whose value [Pop]
    returns, and the item [Remove] takes out, are no longer in the array
    and record the index [-1]. *)
Theorem index_consistency :
  (forall (c : CompareFunc T) q,
     NewMinQueue c = Some q \/ NewMaxQueue c = Some q -> idx_ok q) /\
  forall q : PriorityQueue, idx_ok q ->
    (forall v q', Push v q = Some q' -> idx_ok q') /\
    (forall v e q', Pop zero q = Some (v, e, q') ->
       idx_ok q' /\
       (e = err_nil ->
        exists p it, p ∈ items q /\ (p ∉ items q') /\
                     store q' !! p = Some it /\ Value it = v /\
                     Index it = -1)) /\
    (forall p q', UpdateItem p q = Some q' -> idx_ok q') /\
    (forall p q', Remove p q = Some q' ->
       idx_ok q' /\
       (fits q -> p ∈ items q ->
        (p ∉ items q') /\
        exists it, store q' !! p = Some it /\ Index it = -1)) /\
    (forall q', Clear q = Some q' -> idx_ok q').
Proof.
  split.
  { intros c q [[= <-]|[= <-]]; intros i p; simpl; by rewrite lookup_nil. }
  intros q Hok. split; [|split; [|split; [|split]]].
  - intros v q' HP. by destruct (Push_idx_ok zero v q q' Hok HP).
  - intros v e q' HP. by apply (Pop_same zero q q' v e).
  - intros p q' HU. by destruct (UpdateItem_same q q' p Hok HU).
  - intros p q' HR. split; [by eapply Remove_same|].
    intros Hfit [i Hi]%list_elem_of_lookup.
    destruct (Remove_ok zero q i p Hok Hfit Hi)
      as (q'' & it & HR' & Hit & Hrem & _).
    assert (q'' = q') as -> by congruence.
    destruct Hrem as (_ & _ & Hperm & _ & (it' & Hit' & _ & Hidx) & Hok').
    split; [|by exists it'].
    intros Hin. pose proof (idx_ok_NoDup q Hok) as Hnd.
    rewrite Hperm in Hnd. by apply NoDup_cons in Hnd as [? _].
  - intros q'. rewrite Clear_eq. intros [= <-].
    intros i p. simpl. by rewrite lookup_nil.
Qed.

End Order.

Lemma IntCompare_OK : CompareOK IntCompare.
Proof.
  split; unfold IntCompare; intros;
    repeat match goal with
           | |- context [?x <? ?y] => destruct (Z.ltb_spec x y)
           | |- context [?x >? ?y] => destruct (Z.gtb_spec x y)
           | H : context [?x <? ?y] |- _ => destruct (Z.ltb_spec x y)
           | H : context [?x >? ?y] |- _ => destruct (Z.gtb_spec x y)
           end; lia.
Qed.

Lemma pop_order_witness : IntCompare 10 20 <= 0.
Proof.
  pose (q0 := {| store := []; items := []; compare := IntCompare;
                 isMaxHeap := false |} : PriorityQueue Z).
  assert (exists q, built 0 q0 q /\
            exists q1 q2, Pop 0 q = Some (10, err_nil, q1) /\
                          Pop 0 q1 = Some (20, err_nil, q2))
    as (q & Hb & q1 & q2 & HP1 & HP2).
  { eexists. split.
    - eapply (built_Push 0 q0 20);
        [eapply (built_Push 0 q0 10);
           [eapply (built_Push 0 q0 30);
              [apply built_new|vm_compute; reflexivity|vm_compute; reflexivity]
           |vm_compute; reflexivity|vm_compute; reflexivity]
        |vm_compute; reflexivity|vm_compute; reflexivity].
    - eexists _, _. split; [vm_compute; reflexivity|vm_compute; reflexivity]. }
  exact (proj1 (pop_order 0 IntCompare q0 q q1 q2 10 20
                  IntCompare_OK Hb HP1 HP2) eq_refl).
Defined.

(** Index consistency of a queue written out in full. *)
Ltac idx_ok_by_cases :=
  let i := fresh "i" in let p := fresh "p" in let H := fresh "H" in
  intros i p H;
  repeat (destruct i as [|i];
          [vm_compute in H; injection H as <-; eexists; split; reflexivity|]);
  vm_compute in H; discriminate H.

Lemma UpdateItem_least_then_Pop_witness :
  exists q2 q3 : PriorityQueue Z,
    UpdateItem 1%nat two_items_written = Some q2 /\
    Pop 0 q2 = Some (5, err_nil, q3).
Proof.
  apply (UpdateItem_least_then_Pop 0 two_items two_items_written
           1%nat 1%nat 5).
  - idx_ok_by_cases.
  - vm_compute. reflexivity.
  - apply IntCompare_OK.
  - reflexivity.
  - reflexivity.
  - reflexivity.
  - intros k a Hk Ha. destruct k as [|[|k]].
    + vm_compute in Ha. injection Ha as <-. reflexivity.
    + done.
    + vm_compute in Ha. discriminate Ha.
Defined.

(** [Remove] on the root of [seven_items], a position that is not the last
    one: the last item is swapped in and sifts down one level, and the
    values left are 2, 4, 3, 10, 11, 12 in array order. *)
Lemma Remove_spec_witness :
  (exists (q' : PriorityQueue Z) it,
     Remove 0%nat seven_items = Some q' /\
     store seven_items !! 0%nat = Some it /\
     items seven_items ≡ₚ 0%nat :: items q' /\
     vals 0 seven_items ≡ₚ Value it :: vals 0 q' /\
     Size q' = Size seven_items - 1 /\
     pq_inv 0 q' /\
     (S 0 = length (items seven_items) ->
      items q' = take 0 (items seven_items) /\
      forall r, r <> 0%nat -> store q' !! r = store seven_items !! r)) /\
  vals 0 <$> Remove 0%nat seven_items = Some [2; 4; 3; 10; 11; 12].
Proof.
  split; [|vm_compute; reflexivity].
  apply (Remove_spec 0 seven_items 0 0%nat).
  - split; [idx_ok_by_cases|split].
    + intros k Hk a b Ha Hb.
      do 7 (destruct k as [|k];
            [vm_compute in Ha, Hb; injection Ha as <-; injection Hb as <-;
             reflexivity|]).
      simpl in Hk. lia.
    + vm_compute. reflexivity.
  - apply IntCompare_OK.
  - reflexivity.
Defined.

Lemma index_consistency_witness :
  exists q' : PriorityQueue Z, Push 5 one_item = Some q' /\ idx_ok q'.
Proof.
  eexists. split; [vm_compute; reflexivity|].
  apply (proj1 (proj2 (index_consistency 0) one_item ltac:(idx_ok_by_cases))
           5).
  vm_compute. reflexivity.
Defined.

End pq_order.

(** ** Priority queue: [UpdateItem] against the fix-up of the specification *)

Module pq_fix.
Import priorityqueue heap_order heap_methods heap_loops heap_runs heap_ops.
Import pq_facts pq_order.
Section Fix.

Context {T : Type}.
Variable zero : T.

Abbreviation priorityHeap := (priorityHeap T).
Abbreviation PriorityQueue := (PriorityQueue T).
Abbreviation vals := (vals zero).
Abbreviation heap_ok := (heap_ok zero).
Abbreviation pq_inv := (pq_inv zero).

Lemma up_loop_at_fst (f : nat) (h : priorityHeap) (j : Z) :
  fst <$> up_loop_at f h j = up_loop f h j.
Proof.
  revert h j. induction f as [|f IH]; intros h j; [done|]. simpl.
  destruct (_ =? j); [done|].
  destruct (priorityHeap_Less h j _) as [[]|]; simpl; [|done|done].
  destruct (priorityHeap_Swap h _ j) as [h1|]; simpl; [|done]. apply IH.
Qed.

(** Where the loop of [up] leaves the item: at [j] when the first test
    stops the loop, above [j] when the item comes before its parent. *)
Lemma up_loop_at_spec (f : nat) (h : priorityHeap) (j : nat) :
  idx_ok h -> fits h -> (j < length (items h))%nat -> (j < f)%nat ->
  exists h' j',
    up_loop_at f h (Z.of_nat j) = Some (h', Z.of_nat j') /\
    (j' <= j)%nat /\
    (j' = j -> h' = h) /\
    (j' < j ->
     exists a b, vals h !! j = Some a /\ vals h !! parent j = Some b /\
                 lt_of h a b = true)%nat.
Proof.
  revert h j. induction f as [|f IH]; intros h j Hok Hfit Hj Hf; [lia|].
  simpl. rewrite parent_go by (eapply fits_lt; [done|lia]).
  destruct (decide (j = 0%nat)) as [->|Hj0].
  { simpl. exists h, 0%nat. split; [done|]. split; [lia|]. split; [done|lia]. }
  pose proof (parent_lt j ltac:(lia)) as Hpj.
  rewrite (proj2 (Z.eqb_neq _ _)) by lia.
  destruct (vals_is_Some zero h j Hj) as [a Ha].
  destruct (vals_is_Some zero h (parent j) ltac:(lia)) as [b Hb].
  rewrite (Less_vals zero h _ _ _ _ Hok Ha Hb). simpl.
  destruct (lt_of h a b) eqn:Hab; simpl.
  - destruct (vals_lookup_inv zero h _ _ Hok Ha) as (pj & ? & Hpj' & _).
    destruct (vals_lookup_inv zero h _ _ Hok Hb) as (pi & ? & Hpi' & _).
    destruct (Swap_spec h _ _ _ _ Hok Hpi' Hpj')
      as (h1 & Hs & Hit & Hok1 & Hsame).
    rewrite Hs. simpl.
    pose proof (same_items_length _ _ Hsame) as Hlen.
    destruct (IH h1 (parent j)) as (h' & j' & Hup & Hle & _); try done; try lia.
    { unfold fits, priorityHeap_Len in *. by rewrite Hlen. }
    exists h', j'. split; [done|]. split; [lia|]. split; [lia|].
    intros _. by exists a, b.
  - exists h, j. split; [done|]. split; [lia|]. split; [done|lia].
Qed.

(** An item that comes before its parent, in a heap with a hole at the
    item, has no child to trade places with. *)
Lemma down_run_stays (h h' : priorityHeap) (i n i' : nat) (a b : T) :
  down_run h i n h' i' -> idx_ok h -> CompareOK (compare h) ->
  hole (lt_of h) (vals h) n i -> (0 < i)%nat ->
  vals h !! i = Some a -> vals h !! parent i = Some b ->
  lt_of h a b = true ->
  h' = h /\ i' = i.
Proof.
  intros Hrun Hok HC [_ H2] Hi Ha Hb Hab.
  destruct Hrun as [h i n Hn|h i n j Hn Hp HL|h i n j h1 h' i' Hn Hp HL Hs Hrun];
    [done|done|].
  destruct (pick_range _ _ _ _ Hn Hp) as (Hjn & Hji & Hpj).
  destruct (Less_inv zero h _ _ _ Hok HL) as (c & a' & Hc & Ha' & Hca).
  assert (a' = a) as -> by congruence.
  assert (lt_of h c b = false) as Hcb.
  { apply (H2 Hi j Hjn Hpj c b Hc). by rewrite Hpj. }
  pose proof (lt_below _ (less_asym _ _ HC) (less_negtrans _ _ HC)
                a b c Hab Hcb) as Hfalse.
  unfold lt_of in *. congruence.
Qed.

(** On a heap with a hole at [i], the fix-up of the source (down, then up
    when the item did not move) and the fix-up of the specification (up,
    then down when the item did not move) end in the same heap. *)
Lemma Fix_agree (h : priorityHeap) (i : nat) :
  idx_ok h -> fits h -> (i < length (items h))%nat ->
  CompareOK (compare h) ->
  hole (lt_of h) (vals h) (length (items h)) i ->
  exists h', heap_Fix h (Z.of_nat i) = Some h' /\
             Fix_up_first h (Z.of_nat i) = Some h'.
Proof.
  intros Hok Hfit Hi HC Hhole.
  destruct (heap_down_run zero h i (length (items h)) Hok Hfit Hi ltac:(lia))
    as (h2 & i' & Hdown & Hrun).
  destruct (down_run_frame zero _ _ _ _ _ Hrun Hok)
    as (Hok2 & Hsame2 & Hle & Hstay & _).
  destruct (up_loop_at_spec (S (length (items h))) h i Hok Hfit Hi ltac:(lia))
    as (h3 & j' & Hat & Hj' & Hsame & Hup).
  pose proof (up_loop_at_fst (S (length (items h))) h (Z.of_nat i)) as Hfst.
  rewrite Hat in Hfst. simpl in Hfst. fold (heap_up h (Z.of_nat i)) in Hfst.
  unfold heap_Fix, Fix_up_first. rewrite Hat. simpl.
  fold (priorityHeap_Len h). unfold priorityHeap_Len.
  destruct (decide (j' = i)) as [->|Hne].
  - (* [up] stops at once *)
    rewrite (Hsame eq_refl) in *. rewrite Z.eqb_refl. simpl.
    rewrite Hdown. simpl. exists h2. split; [|done].
    destruct (Z.gtb_spec (Z.of_nat i') (Z.of_nat i)); simpl; [done|].
    assert (i' = i) as -> by lia. by rewrite (Hstay eq_refl) in *.
  - (* [up] moves the item: [down] has nothing to do *)
    destruct Hup as (a & b & Ha & Hb & Hab); [lia|].
    assert (0 < i)%nat as Hi0 by lia.
    destruct (down_run_stays _ _ _ _ _ a b Hrun Hok HC Hhole Hi0 Ha Hb Hab)
      as [-> ->].
    rewrite Hdown. simpl. rewrite Z.gtb_ltb, Z.ltb_irrefl. simpl.
    rewrite (proj2 (Z.eqb_neq _ _)) by lia. simpl.
    exists h3. by split; [symmetry|].
Qed.

(** C6, as amended.  [UpdateItem] sifts down first and sifts up only when
    the item did not move down.  After a single write to the value of an
    item of a queue that satisfied the invariant (the comparator obeys its
    contract), this has the same result as the fix-up of the specification,
    which sifts up first and sifts down only when no upward swap occurred,
    and the result satisfies the invariant. *)
Theorem UpdateItem_agrees (q q1 : PriorityQueue) (i : nat) (p : nat) (v : T) :
  pq_inv q -> CompareOK (compare q) ->
  items q !! i = Some p -> set_Value p v q = Some q1 ->
  exists q', UpdateItem p q1 = Some q' /\
             UpdateItem_up_first p q1 = Some q' /\
             pq_inv q'.
Proof.
  intros (Hok & Hh & Hfit) HC Hi HW.
  destruct (set_Value_spec zero q q1 i p v Hok Hi HW)
    as (Hok1 & Hit1 & Hc1 & Hm1 & Hv1 & it & Hit & Hidx & _).
  assert (Hfit1 : fits q1).
  { eapply fits_same_length; [done|]. by rewrite Hit1. }
  assert (Hi1 : items q1 !! i = Some p) by by rewrite Hit1.
  assert (Hil : (i < length (items q1))%nat) by by eapply lookup_lt_Some.
  assert (HC1 : CompareOK (compare q1)) by by rewrite Hc1.
  assert (Hhole : hole (lt_of q1) (vals q1) (length (items q1)) i).
  { assert (Hlt : lt_of q1 = lt_of q).
    { unfold lt_of. by rewrite Hc1, Hm1. }
    rewrite Hlt, Hit1, Hv1.
    eapply hole_change; [by apply heap_ok_hole|].
    intros k Hk Hki. by rewrite list_lookup_insert_ne. }
  destruct (Fix_agree q1 i Hok1 Hfit1 Hil HC1 Hhole) as (q' & HFix & HRef).
  destruct (UpdateItem_ok zero q1 i p Hok1 Hfit1 Hi1)
    as (q'' & HU & HFix' & Hok' & Hsame & Hh').
  assert (q'' = q') as -> by congruence.
  exists q'. split; [done|]. split.
  { unfold UpdateItem_up_first. rewrite Hit. simpl. by rewrite Hidx. }
  split; [done|]. split; [by apply Hh'|].
  eapply fits_same_length; [done|]. by rewrite (same_items_length _ _ Hsame).
Qed.

End Fix.

Lemma UpdateItem_agrees_witness :
  exists q' : PriorityQueue Z,
    UpdateItem 1%nat two_items_written = Some q' /\
    UpdateItem_up_first 1%nat two_items_written = Some q' /\
    pq_inv 0 q'.
Proof.
  apply (UpdateItem_agrees 0 two_items two_items_written 1%nat 1%nat 5).
  - split; [idx_ok_by_cases|split].
    + intros k Hk a b Ha Hb. destruct k as [|[|k]]; [| |simpl in Hk; lia].
      * vm_compute in Ha, Hb. injection Ha as <-. injection Hb as <-.
        reflexivity.
      * vm_compute in Ha, Hb. injection Ha as <-. injection Hb as <-.
        reflexivity.
    + vm_compute. reflexivity.
  - apply IntCompare_OK.
  - reflexivity.
  - reflexivity.
Defined.

(** C6 as stated fails: [UpdateItem] is not the up-first fix-up on every
    queue.  A caller pushes 1, 3, 9, 5, writes 5 into the first item and 1
    into the last, and calls [UpdateItem] on the item at position 1, which
    is then out of order with its parent and with its child.  The source
    sifts it down (values 5, 1, 9, 3), the fix-up of the specification
    sifts it up (values 3, 5, 9, 1). *)
Lemma UpdateItem_up_first_counterexample :
  exists q0 q1 q2 q : PriorityQueue Z,
    NewMinQueue IntCompare = Some q0 /\
    push_all [1; 3; 9; 5] q0 = Some q1 /\
    set_Value 0%nat 5 q1 = Some q2 /\
    set_Value 3%nat 1 q2 = Some q /\
    idx_ok q /\
    (vals 0 <$> UpdateItem 1%nat q) = Some [5; 1; 9; 3] /\
    (vals 0 <$> UpdateItem_up_first 1%nat q) = Some [3; 5; 9; 1] /\
    UpdateItem 1%nat q <> UpdateItem_up_first 1%nat q.
Proof.
  eexists _, _, _, _.
  split; [reflexivity|]. split; [vm_compute; reflexivity|].
  split; [vm_compute; reflexivity|]. split; [vm_compute; reflexivity|].
  split; [idx_ok_by_cases|].
  split; [vm_compute; reflexivity|]. split; [vm_compute; reflexivity|].
  intros H. apply (f_equal (fmap (vals 0))) in H. vm_compute in H.
  discriminate H.
Qed.

End pq_fix.

(** ** Priority queue: [ReverseCompare] *)

Module pq_reverse.
Import priorityqueue heap_methods heap_loops pq_facts pq_order.
Section Twin.

Context {T : Type}.
Variable zero : T.

Abbreviation priorityHeap := (priorityHeap T).
Abbreviation PriorityQueue := (PriorityQueue T).

(** Heaps that differ in nothing but the way their ordering is written
    run alike. *)

Lemma twin_with_items (h h' : priorityHeap) s l :
  twin h h' -> twin (with_items h s l) (with_items h' s l).
Proof. intros (_ & _ & Hlt). by repeat split. Qed.

Lemma twin_Len (h h' : priorityHeap) :
  twin h h' -> priorityHeap_Len h = priorityHeap_Len h'.
Proof. intros (_ & Hi & _). unfold priorityHeap_Len. by rewrite Hi. Qed.

Lemma twin_Less (h h' : priorityHeap) (i j : Z) :
  twin h h' -> priorityHeap_Less h i j = priorityHeap_Less h' i j.
Proof.
  intros (Hs & Hi & Hlt). unfold priorityHeap_Less. rewrite Hs, Hi.
  destruct (index (items h') i) as [pi|]; [|done]. simpl.
  destruct (store h' !! pi) as [a|]; [|done]. simpl.
  destruct (index (items h') j) as [pj|]; [|done]. simpl.
  destruct (store h' !! pj) as [b|]; [|done]. simpl.
  f_equal. apply Hlt.
Qed.

Lemma twin_Swap (h h' : priorityHeap) (i j : Z) :
  twin h h' ->
  option_Forall2 twin (priorityHeap_Swap h i j) (priorityHeap_Swap h' i j).
Proof.
  intros Ht. pose proof Ht as (Hs & Hi & Hlt).
  unfold priorityHeap_Swap. rewrite Hs, Hi.
  destruct (index (items h') i) as [pi|]; [|constructor]. simpl.
  destruct (index (items h') j) as [pj|]; [|constructor]. simpl.
  destruct (index _ i) as [a|]; [|constructor]. simpl.
  destruct (set_Index a i (store h')) as [s1|]; [|constructor]. simpl.
  destruct (index _ j) as [b|]; [|constructor]. simpl.
  destruct (set_Index b j s1) as [s2|]; [|constructor]. simpl.
  constructor. by apply twin_with_items.
Qed.

Lemma twin_up_loop (f : nat) (h h' : priorityHeap) (j : Z) :
  twin h h' -> option_Forall2 twin (up_loop f h j) (up_loop f h' j).
Proof.
  revert h h' j. induction f as [|f IH]; intros h h' j Ht; [constructor|].
  simpl. destruct (_ =? j); [by constructor|].
  rewrite (twin_Less h h' _ _ Ht).
  destruct (priorityHeap_Less h' j _) as [[]|]; simpl;
    [|by constructor|constructor].
  destruct (twin_Swap h h' (quot64 (sub64 j 1) 2) j Ht) as [h1 h1' Ht1|];
    simpl; [|constructor].
  by apply IH.
Qed.

Lemma twin_down_loop (f : nat) (h h' : priorityHeap) (i n : Z) :
  twin h h' ->
  option_Forall2 twin_fst (down_loop f h i n) (down_loop f h' i n).
Proof.
  revert h h' i. induction f as [|f IH]; intros h h' i Ht; [constructor|].
  rewrite !down_loop_S. destruct (_ || _); [by constructor|].
  rewrite (twin_Less h h' _ _ Ht).
  destruct (if _ <? n then _ else _) as [j|]; [|constructor].
  cbn [mbind option_bind]. rewrite (twin_Less h h' _ _ Ht).
  destruct (priorityHeap_Less h' j i) as [[]|]; cbn [mbind option_bind negb];
    [|by constructor|constructor].
  destruct (twin_Swap h h' i j Ht) as [h1 h1' Ht1|];
    cbn [mbind option_bind]; [|constructor].
  by apply IH.
Qed.

Lemma twin_length (h h' : priorityHeap) :
  twin h h' -> length (items h) = length (items h').
Proof. intros (_ & Hi & _). by rewrite Hi. Qed.

Lemma twin_heap_up (h h' : priorityHeap) (j : Z) :
  twin h h' -> option_Forall2 twin (heap_up h j) (heap_up h' j).
Proof.
  intros Ht. unfold heap_up. rewrite (twin_length _ _ Ht).
  by apply twin_up_loop.
Qed.

Lemma twin_heap_down (h h' : priorityHeap) (i n : Z) :
  twin h h' ->
  option_Forall2 twin_fst (heap_down h i n) (heap_down h' i n).
Proof.
  intros Ht. unfold heap_down. rewrite (twin_length _ _ Ht).
  destruct (twin_down_loop (S (length (items h'))) h h' i n Ht)
    as [[h1 i1] [h1' i1'] [Ht1 Hi1]|]; simpl in *; [|constructor].
  subst. by constructor.
Qed.

Lemma twin_priorityHeap_Pop (h h' : priorityHeap) :
  twin h h' ->
  option_Forall2 twin_snd (priorityHeap_Pop h) (priorityHeap_Pop h').
Proof.
  intros Ht. pose proof Ht as (Hs & Hi & Hlt).
  unfold priorityHeap_Pop. rewrite Hs, Hi.
  destruct (index (items h') _) as [p|]; [|constructor]. simpl.
  destruct (set_Index p (-1) (store h')) as [s1|]; [|constructor]. simpl.
  constructor. split; [done|]. by apply twin_with_items.
Qed.

Lemma twin_heap_Pop (h h' : priorityHeap) :
  twin h h' -> option_Forall2 twin_snd (heap_Pop h) (heap_Pop h').
Proof.
  intros Ht. unfold heap_Pop. rewrite (twin_Len _ _ Ht).
  destruct (twin_Swap h h' 0 (sub64 (priorityHeap_Len h') 1) Ht)
    as [h1 h1' Ht1|]; simpl; [|constructor].
  destruct (twin_heap_down h1 h1' 0 (sub64 (priorityHeap_Len h') 1) Ht1)
    as [[h2 m] [h2' m'] [Ht2 _]|]; simpl in *; [|constructor].
  by apply twin_priorityHeap_Pop.
Qed.

Lemma twin_Push (v : T) (q q' : PriorityQueue) :
  twin q q' -> option_Forall2 twin (Push v q) (Push v q').
Proof.
  intros Ht. pose proof Ht as (Hs & Hi & Hlt).
  unfold Push, heap_Push, priorityHeap_Push, priorityHeap_Len. simpl.
  rewrite Hs, Hi.
  destruct (set_Index _ _ _) as [s1|]; simpl; [|constructor].
  apply twin_heap_up. by do 2 apply twin_with_items.
Qed.

Lemma twin_IsEmpty (q q' : PriorityQueue) :
  twin q q' -> IsEmpty q = IsEmpty q'.
Proof. intros Ht. unfold IsEmpty. by rewrite (twin_Len _ _ Ht). Qed.

Lemma twin_Pop (q q' : PriorityQueue) :
  twin q q' -> option_Forall2 twin_snd (Pop zero q) (Pop zero q').
Proof.
  intros Ht. unfold Pop. rewrite (twin_IsEmpty _ _ Ht).
  destruct (IsEmpty q'); [by constructor|].
  destruct (twin_heap_Pop q q' Ht) as [[p q1] [p' q1'] [Hp Ht1]|];
    simpl in *; [|constructor].
  subst p'. destruct Ht1 as (Hs1 & Hi1 & Hlt1). rewrite Hs1.
  destruct (store q1' !! p) as [it|]; simpl; [|constructor].
  constructor. by split.
Qed.

Lemma twin_push_all (vs : list T) (q q' : PriorityQueue) :
  twin q q' -> option_Forall2 twin (push_all vs q) (push_all vs q').
Proof.
  unfold push_all. intros Ht.
  assert (Ho : option_Forall2 twin (Some q) (Some q')) by by constructor.
  revert Ho. generalize (Some q) (Some q'). clear Ht q q'.
  induction vs as [|v vs IH]; intros o o' Ho; simpl; [done|].
  apply IH. destruct Ho as [q q' Ht|]; simpl; [|constructor].
  by apply twin_Push.
Qed.

Lemma twin_pop_n (k : nat) (q q' : PriorityQueue) :
  twin q q' -> fst <$> pop_n zero k q = fst <$> pop_n zero k q'.
Proof.
  revert q q'. induction k as [|k IH]; intros q q' Ht; simpl; [done|].
  destruct (twin_Pop q q' Ht) as [[[v e] q1] [[v' e'] q1'] [Hve Ht1]|];
    simpl in *; [|done].
  injection Hve as <- <-. specialize (IH q1 q1' Ht1).
  destruct (pop_n zero k q1) as [[rs q2]|], (pop_n zero k q1') as [[rs' q2']|];
    simpl in *; congruence.
Qed.

(** On a sign-valued comparator, the min-ordering of the reversed
    comparator is the max-ordering of the comparator. *)
Lemma less_ReverseCompare (c : CompareFunc T) (a b : T) :
  sign_valued c -> less (ReverseCompare c) false a b = less c true a b.
Proof.
  intros Hc. unfold less, ReverseCompare.
  destruct (Hc a b) as [-> | [-> | ->]]; reflexivity.
Qed.

(** C8, as amended.  [ReverseCompare(compare)(a, b)] is [-compare(a, b)]
    whenever [compare(a, b)] is not the least [int] (there the negation
    wraps around); and for a comparator whose results are -1, 0 and +1, a
    queue built with [NewMinQueue(ReverseCompare(compare))] pops, after any
    sequence of pushes, the same values with the same errors as a queue
    built with [NewMaxQueue(compare)]. *)
Theorem ReverseCompare_spec (c : CompareFunc T) :
  (forall a b, in_range (c a b) -> c a b <> min_int ->
               ReverseCompare c a b = - c a b) /\
  (sign_valued c ->
   forall (vs : list T) (k : nat),
     (q ← NewMinQueue (ReverseCompare c); q1 ← push_all vs q;
      fst <$> pop_n zero k q1)
     = (q ← NewMaxQueue c; q1 ← push_all vs q; fst <$> pop_n zero k q1)).
Proof.
  split.
  - intros a b Hr Hmin. unfold ReverseCompare, neg64. apply wrap_id.
    unfold in_range, min_int, max_int in *. lia.
  - intros Hc vs k. rewrite NewMinQueue_eq, NewMaxQueue_eq. simpl.
    match goal with
    | |- (push_all vs ?qa ≫= _) = (push_all vs ?qb ≫= _) =>
        assert (Ht : twin qa qb)
    end.
    { split; [done|]. split; [done|]. intros a b.
      by apply less_ReverseCompare. }
    destruct (twin_push_all vs _ _ Ht) as [q1 q1' Ht1|]; simpl; [|done].
    by apply twin_pop_n.
Qed.

End Twin.

Lemma IntCompare_sign_valued : sign_valued IntCompare.
Proof.
  intros a b. unfold IntCompare.
  destruct (a <? b); [by left|]. destruct (a >? b); auto.
Qed.

Lemma ReverseCompare_spec_witness :
  ReverseCompare IntCompare 1 2 = - IntCompare 1 2 /\
  (q ← NewMinQueue (ReverseCompare IntCompare); q1 ← push_all [10; 30; 20] q;
   fst <$> pop_n 0 3 q1)
  = (q ← NewMaxQueue IntCompare; q1 ← push_all [10; 30; 20] q;
     fst <$> pop_n 0 3 q1).
Proof.
  split.
  - apply (proj1 (ReverseCompare_spec 0 IntCompare)).
    + vm_compute. split; discriminate.
    + vm_compute. discriminate.
  - apply (proj2 (ReverseCompare_spec 0 IntCompare)).
    apply IntCompare_sign_valued.
Defined.

(** C8 as stated fails for a comparator that returns the least [int]: its
    negation wraps around to the same value, so the reversed comparator
    returns the least [int] too, not its opposite. *)
Lemma ReverseCompare_counterexample :
  ~ (forall (c : CompareFunc Z) (a b : Z), ReverseCompare c a b = - c a b).
Proof.
  intros H. specialize (H (fun _ _ => min_int) 0 0).
  vm_compute in H. discriminate H.
Qed.

End pq_reverse.


(** ** The three containers: errors on the empty container *)

Module containers.
Section Errors.

Context {T : Type}.
Variable zero : T.

Lemma queue_Pop_cases (q : queue.Queue T) v e q' :
  queue.Pop zero q = Some (v, e, q') ->
  (e = Errorf "queue is empty" /\ v = zero /\ q' = q /\
   queue.IsEmpty q = true) \/
  (e = err_nil /\ queue.IsEmpty q = false).
Proof.
  unfold queue.Pop. destruct (queue.IsEmpty q).
  - intros [= <- <- <-]. by left.
  - destruct (queue.front q) as [f|]; [|done]. simpl.
    destruct (queue.mem q !! f); [|done]. simpl.
    intros [= <- <- <-]. by right.
Qed.

Lemma pq_pop_n_drain (n : nat) (q : priorityqueue.PriorityQueue T) :
  priorityqueue.idx_ok q -> priorityqueue.fits q ->
  length (priorityqueue.items q) = n ->
  exists rs q', priorityqueue.pop_n zero n q = Some (rs, q') /\
                priorityqueue.items q' = [] /\
                Forall (fun r => r.2 = err_nil) rs.
Proof.
  revert q. induction n as [|n IH]; intros q Hok Hfit Hlen.
  - exists [], q. split; [done|]. split; [|constructor].
    by destruct (priorityqueue.items q).
  - destruct (priorityqueue.items q) as [|p l] eqn:Hq; [done|].
    destruct (pq_facts.Pop_ok zero q p Hok Hfit)
      as (q1 & it & HP & _ & Hrem & Hlen1 & _).
    { by rewrite Hq. }
    destruct Hrem as (_ & _ & _ & _ & _ & Hok1).
    rewrite Hq in Hlen1. simpl in Hlen, Hlen1.
    destruct (IH q1 Hok1) as (rs & q' & Hpop & Hnil & Hall); [|lia|].
    { unfold priorityqueue.fits, priorityqueue.priorityHeap_Len in *.
      rewrite Hq in Hfit. simpl in Hfit. lia. }
    simpl. rewrite HP. simpl. rewrite Hpop. simpl.
    eexists _, q'. split; [done|]. split; [done|]. by constructor.
Qed.

(** C4: the empty-error property.  On a stack, a queue or a priority queue
    that holds no element, [Pop] and the peek operations ([Peek]; [Front]
    and [Rear]) return an error, without panic; a new container, a cleared
    one and one drained by pops hold no element.  On a container that
    holds an element they return a nil error. *)
Theorem empty_error :
  (* stack *)
  (forall s : stack.Stack T,
     stack.elements s = [] ->
     stack.Pop zero s = Some (zero, Errorf "stack is empty", s) /\
     stack.Peek zero s = Some (zero, Errorf "stack is empty")) /\
  (forall s : stack.Stack T,
     stack.elements s <> [] ->
     exists v s', stack.Pop zero s = Some (v, err_nil, s') /\
                  stack.Peek zero s = Some (v, err_nil)) /\
  (stack.elements (@stack.NewStack T) = [] /\
   (forall s : stack.Stack T, stack.elements (stack.Clear s) = []) /\
   (forall s : stack.Stack T,
      exists rs s', stack.pop_n zero (length (stack.elements s)) s
                    = Some (rs, s') /\ stack.elements s' = [])) /\
  (* queue *)
  (forall (q : queue.Queue T) ps,
     queue.holds q ps [] ->
     queue.Pop zero q = Some (zero, Errorf "queue is empty", q) /\
     queue.Front zero q = Some (zero, Errorf "queue is empty") /\
     queue.Rear zero q = Some (zero, Errorf "queue is empty")) /\
  (forall (q : queue.Queue T) ps vs,
     queue.holds q ps vs -> vs <> [] ->
     exists v w q', queue.Pop zero q = Some (v, err_nil, q') /\
                    queue.Front zero q = Some (v, err_nil) /\
                    queue.Rear zero q = Some (w, err_nil)) /\
  (queue.holds (@queue.NewQueue T) [] [] /\
   (forall q : queue.Queue T, queue.holds (queue.Clear q) [] []) /\
   (forall (q : queue.Queue T) ps vs,
      queue.holds q ps vs ->
      exists rs q', queue.pop_n zero (length vs) q = Some (rs, q') /\
                    queue.holds q' [] [])) /\
  (* priority queue *)
  (forall q : priorityqueue.PriorityQueue T,
     priorityqueue.items q = [] ->
     priorityqueue.Pop zero q
     = Some (zero, Errorf "priority queue is empty", q) /\
     priorityqueue.Peek zero q
     = Some (zero, Errorf "priority queue is empty")) /\
  (forall q : priorityqueue.PriorityQueue T,
     priorityqueue.idx_ok q -> priorityqueue.fits q ->
     priorityqueue.items q <> [] ->
     exists v q', priorityqueue.Pop zero q = Some (v, err_nil, q') /\
                  priorityqueue.Peek zero q = Some (v, err_nil)) /\
  ((forall (c : priorityqueue.CompareFunc T) q,
      priorityqueue.NewMinQueue c = Some q \/
      priorityqueue.NewMaxQueue c = Some q ->
      priorityqueue.items q = []) /\
   (forall q q' : priorityqueue.PriorityQueue T,
      priorityqueue.Clear q = Some q' -> priorityqueue.items q' = []) /\
   (forall q : priorityqueue.PriorityQueue T,
      priorityqueue.idx_ok q -> priorityqueue.fits q ->
      exists rs q',
        priorityqueue.pop_n zero (length (priorityqueue.items q)) q
        = Some (rs, q') /\ priorityqueue.items q' = [])).
Proof.
  split; [|split; [|split; [|split; [|split; [|split; [|split; [|split]]]]]]].
  - intros s Hs.
    split; [by apply stack_facts.stack_Pop_nil|by apply stack_facts.stack_Peek_nil].
  - intros s Hs. destruct (stack.elements s) as [|v l] eqn:He; [done|].
    destruct (stack_facts.stack_Pop_cons zero s v l He) as (s' & HP & _).
    exists v, s'. split; [done|]. by eapply stack_facts.stack_Peek_cons.
  - split; [done|]. split; [done|]. apply stack_facts.drained.
  - intros q ps Hq.
    pose proof (proj1 (queue_facts.holds_nil_front q ps [] Hq) eq_refl).
    split; [by apply queue_facts.queue_Pop_nil|].
    split; [by apply queue_facts.Front_nil|by apply queue_facts.Rear_nil].
  - intros q ps vs Hq Hne.
    destruct vs as [|v vs]; [done|].
    destruct ps as [|p ps]; [by destruct Hq as (_ & ? & _)|].
    destruct (queue_facts.Pop_holds zero q p ps v vs Hq) as (q' & HP & _).
    destruct (last (v :: vs)) as [w|] eqn:Hw.
    + exists v, w, q'. split; [done|].
      split; [by eapply queue_facts.Front_holds
             |by eapply queue_facts.Rear_holds].
    + rewrite last_lookup in Hw. simpl in Hw.
      apply lookup_ge_None in Hw. simpl in Hw. lia.
  - split; [apply (@queue_facts.holds_NewQueue T)|]. split.
    + intros q. split; [constructor|]. repeat split; try done.
    + intros q ps vs Hq.
      destruct (queue_facts.pop_n_holds zero (length vs) q ps vs Hq)
        as (q' & HP & Hq'); [lia|].
      pose proof Hq as (_ & Hlen & _).
      rewrite <- Hlen in Hq' at 1. rewrite !drop_all in Hq'. eauto.
  - intros q Hq.
    split; [by apply pq_facts.pq_Pop_nil|by apply pq_facts.pq_Peek_nil].
  - intros q Hok Hfit Hne.
    destruct (pq_order.items_nil_or q) as [Hq|[p Hp]]; [done|].
    destruct (pq_facts.Pop_ok zero q p Hok Hfit Hp) as (q' & it & HP & Hit & _).
    destruct (pq_facts.Peek_ok zero q p Hok Hp) as (it' & HK & Hit').
    assert (it' = it) as -> by congruence.
    by exists (priorityqueue.Value it), q'.
  - split; [by intros c q [[= <-]|[= <-]]|]. split.
    + intros q q'. rewrite pq_facts.Clear_eq. by intros [= <-].
    + intros q Hok Hfit.
      destruct (pq_pop_n_drain _ q Hok Hfit eq_refl)
        as (rs & q' & HP & Hnil & _).
      eauto.
Qed.

(** C10: a failed [Pop] or peek returns the zero value of the element type,
    it fails on the empty container only, and it leaves the container as it
    was ([Pop] returns the container it was given; the peek operations
    return no container). *)
Theorem failed_result :
  (forall (s s' : stack.Stack T) v e,
     stack.Pop zero s = Some (v, e, s') -> is_error e = true ->
     v = zero /\ s' = s /\ stack.IsEmpty s = true) /\
  (forall (s : stack.Stack T) v e,
     stack.Peek zero s = Some (v, e) -> is_error e = true ->
     v = zero /\ stack.IsEmpty s = true) /\
  (forall (q q' : queue.Queue T) v e,
     queue.Pop zero q = Some (v, e, q') -> is_error e = true ->
     v = zero /\ q' = q /\ queue.IsEmpty q = true) /\
  (forall (q : queue.Queue T) v e,
     queue.Front zero q = Some (v, e) -> is_error e = true ->
     v = zero /\ queue.IsEmpty q = true) /\
  (forall (q : queue.Queue T) v e,
     queue.Rear zero q = Some (v, e) -> is_error e = true ->
     v = zero /\ queue.IsEmpty q = true) /\
  (forall (q q' : priorityqueue.PriorityQueue T) v e,
     priorityqueue.Pop zero q = Some (v, e, q') -> is_error e = true ->
     v = zero /\ q' = q /\ priorityqueue.IsEmpty q = true) /\
  (forall (q : priorityqueue.PriorityQueue T) v e,
     priorityqueue.Peek zero q = Some (v, e) -> is_error e = true ->
     v = zero /\ priorityqueue.IsEmpty q = true).
Proof.
  repeat apply conj.
  - intros s s' v e. unfold stack.Pop.
    destruct (stack.IsEmpty s); [by intros [= <- <- <-]|].
    destruct (stack.top s); [|done]. simpl. by intros [= <- <- <-].
  - intros s v e. unfold stack.Peek.
    destruct (stack.IsEmpty s); [by intros [= <- <-]|].
    destruct (stack.top s); [|done]. simpl. by intros [= <- <-].
  - intros q q' v e HP He.
    destruct (queue_Pop_cases q v e q' HP) as [(_ & ? & ? & ?)|[-> _]]; done.
  - intros q v e. unfold queue.Front.
    destruct (queue.IsEmpty q); [by intros [= <- <-]|].
    destruct (queue.front q) as [f|]; [|done]. simpl.
    destruct (queue.mem q !! f); [|done]. simpl. by intros [= <- <-].
  - intros q v e. unfold queue.Rear.
    destruct (queue.IsEmpty q); [by intros [= <- <-]|].
    destruct (queue.rear q) as [f|]; [|done]. simpl.
    destruct (queue.mem q !! f); [|done]. simpl. by intros [= <- <-].
  - intros q q' v e. unfold priorityqueue.Pop.
    destruct (priorityqueue.IsEmpty q); [by intros [= <- <- <-]|].
    destruct (priorityqueue.heap_Pop q) as [[item q1]|]; [|done]. simpl.
    destruct (priorityqueue.store q1 !! item); [|done]. simpl.
    by intros [= <- <- <-].
  - intros q v e. unfold priorityqueue.Peek.
    destruct (priorityqueue.IsEmpty q); [by intros [= <- <-]|].
    destruct (priorityqueue.index _ 0) as [p|]; [|done]. simpl.
    destruct (priorityqueue.store q !! p); [|done]. simpl.
    by intros [= <- <-].
Qed.

End Errors.

Lemma empty_error_witness :
  stack.Pop 0 stack.NewStack
  = Some (0, Errorf "stack is empty", stack.NewStack) /\
  stack.Peek 0 stack.NewStack = Some (0, Errorf "stack is empty").
Proof.
  apply (proj1 (empty_error 0) stack.NewStack). reflexivity.
Defined.

Lemma failed_result_witness :
  0 = 0 /\ stack.NewStack = @stack.NewStack Z /\
  stack.IsEmpty (@stack.NewStack Z) = true.
Proof.
  apply (proj1 (failed_result 0) stack.NewStack stack.NewStack 0
           (Errorf "stack is empty")); reflexivity.
Defined.

End containers.

(** ** Stack: size, and the parentheses check *)

Module stack_more.
Import stack stack_facts.
Section More.

Context {T : Type}.
Variable zero : T.

(** X1: The [size] field counts the elements: a new and a cleared stack are
    counted, [Push] keeps a stack counted as long as the count fits an
    [int], [Pop] keeps it counted, and on a counted stack [IsEmpty] is
    [Size() == 0]. *)
Theorem Size_counts :
  counted (@NewStack T) /\
  (forall s : Stack T, counted (Clear s)) /\
  (forall (v : T) (s : Stack T),
     counted s -> Z.of_nat (length (elements s)) < max_int ->
     counted (Push v s) /\ Size (Push v s) = Size s + 1) /\
  (forall (s s' : Stack T) v e,
     counted s -> Pop zero s = Some (v, e, s') ->
     counted s' /\
     Size s' = if is_error e then Size s else Size s - 1) /\
  (forall s : Stack T, counted s -> IsEmpty s = (Size s =? 0)).
Proof.
  split; [by split|]. split; [by split|]. split; [|split].
  - intros v s [Hc Hr] Hlt. unfold counted, Size in *. rewrite elements_Push.
    cbn [length]. rewrite Nat2Z.inj_succ. unfold Push. cbn [size].
    rewrite Hc. unfold add64.
    rewrite wrap_id by (unfold in_range, min_int, max_int in *; lia).
    unfold in_range, min_int, max_int in *. lia.
  - intros s s' v e [Hc Hr]. unfold Pop, IsEmpty, counted, Size in *.
    destruct (top s) as [n|] eqn:Ht; simpl.
    + intros [= <- <- <-].
      set (s1 := {| top := Next n; size := sub64 (size s) 1 |}).
      assert (He : elements s = Value n :: elements s1).
      { unfold elements. rewrite Ht. simpl. destruct n as [w [m|]]; done. }
      rewrite He in Hc. cbn [length] in Hc. rewrite Nat2Z.inj_succ in Hc.
      change (size s1) with (sub64 (size s) 1). cbn [is_error].
      unfold sub64.
      rewrite wrap_id by (unfold in_range, min_int, max_int in *; lia).
      unfold in_range, min_int, max_int in *. lia.
    + by intros [= <- <- <-].
  - intros s [Hc _]. unfold counted, Size, IsEmpty in *. rewrite Hc.
    unfold elements. by destruct (top s) as [[w m]|].
Qed.

End More.

Lemma Size_counts_witness :
  counted (Push 7 (@NewStack Z)) /\ Size (Push 7 (@NewStack Z)) = 0 + 1.
Proof.
  apply (proj1 (proj2 (proj2 (@Size_counts Z 0))) 7 NewStack).
  - split; [reflexivity|]. vm_compute. split; discriminate.
  - vm_compute. reflexivity.
Defined.

(** *** [isValidParentheses] *)

Lemma loop_top (l : list Z) (s1 s2 : Stack Z) :
  top s1 = top s2 ->
  isValidParentheses_loop l s1 = isValidParentheses_loop l s2.
Proof.
  revert s1 s2. induction l as [|x l IH]; intros s1 s2 Ht; simpl.
  - unfold IsEmpty. by rewrite Ht.
  - destruct (is_open x). { apply IH. unfold Push. simpl. by rewrite Ht. }
    destruct (is_close x); [|by apply IH].
    unfold IsEmpty, Pop, IsEmpty. rewrite Ht.
    destruct (top s2) as [n|]; [|done]. simpl.
    destruct (negb _); [done|]. by apply IH.
Qed.

Lemma matching_open o c : matching o c -> is_open o = true.
Proof. by intros [[-> _]|[[-> _]|[-> _]]]. Qed.

Lemma matching_close o c :
  matching o c ->
  is_open c = false /\ is_close c = true /\ map_index pairs c = o.
Proof. by intros [[-> ->]|[[-> ->]|[-> ->]]]. Qed.

Lemma close_matching c :
  is_close c = true -> matching (map_index pairs c) c.
Proof.
  unfold is_close. intros H.
  apply orb_true_iff in H as [H|H]; [apply orb_true_iff in H as [H|H]|];
    apply Z.eqb_eq in H; subst c; unfold matching; vm_compute; tauto.
Qed.

(** A balanced prefix leaves the stack of the loop as it found it. *)
Lemma loop_balanced (l : list Z) :
  balanced l ->
  forall rest (s : Stack Z),
    isValidParentheses_loop (l ++ rest) s = isValidParentheses_loop rest s.
Proof.
  induction 1 as [|o c l Hm Hl IH|l1 l2 H1 IH1 H2 IH2|x l Ho Hc Hl IH];
    intros rest s.
  - done.
  - simpl. rewrite (matching_open o c Hm).
    rewrite <- app_assoc, IH. simpl.
    destruct (matching_close o c Hm) as (-> & -> & Hp).
    rewrite Hp, Z.eqb_refl. simpl. by apply loop_top.
  - by rewrite <- app_assoc, IH1, IH2.
  - simpl. rewrite Ho, Hc. apply IH.
Qed.

(** A balanced sequence stays balanced when a balanced sequence is put
    into it at any place. *)
Lemma balanced_insert (m : list Z) :
  balanced m ->
  forall n, balanced n ->
  forall l1 l2, n = l1 ++ l2 -> balanced (l1 ++ m ++ l2).
Proof.
  intros Hm n Hn.
  induction Hn as [|o c l Hoc Hl IH|n1 n2 H1 IH1 H2 IH2|x l Ho Hc Hl IH];
    intros l1 l2 E.
  - symmetry in E. apply app_eq_nil in E as [-> ->].
    by rewrite app_nil_r.
  - destruct l1 as [|a l1].
    { simpl in E. subst l2. simpl. apply bal_app; [done|by apply bal_wrap]. }
    simpl in E. injection E as Ea E. subst a.
    destruct l2 as [|b l2 _] using rev_ind.
    + rewrite app_nil_r in E. subst l1. rewrite app_nil_r.
      apply (bal_app (o :: l ++ [c]) m); [by apply bal_wrap|done].
    + rewrite app_assoc in E. apply app_inj_tail in E as [El Ec].
      subst l b.
      replace ((o :: l1) ++ m ++ l2 ++ [c])
        with (o :: (l1 ++ m ++ l2) ++ [c])
        by (simpl; by rewrite <- !app_assoc).
      apply bal_wrap; [done|]. by apply IH.
  - apply app_eq_app in E as [k [[-> ->]|[-> ->]]].
    + replace (l1 ++ m ++ k ++ n2) with ((l1 ++ m ++ k) ++ n2)
        by (by rewrite <- !app_assoc).
      apply bal_app; [|done]. by apply IH1.
    + rewrite <- app_assoc. apply bal_app; [done|]. by apply IH2.
  - destruct l1 as [|a l1].
    { simpl in *. subst l2. apply bal_app; [done|by apply bal_other]. }
    simpl in E. injection E as <- ->. simpl.
    apply bal_other; [done|done|]. by apply IH.
Qed.

(** When the loop accepts, what is on the stack (bottom first) followed by
    the rest of the input is balanced. *)
Lemma loop_sound (l : list Z) :
  forall s : Stack Z,
    isValidParentheses_loop l s = Some true ->
    balanced (rev (elements s) ++ l).
Proof.
  induction l as [|x l IH]; intros s; simpl.
  - intros [= He]. assert (elements s = []) as ->.
    { apply elements_nil. unfold IsEmpty in He. by destruct (top s). }
    constructor.
  - destruct (is_open x) eqn:Ho.
    { intros H%IH. rewrite elements_Push in H. simpl in H.
      by rewrite <- app_assoc in H. }
    destruct (is_close x) eqn:Hc.
    + destruct (IsEmpty s) eqn:He; [done|].
      unfold Pop. rewrite He. unfold IsEmpty in He.
      destruct (top s) as [n|] eqn:Ht; [|done]. simpl.
      destruct (Value n =? map_index pairs x) eqn:Hv; [|done]. simpl.
      intros H%IH. apply Z.eqb_eq in Hv.
      assert (Hel : elements s = Value n :: elements
                      {| top := Next n; size := sub64 (size s) 1 |}).
      { unfold elements. rewrite Ht. simpl. destruct n as [w [m|]]; done. }
      rewrite Hel. simpl. rewrite <- app_assoc. simpl.
      apply (balanced_insert [Value n; x]) with (n := rev (elements
               {| top := Next n; size := sub64 (size s) 1 |}) ++ l);
        [|done|done].
      apply (bal_wrap (Value n) x []); [|constructor].
      rewrite Hv. by apply close_matching.
    + intros H%IH.
      apply (balanced_insert [x]) with (n := rev (elements s) ++ l);
        [|done|done].
      apply (bal_other x []); [done|done|constructor].
Qed.

Lemma loop_total (l : list Z) :
  forall s : Stack Z, exists b, isValidParentheses_loop l s = Some b.
Proof.
  induction l as [|x l IH]; intros s; simpl; [eauto|].
  destruct (is_open x); [apply IH|]. destruct (is_close x); [|apply IH].
  destruct (IsEmpty s) eqn:He; [eauto|].
  unfold Pop. rewrite He. unfold IsEmpty in He.
  destruct (top s) as [n|]; [|done]. simpl.
  destruct (negb _); [eauto|apply IH].
Qed.

(** X2: [isValidParentheses] never panics, and it accepts exactly the
    well-bracketed sequences. *)
Theorem isValidParentheses_spec (s : list Z) :
  (exists b, isValidParentheses s = Some b) /\
  (isValidParentheses s = Some true <-> balanced s).
Proof.
  split; [apply loop_total|]. unfold isValidParentheses. split.
  - intros H%loop_sound. by simpl in H.
  - intros H. pose proof (loop_balanced s H [] NewStack) as E.
    rewrite app_nil_r in E. by rewrite E.
Qed.

End stack_more.

(** ** Queue: the list it stands for, its ends, its size, [ToSlice] *)

Module queue_more.
Import queue queue_facts.
Section More.

Context {T : Type}.
Variable zero : T.

(** X3: The queue behaves as the list of its values: a new queue is the empty
    list, [Push] adds at the end, [Pop] takes the head off and returns it,
    [Clear] gives the empty list; every operation keeps the linked
    representation well formed. *)
Theorem queue_as_list :
  holds (@NewQueue T) [] [] /\
  (forall (q : Queue T) ps vs v,
     holds q ps vs ->
     exists q' ps', Push v q = Some q' /\ holds q' ps' (vs ++ [v])) /\
  (forall (q : Queue T) ps v vs,
     holds q ps (v :: vs) ->
     exists q' ps', Pop zero q = Some (v, err_nil, q') /\ holds q' ps' vs) /\
  (forall q : Queue T, holds (Clear q) [] []).
Proof.
  split; [apply (@holds_NewQueue T)|]. split; [|split].
  - intros q ps vs v Hq.
    destruct (Push_holds v q ps vs Hq) as (q' & HP & Hq'). eauto.
  - intros q ps v vs Hq.
    destruct ps as [|p ps]; [by destruct Hq as (_ & ? & _)|].
    destruct (Pop_holds zero q p ps v vs Hq) as (q' & HP & Hq'). eauto.
  - intros q. split; [constructor|]. repeat split; try done.
Qed.

(** The two ends of a well-formed queue. *)
Lemma holds_ends (q : Queue T) ps vs :
  holds q ps vs ->
  (front q = None <-> vs = []) /\
  (rear q = None <-> vs = []) /\
  (forall r, rear q = Some r ->
     exists n, mem q !! r = Some n /\ Next n = None) /\
  (length vs = 1%nat -> front q = rear q).
Proof.
  intros Hq. pose proof Hq as (Hnd & Hlen & Hf & Hr & Hn).
  split; [|split; [|split]].
  - symmetry. by eapply holds_nil_front.
  - rewrite Hr. destruct ps as [|p ps] using rev_ind.
    + by destruct vs.
    + rewrite last_snoc. rewrite length_app in Hlen. simpl in Hlen.
      split; [done|]. intros ->. simpl in Hlen. lia.
  - intros r Hrr. rewrite Hr, last_lookup in Hrr.
    destruct (Hn _ r Hrr) as (n & Hm & _ & Hx).
    exists n. split; [done|]. rewrite Hx. apply lookup_ge_None.
    apply lookup_lt_Some in Hrr. lia.
  - intros H1. rewrite Hf, Hr. rewrite <- Hlen in H1.
    destruct ps as [|p [|p' ps]]; simpl in H1; try lia. done.
Qed.

Lemma built_holds (q : Queue T) : built zero q -> exists ps vs, holds q ps vs.
Proof.
  induction 1 as [|v q q' Hb (ps & vs & Hq) HP|q v e q' Hb (ps & vs & Hq) HP
                  |q Hb _].
  - exists [], []. apply holds_NewQueue.
  - destruct (Push_holds v q ps vs Hq) as (q'' & HP' & Hq').
    assert (q'' = q') as -> by congruence. eauto.
  - destruct vs as [|w vs].
    + pose proof (proj1 (holds_nil_front q ps [] Hq) eq_refl) as Hf.
      rewrite (queue_Pop_nil zero q Hf) in HP. injection HP as _ _ <-. eauto.
    + destruct ps as [|p ps]; [by destruct Hq as (_ & ? & _)|].
      destruct (Pop_holds zero q p ps w vs Hq) as (q'' & HP' & Hq').
      assert (q'' = q') as -> by congruence. eauto.
  - exists [], []. split; [constructor|]. repeat split; try done.
Qed.

(** X4: Every queue built with [NewQueue], [Push], [Pop] and [Clear] is well
    formed: the nodes from [front] on form a chain of distinct nodes that
    ends at [rear]; [front] and [rear] are nil together ([Pop] of the last
    value resets [rear] too); [rear] points to a node whose [Next] is nil;
    and [front] and [rear] are the same node exactly when the chain has one
    node. *)
Theorem built_ends (q : Queue T) :
  built zero q ->
  (front q = None <-> rear q = None) /\
  (forall r, rear q = Some r ->
     exists n, mem q !! r = Some n /\ Next n = None) /\
  exists ps vs, holds q ps vs /\ (length vs = 1%nat -> front q = rear q).
Proof.
  intros Hb. destruct (built_holds q Hb) as (ps & vs & Hq).
  destruct (holds_ends q ps vs Hq) as (Hf & Hr & Hn & H1).
  split; [by rewrite Hf, Hr|]. split; [done|]. by exists ps, vs.
Qed.

(** X5: [Front] returns the first value and [Rear] the last one, with a nil
    error; on the empty queue both return the zero value and the error. *)
Theorem Front_Rear_values (q : Queue T) ps vs :
  holds q ps vs ->
  Front zero q
  = Some (match head vs with
          | Some v => (v, err_nil)
          | None => (zero, Errorf "queue is empty")
          end) /\
  Rear zero q
  = Some (match last vs with
          | Some v => (v, err_nil)
          | None => (zero, Errorf "queue is empty")
          end).
Proof.
  intros Hq. destruct vs as [|v vs].
  - pose proof (proj1 (holds_nil_front q ps [] Hq) eq_refl) as Hf. simpl.
    by rewrite (Front_nil zero q Hf), (Rear_nil zero q Hf).
  - destruct ps as [|p ps]; [by destruct Hq as (_ & ? & _)|].
    rewrite (Front_holds zero q p ps v vs Hq). split; [done|].
    destruct (last (v :: vs)) as [w|] eqn:Hw.
    + by rewrite (Rear_holds zero q _ _ w Hq Hw).
    + rewrite last_lookup in Hw. simpl in Hw.
      apply lookup_ge_None in Hw. simpl in Hw. lia.
Qed.

Lemma holds_length_mem (q : Queue T) ps vs :
  holds q ps vs -> (length ps <= length (mem q))%nat.
Proof.
  intros Hq. pose proof Hq as (Hnd & _).
  assert (length (seq 0 (length (mem q))) = length (mem q)) as <-
    by apply length_seq.
  apply submseteq_length, NoDup_submseteq; [done|].
  intros p Hp. apply elem_of_seq.
  pose proof (holds_lt q ps vs p Hq Hp). lia.
Qed.

Lemma ToSlice_loop_holds (q : Queue T) ps vs :
  holds q ps vs ->
  forall (f k : nat) acc,
    (length ps - k < f)%nat ->
    ToSlice_loop f (mem q) (ps !! k) acc = Some (acc ++ drop k vs).
Proof.
  intros Hq. pose proof Hq as (_ & Hlen & _ & _ & Hn).
  induction f as [|f IH]; intros k acc Hf; [lia|]. simpl.
  destruct (ps !! k) as [p|] eqn:Hp.
  - destruct (Hn k p Hp) as (n & Hm & Hv & Hx). rewrite Hm. simpl.
    rewrite Hx. rewrite IH by (apply lookup_lt_Some in Hp; lia).
    rewrite <- app_assoc. f_equal.
    by rewrite (drop_S vs (Value n) k Hv).
  - apply lookup_ge_None in Hp. rewrite drop_ge by lia.
    by rewrite app_nil_r.
Qed.

(** X6: [ToSlice] on a well-formed queue whose [size] field counts its
    values returns the values from front to rear: the loop ends and nothing
    panics. *)
Theorem ToSlice_values (q : Queue T) ps vs :
  holds q ps vs -> counted q vs -> ToSlice q = Some vs.
Proof.
  intros Hq [Hc _]. unfold ToSlice.
  rewrite (proj2 (Z.ltb_ge (size q) 0)) by lia.
  pose proof Hq as (_ & _ & Hf & _). rewrite Hf, head_lookup.
  rewrite (ToSlice_loop_holds q ps vs Hq); [done|].
  pose proof (holds_length_mem q ps vs Hq). lia.
Qed.

(** X7: The [size] field counts the values: a new and a cleared queue are
    counted, [Push] keeps a queue counted as long as the count fits an
    [int], and [Pop] keeps it counted. *)
Theorem queue_Size_counts :
  counted (@NewQueue T) [] /\
  (forall q : Queue T, counted (Clear q) []) /\
  (forall (q q' : Queue T) vs v,
     counted q vs -> Z.of_nat (length vs) < max_int ->
     Push v q = Some q' ->
     counted q' (vs ++ [v]) /\ Size q' = Size q + 1) /\
  (forall (q q' : Queue T) ps v w vs,
     holds q ps (v :: vs) -> counted q (v :: vs) ->
     Pop zero q = Some (w, err_nil, q') ->
     counted q' vs /\ Size q' = Size q - 1).
Proof.
  assert (H0 : in_range 0) by (unfold in_range, min_int, max_int; lia).
  split; [by split|]. split; [by split|]. split.
  - intros q q' vs v [Hc Hr] Hlt HP.
    assert (Hs : size q' = add64 (size q) 1).
    { unfold Push in HP. simpl in HP. destruct (IsEmpty q).
      - by injection HP as <-.
      - destruct (rear q) as [r|]; [|done]. simpl in HP.
        destruct (_ !! r); [|done]. simpl in HP. by injection HP as <-. }
    unfold counted, Size. rewrite Hs, length_app, Hc. simpl. unfold add64.
    rewrite wrap_id by (unfold in_range, min_int, max_int in *; lia).
    unfold in_range, min_int, max_int in *. lia.
  - intros q q' ps v w vs Hq [Hc Hr] HP.
    destruct ps as [|p ps]; [by destruct Hq as (_ & ? & _)|].
    destruct (Pop_holds zero q p ps v vs Hq) as (q'' & HP' & _).
    assert (Hs : size q' = sub64 (size q) 1).
    { unfold Pop in HP. destruct (IsEmpty q); [done|].
      destruct (front q) as [f|]; [|done]. simpl in HP.
      destruct (mem q !! f); [|done]. simpl in HP. by injection HP as _ <-. }
    unfold counted, Size. rewrite Hs. cbn [length] in Hc.
    rewrite Nat2Z.inj_succ in Hc. unfold sub64.
    rewrite wrap_id by (unfold in_range, min_int, max_int in *; lia).
    unfold in_range, min_int, max_int in *. lia.
Qed.

End More.

Lemma holds_two_pushed : holds two_pushed [0%nat; 1%nat] [5; 6].
Proof.
  split; [|split; [done|split; [done|split; [done|]]]].
  - apply NoDup_cons. split; [by intros ?%list_elem_of_singleton|].
    apply NoDup_singleton.
  - intros [|[|i]] p; simpl; intros [= <-]; eexists; by repeat split.
Qed.

Lemma queue_as_list_witness :
  (exists (q' : Queue Z) ps',
     Push 7 two_pushed = Some q' /\ holds q' ps' ([5; 6] ++ [7])) /\
  (exists (q' : Queue Z) ps',
     Pop 0 two_pushed = Some (5, err_nil, q') /\ holds q' ps' [6]).
Proof.
  split.
  - apply (proj1 (proj2 (queue_as_list 0)) two_pushed [0%nat; 1%nat] [5; 6] 7).
    apply holds_two_pushed.
  - apply (proj1 (proj2 (proj2 (queue_as_list 0)))
             two_pushed [0%nat; 1%nat] 5 [6]).
    apply holds_two_pushed.
Defined.

Lemma built_ends_witness :
  (front two_pushed = None <-> rear two_pushed = None) /\
  (forall r, rear two_pushed = Some r ->
     exists n, mem two_pushed !! r = Some n /\ Next n = None) /\
  exists ps vs, holds two_pushed ps vs /\
                (length vs = 1%nat -> front two_pushed = rear two_pushed).
Proof.
  apply (built_ends 0 two_pushed).
  apply (built_Push 0 6 {| mem := [{| Value := 5; Next := None |}];
                           front := Some 0%nat; rear := Some 0%nat;
                           size := 1 |}); [|reflexivity].
  apply (built_Push 0 5 NewQueue); [apply built_NewQueue|reflexivity].
Defined.

Lemma Front_Rear_values_witness :
  Front 0 two_pushed = Some (5, err_nil) /\
  Rear 0 two_pushed = Some (6, err_nil).
Proof.
  apply (Front_Rear_values 0 two_pushed [0%nat; 1%nat] [5; 6]).
  apply holds_two_pushed.
Defined.

Lemma ToSlice_values_witness : ToSlice two_pushed = Some [5; 6].
Proof.
  apply (ToSlice_values two_pushed [0%nat; 1%nat] [5; 6]).
  - apply holds_two_pushed.
  - split; [reflexivity|]. vm_compute. split; discriminate.
Defined.

Lemma queue_Size_counts_witness :
  counted {| mem := mem two_pushed; front := Some 1%nat; rear := Some 1%nat;
             size := 1 |} [6] /\
  Size {| mem := mem two_pushed; front := Some 1%nat; rear := Some 1%nat;
          size := 1 |} = Size two_pushed - 1.
Proof.
  apply (proj2 (proj2 (proj2 (queue_Size_counts 0)))
           two_pushed _ [0%nat; 1%nat] 5 5 [6]).
  - apply holds_two_pushed.
  - split; [reflexivity|]. vm_compute. split; discriminate.
  - reflexivity.
Defined.

End queue_more.

(** ** Priority queue: what [Push], [Pop], [UpdateItem], [Remove] and
       [Clear] do to the stored values and to the handles *)

Module pq_more.
Import priorityqueue heap_order heap_methods heap_loops heap_runs heap_ops.
Import pq_facts pq_order.
Section More.

Context {T : Type}.
Variable zero : T.

Abbreviation priorityHeap := (priorityHeap T).
Abbreviation PriorityQueue := (PriorityQueue T).
Abbreviation vals := (vals zero).
Abbreviation heap_ok := (heap_ok zero).
Abbreviation pq_inv := (pq_inv zero).

(** In a heap that is in order, [down] finds no child to trade places
    with. *)
Lemma down_run_in_order (h h' : priorityHeap) (i n i' : nat) :
  down_run h i n h' i' -> idx_ok h ->
  heap_upto (lt_of h) (vals h) n -> h' = h /\ i' = i.
Proof.
  intros Hrun Hok Hh.
  destruct Hrun as [h i n Hn|h i n j Hn Hp HL|h i n j h1 h' i' Hn Hp HL Hs Hrun];
    [done|done|].
  destruct (pick_range _ _ _ _ Hn Hp) as (Hjn & Hji & Hpj).
  destruct (Less_inv zero h _ _ _ Hok HL) as (a & b & Ha & Hb & Hab).
  rewrite <- Hpj in Hb. by rewrite (Hh j Hjn a b Ha Hb) in Hab.
Qed.

Lemma up_run_in_order (h h' : priorityHeap) (j : nat) :
  up_run h j h' -> idx_ok h -> (j < length (items h))%nat ->
  heap_ok h -> h' = h.
Proof.
  intros Hrun Hok Hj Hh.
  destruct Hrun as [h|h j Hj0 HL|h j h1 h' Hj0 HL Hs Hrun]; [done|done|].
  destruct (Less_inv zero h _ _ _ Hok HL) as (a & b & Ha & Hb & Hab).
  by rewrite (Hh j Hj a b Ha Hb) in Hab.
Qed.

(** X11: [UpdateItem] on an item whose value was not changed leaves the queue as
    it is. *)
Theorem UpdateItem_unchanged (q : PriorityQueue) (p : nat) :
  pq_inv q -> p ∈ items q -> UpdateItem p q = Some q.
Proof.
  intros (Hok & Hh & Hfit) [i Hi]%list_elem_of_lookup.
  destruct (Hok _ _ Hi) as (it & Hit & Hidx).
  assert (Hil : (i < length (items q))%nat) by by eapply lookup_lt_Some.
  unfold UpdateItem. rewrite Hit. simpl. rewrite Hidx. unfold heap_Fix.
  destruct (heap_down_run zero q i (length (items q)) Hok Hfit Hil ltac:(lia))
    as (h2 & i' & Hdown & Hrun).
  destruct (down_run_in_order _ _ _ _ _ Hrun Hok Hh) as [-> ->].
  unfold priorityHeap_Len. rewrite Hdown. simpl.
  rewrite Z.gtb_ltb, Z.ltb_irrefl. simpl.
  destruct (heap_up_run zero q i Hok Hfit Hil) as (h' & Hup & Hrun').
  rewrite Hup. f_equal. by eapply up_run_in_order.
Qed.

(** A handle whose item records the index [-1]: [heap.Fix] leaves both
    loops at once, and [heap.Remove] indexes the slice at [-1]. *)
Lemma index_minus_one (q : PriorityQueue) (p : nat) it :
  store q !! p = Some it -> Index it = -1 ->
  UpdateItem p q = Some q /\ Remove p q = None.
Proof.
  intros Hit Hidx. split.
  - unfold UpdateItem. rewrite Hit. simpl. rewrite Hidx.
    unfold heap_Fix, heap_down, heap_up. simpl.
    change (add64 (mul64 2 (-1)) 1) with (-1).
    change (-1 <? 0) with true. by rewrite orb_true_r.
  - unfold Remove. rewrite Hit. simpl. rewrite Hidx. unfold heap_Remove.
    destruct (sub64 (priorityHeap_Len q) 1 =? -1) eqn:Hn; simpl.
    + apply Z.eqb_eq in Hn. unfold priorityHeap_Pop.
      fold (priorityHeap_Len q). rewrite Hn. reflexivity.
    + reflexivity.
Qed.


(** X12: Once an item has left the queue, through [Remove] or through [Pop], its
    handle is stale: [UpdateItem] on it does nothing and [Remove] on it
    panics. *)
Theorem removed_handle (q : PriorityQueue) :
  idx_ok q -> fits q ->
  (forall p q', p ∈ items q -> Remove p q = Some q' ->
     UpdateItem p q' = Some q' /\ Remove p q' = None) /\
  (forall v q', Pop zero q = Some (v, err_nil, q') ->
     exists p, p ∈ items q /\ (p ∉ items q') /\
               UpdateItem p q' = Some q' /\ Remove p q' = None).
Proof.
  intros Hok Hfit. split.
  - intros p q' [i Hi]%list_elem_of_lookup HR.
    destruct (Remove_ok zero q i p Hok Hfit Hi)
      as (q'' & it & HR' & _ & Hrem & _).
    assert (q'' = q') as -> by congruence.
    destruct Hrem as (_ & _ & _ & _ & (it' & Hit' & _ & Hidx) & _).
    by eapply index_minus_one.
  - intros v q' HP.
    destruct (Pop_same zero q q' v err_nil Hok HP) as (_ & Hp).
    destruct (Hp eq_refl) as (p & it & Hin & Hnin & Hit & _ & Hidx).
    exists p. split; [done|]. split; [done|]. by eapply index_minus_one.
Qed.

Lemma compare_of_less (c : CompareFunc T) (m : bool) (a b : T) :
  CompareOK c -> less c m b a = false ->
  if m then c a b >= 0 else c a b <= 0.
Proof.
  intros [Hanti _]. pose proof (Hanti a b). pose proof (Hanti b a).
  unfold less. destruct m; lia.
Qed.

(** [Pop] on a queue that holds an item: the value at the root leaves, and
    no stored value comes before it. *)
Lemma Pop_root (q : PriorityQueue) :
  pq_inv q -> CompareOK (compare q) -> items q <> [] ->
  exists a q',
    Pop zero q = Some (a, err_nil, q') /\
    Peek zero q = Some (a, err_nil) /\
    pq_inv q' /\ vals q ≡ₚ a :: vals q' /\
    S (length (items q')) = length (items q) /\
    compare q' = compare q /\ isMaxHeap q' = isMaxHeap q /\
    forall b, b ∈ vals q -> lt_of q b a = false.
Proof.
  intros (Hok & Hh & Hfit) HC Hne.
  destruct (items_nil_or q) as [Hq|[p Hq]]; [done|].
  destruct (Pop_ok zero q p Hok Hfit Hq)
    as (q' & it & HP & Hit & Hrem & Hlen & Hh').
  destruct (Peek_ok zero q p Hok Hq) as (it' & HPk & Hit').
  assert (it' = it) as -> by congruence.
  destruct Hrem as (Hc & Hm & _ & Hperm & _ & Hok').
  exists (Value it), q'. split; [done|]. split; [done|]. split.
  { split; [done|]. split; [by apply Hh'|].
    eapply fits_same_length; [done|lia]. }
  split; [done|]. split; [done|]. split; [done|]. split; [done|].
  intros b [k Hk]%list_elem_of_lookup.
  apply (root_least _ (less_asym _ _ HC) (less_negtrans _ _ HC)
           (vals q) (length (items q)) k b (Value it) Hh); [| |done|].
  - rewrite <- (length_vals zero q). by eapply lookup_lt_Some.
  - by rewrite length_vals.
  - by eapply vals_lookup.
Qed.

(** X9: [Pop] on a non-empty queue returns a value that no stored value comes
    before: a least one in a min-queue, a greatest one in a max-queue.  It
    is the value [Peek] returns; the stored values are those of before
    without it, [Size] is one less, and the queue stays in order. *)
Theorem Pop_least (q : PriorityQueue) :
  pq_inv q -> CompareOK (compare q) -> items q <> [] ->
  exists a q',
    Pop zero q = Some (a, err_nil, q') /\
    Peek zero q = Some (a, err_nil) /\
    pq_inv q' /\ vals q ≡ₚ a :: vals q' /\
    Size q' = Size q - 1 /\
    forall b, b ∈ vals q ->
      if isMaxHeap q then compare q a b >= 0 else compare q a b <= 0.
Proof.
  intros Hinv HC Hne.
  destruct (Pop_root q Hinv HC Hne)
    as (a & q' & HP & HPk & Hinv' & Hperm & Hlen & _ & _ & Hleast).
  exists a, q'. split; [done|]. split; [done|]. split; [done|].
  split; [done|]. split.
  { unfold Size, priorityHeap_Len. lia. }
  intros b Hb. apply compare_of_less; [done|]. by apply Hleast.
Qed.

(** X8: [Push] adds the value: the stored values are those of before and the
    new one, [Size] is one more, the queue stays in order; the slice holds
    the handles of before and a new one, behind which the value is, and the
    items of the old handles keep their values. *)
Theorem Push_adds (v : T) (q : PriorityQueue) :
  pq_inv q -> CompareOK (compare q) -> priorityHeap_Len q + 1 < 2 ^ 62 ->
  exists q',
    Push v q = Some q' /\ pq_inv q' /\
    vals q' ≡ₚ v :: vals q /\ Size q' = Size q + 1 /\
    ToSlice q' ≡ₚ length (store q) :: ToSlice q /\
    Value <$> store q' !! length (store q) = Some v /\
    forall p it, store q !! p = Some it ->
                 Value <$> store q' !! p = Some (Value it).
Proof.
  intros (Hok & Hh & Hfit) HC Hroom.
  destruct (Push_ok zero v q Hok Hroom)
    as (q' & HP & Hok' & Hfit' & Hperm & Hlen & _ & _ & Hh').
  exists q'. split; [done|]. split; [by split; [|split; [apply Hh'|]]|].
  split; [done|]. split.
  { unfold Size, priorityHeap_Len. lia. }
  destruct (Push_unfold zero v q Hok) as (HP1 & Hok1 & _).
  rewrite HP in HP1. symmetry in HP1.
  destruct (up_loop_same _ _ _ _ Hok1 HP1)
    as (_ & _ & _ & _ & Hval & _ & Hitems).
  simpl in Hval, Hitems. split; [|split].
  - unfold ToSlice. rewrite Hitems. by rewrite Permutation_app_comm.
  - rewrite Hval, list_lookup_insert_eq by (rewrite length_app; simpl; lia).
    done.
  - intros p it Hit. pose proof (lookup_lt_Some _ _ _ Hit).
    rewrite Hval, list_lookup_insert_ne by lia.
    by rewrite lookup_app_l, Hit.
Qed.

Lemma push_all_ok (vs : list T) (q : PriorityQueue) :
  pq_inv q -> CompareOK (compare q) ->
  priorityHeap_Len q + Z.of_nat (length vs) < 2 ^ 62 ->
  exists q',
    push_all vs q = Some q' /\ pq_inv q' /\ vals q' ≡ₚ vs ++ vals q /\
    length (items q') = (length vs + length (items q))%nat /\
    compare q' = compare q /\ isMaxHeap q' = isMaxHeap q.
Proof.
  revert q. induction vs as [|v vs IH]; intros q Hinv HC Hroom.
  { by exists q. }
  destruct Hinv as (Hok & Hh & Hfit). cbn [length] in Hroom.
  destruct (Push_ok zero v q Hok ltac:(lia))
    as (q1 & HP & Hok1 & Hfit1 & Hperm1 & Hlen1 & Hc1 & Hm1 & Hh1).
  destruct (IH q1) as (q' & HPA & Hinv' & Hperm & Hlen & Hc & Hm).
  { by split; [|split; [apply Hh1|]]. }
  { by rewrite Hc1. }
  { unfold priorityHeap_Len in *. lia. }
  exists q'. split.
  { unfold push_all in *. simpl. by rewrite HP. }
  split; [done|]. split.
  { rewrite Hperm, Hperm1. simpl. symmetry. apply Permutation_middle. }
  split; [simpl; lia|]. split; congruence.
Qed.

Lemma drain_sorted (n : nat) (q : PriorityQueue) :
  pq_inv q -> CompareOK (compare q) -> length (items q) = n ->
  exists rs q',
    pop_n zero n q = Some (rs, q') /\ items q' = [] /\
    Forall (fun r => r.2 = err_nil) rs /\ rs.*1 ≡ₚ vals q /\
    StronglySorted (fun a b => lt_of q b a = false) rs.*1.
Proof.
  revert q. induction n as [|n IH]; intros q Hinv HC Hlen.
  { exists [], q. destruct (items q) eqn:Hq; [|done].
    split; [done|]. split; [done|]. split; [constructor|].
    unfold priorityqueue.vals. rewrite Hq. split; [done|constructor]. }
  destruct (Pop_root q Hinv HC)
    as (a & q1 & HP & _ & Hinv1 & Hperm & Hlen1 & Hc & Hm & Hleast).
  { by destruct (items q). }
  destruct (IH q1 Hinv1) as (rs & q' & Hpop & Hnil & Hall & Hperm' & Hsort).
  { by rewrite Hc. }
  { lia. }
  exists ((a, err_nil) :: rs), q'. simpl. rewrite HP. simpl.
  rewrite Hpop. simpl. split; [done|]. split; [done|].
  split; [by constructor|]. split; [by rewrite Hperm, Hperm'|].
  assert (Hlt : lt_of q1 = lt_of q) by (unfold lt_of; by rewrite Hc, Hm).
  rewrite Hlt in Hsort. constructor; [done|].
  apply Forall_forall. intros b Hb. apply Hleast.
  rewrite Hperm. apply elem_of_cons. right. by rewrite <- Hperm'.
Qed.

Lemma StronglySorted_mono (R R' : T -> T -> Prop) (l : list T) :
  (forall a b, R a b -> R' a b) ->
  StronglySorted R l -> StronglySorted R' l.
Proof.
  intros HR. induction 1 as [|a l Hs IH Hall]; constructor; [done|].
  eapply Forall_impl; [done|]. intros b. apply HR.
Qed.

Lemma sort_from_empty (vs : list T) (q0 : PriorityQueue) :
  CompareOK (compare q0) -> items q0 = [] ->
  Z.of_nat (length vs) < 2 ^ 62 ->
  exists q rs q',
    push_all vs q0 = Some q /\
    pop_n zero (length vs) q = Some (rs, q') /\
    IsEmpty q' = true /\
    Forall (fun r => r.2 = err_nil) rs /\ rs.*1 ≡ₚ vs /\
    StronglySorted
      (fun a b => if isMaxHeap q0 then compare q0 a b >= 0
                  else compare q0 a b <= 0) rs.*1.
Proof.
  intros HC Hnil Hroom.
  destruct (push_all_ok vs q0) as (q & HPA & Hinv & Hperm & Hlen & Hc & Hm).
  { by apply pq_inv_nil. }
  { done. }
  { unfold priorityHeap_Len. rewrite Hnil. simpl. lia. }
  destruct (drain_sorted (length vs) q Hinv)
    as (rs & q' & Hpop & Hnil' & Hall & Hperm' & Hsort).
  { by rewrite Hc. }
  { rewrite Hlen, Hnil. simpl. lia. }
  exists q, rs, q'. split; [done|]. split; [done|].
  split; [by apply IsEmpty_nil|]. split; [done|]. split.
  { rewrite Hperm', Hperm. unfold priorityqueue.vals. rewrite Hnil. simpl.
    by rewrite app_nil_r. }
  eapply StronglySorted_mono; [|done]. intros a b Hab. simpl in Hab.
  rewrite <- Hc, <- Hm. apply compare_of_less; [by rewrite Hc|done].
Qed.

(** X10: Heap sort: pushing the values [vs] into a new queue and popping as many
    times returns, without an error, the values of [vs] in order:
    ascending for [NewMinQueue], descending for [NewMaxQueue]; the queue
    is empty afterwards. *)
Theorem heap_sort (c : CompareFunc T) (vs : list T) :
  CompareOK c -> Z.of_nat (length vs) < 2 ^ 62 ->
  (exists q0 q rs q',
     NewMinQueue c = Some q0 /\ push_all vs q0 = Some q /\
     pop_n zero (length vs) q = Some (rs, q') /\ IsEmpty q' = true /\
     Forall (fun r => r.2 = err_nil) rs /\ rs.*1 ≡ₚ vs /\
     StronglySorted (fun a b => c a b <= 0) rs.*1) /\
  (exists q0 q rs q',
     NewMaxQueue c = Some q0 /\ push_all vs q0 = Some q /\
     pop_n zero (length vs) q = Some (rs, q') /\ IsEmpty q' = true /\
     Forall (fun r => r.2 = err_nil) rs /\ rs.*1 ≡ₚ vs /\
     StronglySorted (fun a b => c a b >= 0) rs.*1).
Proof.
  intros HC Hroom. split.
  - destruct (sort_from_empty vs
                {| store := []; items := []; compare := c;
                   isMaxHeap := false |} HC eq_refl Hroom)
      as (q & rs & q' & H).
    eexists _, q, rs, q'. split; [reflexivity|]. exact H.
  - destruct (sort_from_empty vs
                {| store := []; items := []; compare := c;
                   isMaxHeap := true |} HC eq_refl Hroom)
      as (q & rs & q' & H).
    eexists _, q, rs, q'. split; [reflexivity|]. exact H.
Qed.


(** X14: [ReverseCompare] twice gives the comparator back, also where the
    negation wraps around; and the reverse of a comparator that obeys the
    contract and never returns the least [int] obeys the contract. *)
Theorem ReverseCompare_contract (c : CompareFunc T) :
  (forall a b, in_range (c a b)) ->
  (forall a b, ReverseCompare (ReverseCompare c) a b = c a b) /\
  ((forall a b, c a b <> min_int) -> CompareOK c ->
   CompareOK (ReverseCompare c)).
Proof.
  intros Hr. split.
  - intros a b. unfold ReverseCompare, neg64. specialize (Hr a b).
    destruct (decide (c a b = min_int)) as [->|Hne]; [reflexivity|].
    rewrite (wrap_id (- c a b))
      by (unfold in_range, min_int, max_int in *; lia).
    rewrite Z.opp_involutive. by apply wrap_id.
  - intros Hmin [Hanti Htrans].
    assert (Hneg : forall a b, ReverseCompare c a b = - c a b).
    { intros a b. unfold ReverseCompare, neg64. apply wrap_id.
      specialize (Hr a b). specialize (Hmin a b).
      unfold in_range, min_int, max_int in *. lia. }
    split.
    + intros a b. rewrite !Hneg. pose proof (Hanti b a). lia.
    + intros a b d. rewrite !Hneg. intros Hab Hbd.
      pose proof (Hanti a b). pose proof (Hanti b d). pose proof (Hanti a d).
      pose proof (Hanti b a). pose proof (Hanti d b). pose proof (Hanti d a).
      pose proof (Htrans d b a). lia.
Qed.

(** X13: [Clear] empties the queue and writes no item: the items that were in
    the queue keep the positions they recorded, not [-1].  So after a
    [Push] on the cleared queue, [Remove] on the handle of the old root,
    which is not in the queue, takes out the item just pushed. *)
Theorem Clear_leaves_handles (q : PriorityQueue) :
  idx_ok q ->
  exists q1,
    Clear q = Some q1 /\ IsEmpty q1 = true /\ Size q1 = 0 /\ pq_inv q1 /\
    (forall i p, items q !! i = Some p ->
       exists it, store q1 !! p = Some it /\ Index it = Z.of_nat i) /\
    (forall p v, items q !! 0%nat = Some p ->
       exists q2 q3,
         Push v q1 = Some q2 /\ vals q2 = [v] /\ (p ∉ items q2) /\
         Remove p q2 = Some q3 /\ IsEmpty q3 = true).
Proof.
  intros Hok. exists (with_items q (store q) []).
  split; [apply Clear_eq|]. split; [done|]. split; [done|].
  split; [by apply pq_inv_nil|]. split; [exact Hok|].
  intros p v Hp. destruct (Hok _ _ Hp) as (it & Hit & Hidx).
  pose proof (lookup_lt_Some _ _ _ Hit) as Hlt.
  set (q1 := with_items q (store q) []).
  assert (Hok1 : idx_ok q1) by (intros i r; simpl; by rewrite lookup_nil).
  destruct (Push_unfold zero v q1 Hok1) as (HP & _ & Hv).
  pose (q2 := with_items q1
                (<[length (store q1) :=
                     {| Value := v; Index := priorityHeap_Len q1 |}]>
                   (store q1 ++ [NewItem v]))
                (items q1 ++ [length (store q1)])).
  exists q2. eexists. split.
  { rewrite HP. unfold heap_up. simpl.
    change (sub64 1 1) with 0. reflexivity. }
  split; [done|]. split.
  { simpl. intros ->%list_elem_of_singleton. lia. }
  unfold Remove, q2. simpl.
  rewrite list_lookup_insert_ne by lia. rewrite lookup_app_l by done.
  rewrite Hit. simpl. rewrite Hidx.
  unfold heap_Remove, priorityHeap_Pop, set_Index. simpl.
  rewrite list_lookup_insert_eq by (rewrite length_app; simpl; lia).
  simpl. split; reflexivity.
Qed.

End More.

Lemma pq_inv_two_items : pq_inv 0 two_items.
Proof.
  split; [idx_ok_by_cases|split].
  - intros k Hk a b Ha Hb. destruct k as [|[|k]]; [| |simpl in Hk; lia];
      vm_compute in Ha, Hb; injection Ha as <-; injection Hb as <-;
      reflexivity.
  - vm_compute. reflexivity.
Qed.

Lemma UpdateItem_unchanged_witness :
  UpdateItem 1%nat two_items = Some two_items.
Proof.
  apply (UpdateItem_unchanged 0 two_items 1%nat pq_inv_two_items).
  apply (list_elem_of_lookup_2 _ 1%nat). reflexivity.
Defined.

Lemma removed_handle_witness :
  UpdateItem 0%nat one_item_removed = Some one_item_removed /\
  Remove 0%nat one_item_removed = None.
Proof.
  apply (proj1 (removed_handle 0 one_item ltac:(idx_ok_by_cases)
                  ltac:(vm_compute; reflexivity)) 0%nat one_item_removed).
  - apply (list_elem_of_lookup_2 _ 0%nat). reflexivity.
  - vm_compute. reflexivity.
Defined.

Lemma Pop_least_witness :
  exists a (q' : PriorityQueue Z),
    Pop 0 two_items = Some (a, err_nil, q') /\
    Peek 0 two_items = Some (a, err_nil) /\
    pq_inv 0 q' /\ vals 0 two_items ≡ₚ a :: vals 0 q' /\
    Size q' = Size two_items - 1 /\
    forall b, b ∈ vals 0 two_items ->
      if isMaxHeap two_items then compare two_items a b >= 0
      else compare two_items a b <= 0.
Proof.
  apply (Pop_least 0 two_items pq_inv_two_items IntCompare_OK). done.
Defined.

Lemma Push_adds_witness :
  exists q' : PriorityQueue Z,
    Push 5 two_items = Some q' /\ pq_inv 0 q' /\
    vals 0 q' ≡ₚ 5 :: vals 0 two_items /\ Size q' = Size two_items + 1 /\
    ToSlice q' ≡ₚ length (store two_items) :: ToSlice two_items /\
    Value <$> store q' !! length (store two_items) = Some 5 /\
    forall p it, store two_items !! p = Some it ->
                 Value <$> store q' !! p = Some (Value it).
Proof.
  apply (Push_adds 0 5 two_items pq_inv_two_items IntCompare_OK).
  vm_compute. reflexivity.
Defined.

Lemma heap_sort_witness :
  (exists (q0 q : PriorityQueue Z) rs q',
     NewMinQueue IntCompare = Some q0 /\ push_all [30; 10; 20] q0 = Some q /\
     pop_n 0 (length [30; 10; 20]) q = Some (rs, q') /\ IsEmpty q' = true /\
     Forall (fun r => r.2 = err_nil) rs /\ rs.*1 ≡ₚ [30; 10; 20] /\
     StronglySorted (fun a b => IntCompare a b <= 0) rs.*1) /\
  (exists (q0 q : PriorityQueue Z) rs q',
     NewMaxQueue IntCompare = Some q0 /\ push_all [30; 10; 20] q0 = Some q /\
     pop_n 0 (length [30; 10; 20]) q = Some (rs, q') /\ IsEmpty q' = true /\
     Forall (fun r => r.2 = err_nil) rs /\ rs.*1 ≡ₚ [30; 10; 20] /\
     StronglySorted (fun a b => IntCompare a b >= 0) rs.*1).
Proof.
  apply (heap_sort 0 IntCompare [30; 10; 20] IntCompare_OK).
  vm_compute. reflexivity.
Defined.

Lemma ReverseCompare_contract_witness :
  (forall a b, ReverseCompare (ReverseCompare IntCompare) a b
               = IntCompare a b) /\
  ((forall a b, IntCompare a b <> min_int) -> CompareOK IntCompare ->
   CompareOK (ReverseCompare IntCompare)).
Proof.
  apply (ReverseCompare_contract IntCompare).
  intros a b. unfold IntCompare.
  destruct (a <? b); [|destruct (a >? b)]; vm_compute; split; discriminate.
Defined.

Lemma Clear_leaves_handles_witness :
  exists q1 : PriorityQueue Z,
    Clear two_items = Some q1 /\ IsEmpty q1 = true /\ Size q1 = 0 /\
    pq_inv 0 q1 /\
    (forall i p, items two_items !! i = Some p ->
       exists it, store q1 !! p = Some it /\ Index it = Z.of_nat i) /\
    (forall p v, items two_items !! 0%nat = Some p ->
       exists q2 q3,
         Push v q1 = Some q2 /\ vals 0 q2 = [v] /\ (p ∉ items q2) /\
         Remove p q2 = Some q3 /\ IsEmpty q3 = true).
Proof. apply (Clear_leaves_handles 0 two_items). idx_ok_by_cases. Defined.

End pq_more.

(** ** The comparison functions *)

Module comparators.
Import priorityqueue.

(** X15: [IntCompare] returns [-1], [0] or [1] as [a] is below, equal to or
    above [b]. *)
Theorem IntCompare_order (a b : Z) :
  (IntCompare a b = -1 <-> a < b) /\
  (IntCompare a b = 0 <-> a = b) /\
  (IntCompare a b = 1 <-> a > b).
Proof.
  unfold IntCompare.
  destruct (Z.ltb_spec a b); [|destruct (Z.gtb_spec a b)];
    repeat split; intros; try lia; try discriminate.
Qed.

Lemma IntCompare_zero (a b : Z) : IntCompare a b = 0 <-> a = b.
Proof.
  unfold IntCompare.
  destruct (Z.ltb_spec a b); [|destruct (Z.gtb_spec a b)];
    split; intros; try lia; try discriminate.
Qed.

(** A comparator that applies [IntCompare] to a field obeys the contract
    and returns [-1], [0] and [1] only. *)
Lemma by_field_OK {A : Type} (f : A -> Z) :
  CompareOK (fun a b : A => IntCompare (f a) (f b)) /\
  sign_valued (fun a b : A => IntCompare (f a) (f b)).
Proof.
  destruct pq_order.IntCompare_OK as [Hanti Htrans].
  split; [split|].
  - intros a b. apply Hanti.
  - intros a b d. apply Htrans.
  - intros a b. apply pq_reverse.IntCompare_sign_valued.
Qed.

(** X16: The comparators of the example types obey the comparator contract and
    return [-1], [0] and [1] only; each one returns [0] exactly on two
    values whose compared fields are equal. *)
Theorem example_comparators :
  (CompareOK TaskByPriority /\ sign_valued TaskByPriority /\
   forall a b, TaskByPriority a b = 0 <-> Task_Priority a = Task_Priority b) /\
  (CompareOK TaskByID /\ sign_valued TaskByID /\
   forall a b, TaskByID a b = 0 <-> Task_ID a = Task_ID b) /\
  (CompareOK NodeByDistance /\ sign_valued NodeByDistance /\
   forall a b, NodeByDistance a b = 0 <-> Node_Distance a = Node_Distance b) /\
  (CompareOK PatientByUrgency /\ sign_valued PatientByUrgency /\
   forall a b, PatientByUrgency a b = 0
               <-> Patient_UrgencyLevel a = Patient_UrgencyLevel b) /\
  (CompareOK ScoreByPoints /\ sign_valued ScoreByPoints /\
   forall a b, ScoreByPoints a b = 0 <-> Score_Points a = Score_Points b).
Proof.
  repeat split;
    try (by apply (by_field_OK Task_Priority));
    try (by apply (by_field_OK Task_ID));
    try (by apply (by_field_OK Node_Distance));
    try (by apply (by_field_OK Patient_UrgencyLevel));
    try (by apply (by_field_OK Score_Points));
    by apply IntCompare_zero.
Qed.

Lemma str_lt_asym (a b : string) : str_lt a b = true -> str_lt b a = false.
Proof.
  revert b. induction a as [|x a IH]; intros [|y b]; simpl; try done.
  destruct (N.ltb_spec (Ascii.N_of_ascii x) (Ascii.N_of_ascii y)),
           (N.ltb_spec (Ascii.N_of_ascii y) (Ascii.N_of_ascii x)),
           (N.eqb_spec (Ascii.N_of_ascii x) (Ascii.N_of_ascii y)),
           (N.eqb_spec (Ascii.N_of_ascii y) (Ascii.N_of_ascii x));
    simpl; try done; try lia.
  apply IH.
Qed.

Lemma str_lt_total (a b : string) :
  str_lt a b = false -> str_lt b a = false -> a = b.
Proof.
  revert b. induction a as [|x a IH]; intros [|y b]; simpl; try done.
  destruct (N.ltb_spec (Ascii.N_of_ascii x) (Ascii.N_of_ascii y)),
           (N.ltb_spec (Ascii.N_of_ascii y) (Ascii.N_of_ascii x)),
           (N.eqb_spec (Ascii.N_of_ascii x) (Ascii.N_of_ascii y)),
           (N.eqb_spec (Ascii.N_of_ascii y) (Ascii.N_of_ascii x));
    simpl; try done; try lia.
  intros Hab Hba. f_equal; [|by apply IH].
  rewrite <- (Ascii.ascii_N_embedding x), <- (Ascii.ascii_N_embedding y).
  congruence.
Qed.

Lemma str_lt_negtrans (d a b : string) :
  str_lt d a = true -> str_lt d b = true \/ str_lt b a = true.
Proof.
  revert a b. induction d as [|x d IH]; intros [|y a] [|z b]; simpl;
    try done; auto.
  destruct (N.ltb_spec (Ascii.N_of_ascii x) (Ascii.N_of_ascii y)),
           (N.ltb_spec (Ascii.N_of_ascii x) (Ascii.N_of_ascii z)),
           (N.ltb_spec (Ascii.N_of_ascii z) (Ascii.N_of_ascii y)),
           (N.eqb_spec (Ascii.N_of_ascii x) (Ascii.N_of_ascii y)),
           (N.eqb_spec (Ascii.N_of_ascii x) (Ascii.N_of_ascii z)),
           (N.eqb_spec (Ascii.N_of_ascii z) (Ascii.N_of_ascii y));
    simpl; auto; try done; try lia.
Qed.

(** X17: [StringCompare] obeys the comparator contract, returns [-1], [0] and
    [1] only, and returns [0] exactly on equal strings. *)
Theorem StringCompare_order :
  CompareOK StringCompare /\ sign_valued StringCompare /\
  forall a b, StringCompare a b = 0 <-> a = b.
Proof.
  split; [split|split].
  - intros a b. unfold StringCompare.
    destruct (str_lt a b) eqn:Hab.
    + rewrite (str_lt_asym a b Hab). lia.
    + destruct (str_lt b a); lia.
  - assert (Hle : forall x y, StringCompare x y <= 0 <-> str_lt y x = false).
    { intros x y. unfold StringCompare. destruct (str_lt x y) eqn:Hxy.
      - rewrite (str_lt_asym x y Hxy). lia.
      - destruct (str_lt y x); split; (done || lia). }
    intros a b d. rewrite !Hle. intros Hba Hdb.
    destruct (str_lt d a) eqn:Hda; [|done].
    destruct (str_lt_negtrans d a b Hda); congruence.
  - intros a b. unfold StringCompare.
    destruct (str_lt a b); [by left|]. destruct (str_lt b a); auto.
  - intros a b. unfold StringCompare. split.
    + destruct (str_lt a b) eqn:Hab; [done|].
      destruct (str_lt b a) eqn:Hba; [done|]. intros _.
      by apply str_lt_total.
    + intros ->. destruct (str_lt b b) eqn:Hbb; [|done].
      by rewrite (str_lt_asym b b Hbb) in Hbb.
Qed.

(** X18: [Float64Compare] does not obey the comparator contract: it returns [0]
    whenever an operand is a NaN, so 1 is "not after" a NaN and a NaN is
    "not after" 0, while 1 is after 0. *)
Theorem Float64Compare_NaN : ~ CompareOK Float64Compare.
Proof.
  intros [_ Htrans].
  specialize (Htrans PrimFloat.one PrimFloat.nan PrimFloat.zero).
  assert (H1 : Float64Compare PrimFloat.one PrimFloat.nan = 0)
    by reflexivity.
  assert (H2 : Float64Compare PrimFloat.nan PrimFloat.zero = 0)
    by reflexivity.
  assert (H3 : Float64Compare PrimFloat.one PrimFloat.zero = 1)
    by reflexivity.
  rewrite H1, H2, H3 in Htrans. lia.
Qed.

End comparators.
